(** * JWM icon cache, icon scaler, background manager and status window

    A shallow embedding of [src/icon.c], [src/background.c] and
    [src/status.c], the properties of their specification, and further
    properties of the code.

    Conventions of the embedding.
    - A C [int] is a [Z] in the range of 32 bits; every arithmetic
      operation that can leave the range is followed by [wrap_int]
      (two's complement), an [unsigned] by [wrap_uint].
    - A function that can dereference a dangling or NULL pointer, divide
      by zero, read outside a buffer or walk a cyclic chain for ever
      returns [option]: [None] stands for "no defined result".
    - A singly linked list that is owned by one record (the images of an
      icon, the renderings of an image, the backgrounds) is a Rocq list in
      chain order; NULL is [[]].  The doubly linked hash chains of the icon
      cache are pointers into a heap of [IconNode] records. *)

From Stdlib Require Import ZArith Lia Bool Ascii String.
From stdpp Require Import base option list gmap strings.

Local Open Scope Z_scope.

(** ** C integers *)

Definition wrap_int (z : Z) : Z := (z + 2 ^ 31) mod 2 ^ 32 - 2 ^ 31.
Definition wrap_uint (z : Z) : Z := z mod 2 ^ 32.

Definition int_mul (a b : Z) : Z := wrap_int (a * b).
Definition int_shl (a n : Z) : Z := wrap_int (Z.shiftl a n).
Definition int_shr (a n : Z) : Z := Z.shiftr a n.

(** [a / b] on [int]: truncation toward zero; no result for [b = 0] and
    for [INT_MIN / -1]. *)
Definition int_div (a b : Z) : option Z :=
  if b =? 0 then None
  else if (a =? - 2 ^ 31) && (b =? -1) then None
  else Some (Z.quot a b).

(** Modelled from the spec: the macros [Min] and [Max] of jwm.h, which is
    not among the sources; the spec's per-axis minimum and its clamp to a
    minimum of 1. *)
Definition Min (a b : Z) : Z := if a <? b then a else b.
Definition Max (a b : Z) : Z := if a >? b then a else b.

(** ** Data model (icon.h, image.h) *)

(** X resource identifiers are integers; [None] is 0. *)
Definition XNone : Z := 0.

Record ScaledIconNode := mkScaled {
  sn_width : Z;
  sn_height : Z;
  sn_fg : Z;
  sn_image : Z;
  sn_mask : Z;
  sn_imagePicture : Z;
  sn_alphaPicture : Z
}.

(** One decoded raster.  [img_nodes] is the chain [nodes] of renderings,
    newest first: cells are only ever pushed at its head, so a cell keeps
    its position counted from the tail, and that position is what a
    [ScaledIconNode*] into the chain is.  [img_data] is [None] once
    released. *)
Record ImageNode := mkImage {
  img_width : Z;
  img_height : Z;
  img_bitmap : bool;
  img_data : option (list Z);
  img_nodes : list ScaledIconNode
}.

Record IconNode := mkIcon {
  name : option string;
  images : list ImageNode;
  next : option nat;
  prev : option nat;
  preserveAspect : bool
}.

(** ** Icon resolver: [GetBestImage] *)

Definition image_area (i : ImageNode) : Z := int_mul (img_width i) (img_height i).

(** One iteration of the [while(ip)] loop: the new value of [best]. *)
Definition best_step (rwidth rheight : Z) (best ip : ImageNode) : ImageNode :=
  let best_area := image_area best in
  let other_area := image_area ip in
  let '(best_overlap, other_overlap) :=
    if (rwidth =? 0) && (rheight =? 0) then (0, 0)
    else if rwidth =? 0 then
      (Min (img_height best) rheight, Min (img_height ip) rheight)
    else if rheight =? 0 then
      (Min (img_width best) rwidth, Min (img_width ip) rwidth)
    else
      (int_mul (Min (img_width best) rwidth) (Min (img_height best) rheight),
       int_mul (Min (img_width ip) rwidth) (Min (img_height ip) rheight)) in
  if other_overlap >? best_overlap then ip
  else if other_overlap =? best_overlap then
    (if other_area <? best_area then ip else best)
  else best.

Fixpoint best_loop (rwidth rheight : Z) (best : ImageNode) (ip : list ImageNode)
  : ImageNode :=
  match ip with
  | [] => best
  | i :: rest => best_loop rwidth rheight (best_step rwidth rheight best i) rest
  end.

(** [icon->images->next] has no value when the icon has no image. *)
Definition GetBestImage (icon : IconNode) (rwidth rheight : Z) : option ImageNode :=
  match images icon with
  | [] => None
  | first :: rest => Some (best_loop rwidth rheight first rest)
  end.

(** ** Icon scaler: [GetScaledIcon] *)

(** Lines 518-535: the effective size [(nwidth, nheight)]. *)
Definition scaled_size (aspect : bool) (iw ih rwidth rheight : Z) : option (Z * Z) :=
  let rwidth := if rwidth =? 0 then iw else rwidth in
  let rheight := if rheight =? 0 then ih else rheight in
  '(nwidth, nheight) ←
    (if aspect then
       ratio ← int_div (int_shl iw 16) ih;
       let nwidth := Min rwidth (int_shr (int_mul rheight ratio) 16) in
       q ← int_div (int_shl nwidth 16) ratio;
       let nheight := Min rheight q in
       let nwidth := int_shr (int_mul nheight ratio) 16 in
       Some (nwidth, nheight)
     else Some (rwidth, rheight));
  Some (Max 1 nwidth, Max 1 nheight).


(** ** The icon cache: state *)

(** Requests sent to the X server (those that create or free a resource). *)
Inductive XRequest :=
  | XCreatePixmap (id width height depth : Z)
  | XFreePixmap (id : Z)
  | XRenderCreatePicture (id : Z)
  | XRenderFreePicture (id : Z)
  | XFreeGC.

(** [heap] holds every live [IconNode], the static [emptyIcon] included;
    [iconHash] maps a bucket index to the head of its chain, an absent index
    being a NULL entry; [xid] is the next free X identifier. *)
Record State := mkState {
  heap : gmap nat IconNode;
  iconHash : gmap Z nat;
  iconPaths : list string;
  xid : positive;
  xlog : list XRequest
}.

Definition set_heap (h : gmap nat IconNode) (s : State) : State :=
  mkState h (iconHash s) (iconPaths s) (xid s) (xlog s).
Definition set_iconHash (t : gmap Z nat) (s : State) : State :=
  mkState (heap s) t (iconPaths s) (xid s) (xlog s).
Definition set_iconPaths (p : list string) (s : State) : State :=
  mkState (heap s) (iconHash s) p (xid s) (xlog s).
Definition set_xid (x : positive) (s : State) : State :=
  mkState (heap s) (iconHash s) (iconPaths s) x (xlog s).
Definition add_xlog (r : list XRequest) (s : State) : State :=
  mkState (heap s) (iconHash s) (iconPaths s) (xid s) (xlog s ++ r).

Definition set_name (n : option string) (i : IconNode) : IconNode :=
  mkIcon n (images i) (next i) (prev i) (preserveAspect i).
Definition set_images (l : list ImageNode) (i : IconNode) : IconNode :=
  mkIcon (name i) l (next i) (prev i) (preserveAspect i).
Definition set_next (p : option nat) (i : IconNode) : IconNode :=
  mkIcon (name i) (images i) p (prev i) (preserveAspect i).
Definition set_prev (p : option nat) (i : IconNode) : IconNode :=
  mkIcon (name i) (images i) (next i) p (preserveAspect i).
Definition set_preserveAspect (b : bool) (i : IconNode) : IconNode :=
  mkIcon (name i) (images i) (next i) (prev i) b.

(** [p->field = v]: a store through a pointer, which must be live. *)
Definition store (p : nat) (f : IconNode → IconNode) (s : State) : option State :=
  i ← heap s !! p; Some (set_heap (<[p := f i]> (heap s)) s).

(** [iconHash[index] = p]. *)
Definition store_hash (index : Z) (p : option nat) (s : State) : State :=
  match p with
  | Some a => set_iconHash (<[index := a]> (iconHash s)) s
  | None => set_iconHash (delete index (iconHash s)) s
  end.

Definition HASH_SIZE : Z := 128.

(** The static [emptyIcon], all of whose fields are zero. *)
Definition emptyIcon : nat := 0%nat.
Definition zero_icon : IconNode := mkIcon None [] None None false.

(** [Allocate]: an address that no live record has. *)
Definition fresh_addr (h : gmap nat IconNode) : nat :=
  S (max_list (elements (dom h))).

(** [(unsigned int)c] for a [char], which is signed. *)
Definition uint_of_char (c : ascii) : Z :=
  let n := Z.of_N (N_of_ascii c) in
  if n <? 128 then n else wrap_uint (n - 256).

Fixpoint hash_loop (hash : Z) (str : string) : Z :=
  match str with
  | EmptyString => hash
  | String c rest =>
      hash_loop (Z.lxor (wrap_uint (hash + wrap_uint (Z.shiftl hash 5)))
                        (uint_of_char c)) rest
  end.

Definition GetHash (str : option string) : Z :=
  match str with
  | None => 0
  | Some st => Z.land (hash_loop 0 st) (HASH_SIZE - 1)
  end.

Definition InitializeIcons (s : State) : State :=
  mkState (<[emptyIcon := zero_icon]> (heap s)) ∅ [] (xid s) (xlog s).

(** The [while(icon)] loop of [FindIcon].  A chain of live records that
    ends has at most [size heap] cells, which is the fuel [FindIcon] gives:
    running out of it means the chain is cyclic. *)
Fixpoint find_loop (fuel : nat) (h : gmap nat IconNode) (icon : option nat)
    (nm : string) : option (option nat) :=
  match icon with
  | None => Some None
  | Some a =>
      match fuel with
      | O => None
      | S fuel' =>
          i ← h !! a;
          n ← name i;
          if decide (n = nm) then Some (Some a)
          else find_loop fuel' h (next i) nm
      end
  end.

Definition FindIcon (nm : string) (s : State) : option (option nat) :=
  let index := GetHash (Some nm) in
  find_loop (size (heap s)) (heap s) (iconHash s !! index) nm.

Definition InsertIcon (icon : nat) (s : State) : option State :=
  i ← heap s !! icon;
  n ← name i;
  let index := GetHash (Some n) in
  s ← store icon (set_prev None) s;
  s ← match iconHash s !! index with
      | Some hd => store hd (set_prev (Some icon)) s
      | None => Some s
      end;
  s ← store icon (set_next (iconHash s !! index)) s;
  Some (store_hash index (Some icon) s).

Definition CreateIcon (s : State) : nat * State :=
  let icon := fresh_addr (heap s) in
  (icon, set_heap (<[icon := mkIcon None [] None None true]> (heap s)) s).

(** ** The icon cache: operations *)

(** Compile-time switches of the build. *)
Record Build := mkBuild {
  USE_PNG : bool;
  USE_SVG : bool;
  USE_XPM : bool;
  USE_JPEG : bool;
  USE_XBM : bool;
  USE_XRENDER : bool
}.

Definition ICON_EXTENSIONS (b : Build) : list string :=
  [EmptyString]
  ++ (if USE_PNG b then [".png"; ".PNG"]%string else [])
  ++ (if USE_SVG b then [".svg"; ".SVG"]%string else [])
  ++ (if USE_XPM b then [".xpm"; ".XPM"]%string else [])
  ++ (if USE_JPEG b then [".jpg"; ".JPG"; ".jpeg"; ".JPEG"]%string else [])
  ++ (if USE_XBM b then [".xbm"; ".XBM"]%string else []).

Definition set_nodes (l : list ScaledIconNode) (i : ImageNode) : ImageNode :=
  mkImage (img_width i) (img_height i) (img_bitmap i) (img_data i) l.
Definition set_data (d : option (list Z)) (i : ImageNode) : ImageNode :=
  mkImage (img_width i) (img_height i) (img_bitmap i) d (img_nodes i).
Definition set_size (w h : Z) (n : ScaledIconNode) : ScaledIconNode :=
  mkScaled w h (sn_fg n) (sn_image n) (sn_mask n) (sn_imagePicture n)
           (sn_alphaPicture n).

(** Modelled from the spec: [CreateImage] of image.c, which is not among
    the sources; a variant of the given size and kind with a pixel buffer
    and no rendering yet. *)
Definition CreateImage (width height : Z) (bitmap : bool) : ImageNode :=
  mkImage (wrap_int width) (wrap_int height) bitmap (Some []) [].

Section IconModel.

(** The build, the image store ([LoadImage] of image.c: the decoded variants
    of a file, [[]] when it cannot be decoded), whether the compositing
    extension is there, and the depth of the root window. *)
Variable build : Build.
Variable LoadImage : string → list ImageNode.
Variable haveRender : bool.
Variable rootDepth : Z.

Definition CreateIconFromFile (fileName : option string)
    (save aspect : bool) (s : State) : option (option nat * State) :=
  match fileName with
  | None => Some (None, s)
  | Some file =>
      result ← FindIcon file s;
      match result with
      | Some icon => Some (Some icon, s)
      | None =>
          match LoadImage file with
          | [] => Some (None, s)
          | image =>
              let '(result, s) := CreateIcon s in
              s ← store result (set_preserveAspect aspect) s;
              s ← store result (set_images image) s;
              if save then
                s ← store result (set_name (Some file)) s;
                s ← InsertIcon result s;
                Some (Some result, s)
              else Some (Some result, s)
          end
      end
  end.

(** The loop of [LoadNamedIconHelper] over the extensions left to try. *)
Fixpoint helper_loop (exts : list string) (name path : string)
    (save aspect : bool) (s : State) : option (option nat * State) :=
  match exts with
  | [] => Some (None, s)
  | ext :: rest =>
      let temp := String.append path (String.append name ext) in
      '(result, s) ← CreateIconFromFile (Some temp) save aspect s;
      match result with
      | Some icon => Some (Some icon, s)
      | None => helper_loop rest name path save aspect s
      end
  end.

Definition LoadNamedIconHelper (name path : string) (save aspect : bool)
    (s : State) : option (option nat * State) :=
  helper_loop (ICON_EXTENSIONS build) name path save aspect s.

(** The loop of [LoadNamedIcon] over the search paths left to try. *)
Fixpoint paths_loop (ip : list string) (name : string) (save aspect : bool)
    (s : State) : option (option nat * State) :=
  match ip with
  | [] => Some (None, s)
  | path :: rest =>
      '(icon, s) ← LoadNamedIconHelper name path save aspect s;
      match icon with
      | Some i => Some (Some i, s)
      | None => paths_loop rest name save aspect s
      end
  end.

Definition LoadNamedIcon (name : string) (save aspect : bool) (s : State)
  : option (option nat * State) :=
  match name with
  | EmptyString => Some (Some emptyIcon, s)
  | String c _ =>
      if decide (c = "/"%char) then CreateIconFromFile (Some name) save aspect s
      else paths_loop (iconPaths s) name save aspect s
  end.

(** *** Destruction *)

Definition free_node (np : ScaledIconNode) : list XRequest :=
  (if USE_XRENDER build then
     (if sn_imagePicture np =? XNone then []
      else [XRenderFreePicture (sn_imagePicture np)])
     ++ (if sn_alphaPicture np =? XNone then []
         else [XRenderFreePicture (sn_alphaPicture np)])
   else [])
  ++ (if sn_image np =? XNone then [] else [XFreePixmap (sn_image np)])
  ++ (if sn_mask np =? XNone then [] else [XFreePixmap (sn_mask np)]).

Definition free_images (l : list ImageNode) : list XRequest :=
  concat (map (λ image, concat (map free_node (img_nodes image))) l).

Definition DoDestroyIcon (index : Z) (icon : option nat) (s : State)
  : option State :=
  match icon with
  | None => Some s
  | Some a =>
      if decide (a = emptyIcon) then Some s
      else
        i ← heap s !! a;
        let s := add_xlog (free_images (images i)) s in
        s ← match prev i with
            | Some p => store p (set_next (next i)) s
            | None => Some (store_hash index (next i) s)
            end;
        s ← match next i with
            | Some n => store n (set_prev (prev i)) s
            | None => Some s
            end;
        Some (set_heap (delete a (heap s)) s)
  end.

Definition DestroyIcon (icon : option nat) (s : State) : option State :=
  match icon with
  | None => Some s
  | Some a =>
      i ← heap s !! a;
      match name i with
      | None =>
          let index := GetHash (name i) in
          DoDestroyIcon index (Some a) s
      | Some _ => Some s
      end
  end.

(** The [while(iconHash[x])] loop of [ShutdownIcons].  Every round that
    returns frees a record, so [size heap] rounds are enough unless the
    loop never ends. *)
Fixpoint shutdown_loop (fuel : nat) (x : Z) (s : State) : option State :=
  match iconHash s !! x with
  | None => Some s
  | Some a =>
      match fuel with
      | O => None
      | S fuel' => s ← DoDestroyIcon x (Some a) s; shutdown_loop fuel' x s
      end
  end.

Fixpoint shutdown_buckets (xs : list Z) (s : State) : option State :=
  match xs with
  | [] => Some s
  | x :: rest =>
      s ← shutdown_loop (size (heap s)) x s; shutdown_buckets rest s
  end.

Definition ShutdownIcons (s : State) : option State :=
  s ← shutdown_buckets (seqZ 0 HASH_SIZE) s;
  Some (add_xlog [XFreeGC] s).

(** *** Rendering: [GetScaledIcon] *)

(** The loop over [iconImage->nodes] (lines 540-553): the cell found, as
    its position from the tail, and the chain after the loop, which under
    [USE_XRENDER] writes the size into a cell that holds a picture. *)
Fixpoint probe (nwidth nheight fg : Z) (bitmap : bool)
    (np : list ScaledIconNode) : option (nat * list ScaledIconNode) :=
  match np with
  | [] => None
  | n :: rest =>
      if USE_XRENDER build && negb (sn_imagePicture n =? XNone) then
        Some (length rest, set_size nwidth nheight n :: rest)
      else if (sn_width n =? nwidth) && (sn_height n =? nheight)
              && (negb bitmap || (sn_fg n =? fg)) then
        Some (length rest, n :: rest)
      else
        '(found, rest') ← probe nwidth nheight fg bitmap rest;
        Some (found, n :: rest')
  end.

(** Modelled from the spec: [CreateScaledRenderIcon] of render.c, which is
    not among the sources; it produces a single handle covering the variant
    at its native resolution, tagged with the foreground, and memoizes it
    in the variant's chain. *)
Definition CreateScaledRenderIcon (iconImage : ImageNode) (fg : Z) (s : State)
  : ImageNode * State :=
  let picture := Z.pos (xid s) in
  let alpha := Z.pos (xid s + 1) in
  let np := mkScaled (img_width iconImage) (img_height iconImage) fg
                     XNone XNone picture alpha in
  (set_nodes (np :: img_nodes iconImage) iconImage,
   add_xlog [XRenderCreatePicture picture; XRenderCreatePicture alpha]
            (set_xid (xid s + 2)%positive s)).

(** [data[i]]: there is no value outside the buffer. *)
Definition byte_at (data : list Z) (i : Z) : option Z :=
  if i <? 0 then None else data !! Z.to_nat i.

(** Lines 601-626, one pixel of the rendering: the reads of the pixel
    buffer at the fixed point position ([srcx], [srcy]) of the source.  The
    result is the colour handed to [GetColor] (none for a bitmap, whose
    points take the foreground) and whether the point goes into the
    mask. *)
Definition scale_pixel (iconImage : ImageNode) (data : list Z) (srcx srcy : Z)
  : option (option (Z * Z * Z) * bool) :=
  let yindex := int_mul (int_shr srcy 16) (img_width iconImage) in
  if img_bitmap iconImage then
    let index := wrap_int (yindex + int_shr srcx 16) in
    let offset := int_shr index 3 in
    let mask := int_shl 1 (Z.land index 7) in
    d ← byte_at data offset;
    Some (None, negb (Z.land d mask =? 0))
  else
    let index := int_mul 4 (wrap_int (yindex + int_shr srcx 16)) in
    red ← byte_at data (wrap_int (index + 1));
    green ← byte_at data (wrap_int (index + 2));
    blue ← byte_at data (wrap_int (index + 3));
    alpha ← byte_at data index;
    Some (Some (Z.land (Z.lor red (Z.shiftl red 8)) 65535,
                Z.land (Z.lor green (Z.shiftl green 8)) 65535,
                Z.land (Z.lor blue (Z.shiftl blue 8)) 65535),
          128 <=? alpha).

(** The loop [for(x ...)] over the pixels left of a row. *)
Fixpoint scale_row (n : nat) (iconImage : ImageNode) (data : list Z)
    (srcx srcy scalex : Z) : option (list (option (Z * Z * Z) * bool)) :=
  match n with
  | O => Some []
  | S n' =>
      pixel ← scale_pixel iconImage data srcx srcy;
      rest ← scale_row n' iconImage data (wrap_int (srcx + scalex)) srcy scalex;
      Some (pixel :: rest)
  end.

(** The loop [for(y ...)] over the rows left. *)
Fixpoint scale_rows (n : nat) (nwidth : nat) (iconImage : ImageNode)
    (data : list Z) (srcy scalex scaley : Z)
  : option (list (list (option (Z * Z * Z) * bool))) :=
  match n with
  | O => Some []
  | S n' =>
      row ← scale_row nwidth iconImage data 0 srcy scalex;
      rest ← scale_rows n' nwidth iconImage data (wrap_int (srcy + scaley))
                        scalex scaley;
      Some (row :: rest)
  end.

(** Lines 595-637: the scale factors and the two loops.  A pixel buffer
    that was released is read like an empty one. *)
Definition scale_image (iconImage : ImageNode) (nwidth nheight : Z)
  : option (list (list (option (Z * Z * Z) * bool))) :=
  scalex ← int_div (int_shl (img_width iconImage) 16) nwidth;
  scaley ← int_div (int_shl (img_height iconImage) 16) nheight;
  let data := default [] (img_data iconImage) in
  scale_rows (Z.to_nat nheight) (Z.to_nat nwidth) iconImage data 0 scalex scaley.

(** The result is the rendering, as its position from the tail of the
    chain of the image, with the image and the state as the call leaves
    them.  A new rendering made without the compositing extension is
    filled by the loop of [scale_image], whose reads of the pixel buffer
    must be inside it; the requests that draw what the loop computes
    change no record and are left out of [xlog]. *)
Definition GetScaledIcon (icon : IconNode) (iconImage : ImageNode)
    (fg rwidth rheight : Z) (s : State) : option (nat * ImageNode * State) :=
  '(nwidth, nheight) ← scaled_size (preserveAspect icon) (img_width iconImage)
                         (img_height iconImage) rwidth rheight;
  match probe nwidth nheight fg (img_bitmap iconImage) (img_nodes iconImage) with
  | Some (np, nodes) => Some (np, set_nodes nodes iconImage, s)
  | None =>
      if USE_XRENDER build && haveRender then
        let '(iconImage, s) := CreateScaledRenderIcon iconImage fg s in
        let iconImage := set_data None iconImage in
        match img_nodes iconImage with
        | np :: rest =>
            Some (length rest,
                  set_nodes (set_size nwidth nheight np :: rest) iconImage, s)
        | [] => None
        end
      else
        let mask := Z.pos (xid s) in
        let image := Z.pos (xid s + 1) in
        let np := mkScaled nwidth nheight fg image mask XNone XNone in
        raster ← scale_image iconImage nwidth nheight;
        Some (length (img_nodes iconImage),
              set_nodes (np :: img_nodes iconImage) iconImage,
              add_xlog [XCreatePixmap mask nwidth nheight 1;
                        XCreatePixmap image nwidth nheight rootDepth]
                       (set_xid (xid s + 2)%positive s))
  end.

End IconModel.

(** *** Icons from window properties: [CreateIconFromBinary] *)

(** What a walk over a caller's buffer gives: a value, a read at an index
    where the buffer has no word, or no end. *)
Inductive result (A : Type) :=
  | Done (a : A)
  | ReadOutside (index : Z)
  | Endless.
Arguments Done {A} a.
Arguments ReadOutside {A} index.
Arguments Endless {A}.

(** The [for(x ...)] loop: [n] words from [offset] on, four bytes each. *)
Fixpoint copy_pixels (n : nat) (input : list Z) (offset : Z) (data : list Z)
  : result (list Z * Z) :=
  match n with
  | O => Done (data, offset)
  | S n' =>
      match input !! Z.to_nat offset with
      | None => ReadOutside offset
      | Some w =>
          copy_pixels n' input (wrap_uint (offset + 1))
            (data ++ [Z.land (Z.shiftr w 24) 255; Z.land (Z.shiftr w 16) 255;
                      Z.land (Z.shiftr w 8) 255; Z.land (Z.shiftr w 0) 255])
      end
  end.

(** [image->next = result->images; result->images = image]. *)
Definition push_image (icon : nat) (image : ImageNode) (s : State) : State :=
  set_heap (alter (λ i, set_images (image :: images i) i) icon (heap s)) s.

(** The [while(offset < length)] loop.  A round that goes on moves
    [offset] by two words at least. *)
Fixpoint binary_loop (fuel : nat) (input : list Z) (length offset : Z)
    (res : option nat) (s : State) : result (option nat * State) :=
  if offset <? length then
    match fuel with
    | O => Endless
    | S fuel' =>
        match input !! Z.to_nat (wrap_uint (offset + 0)) with
        | None => ReadOutside (wrap_uint (offset + 0))
        | Some w0 =>
            match input !! Z.to_nat (wrap_uint (offset + 1)) with
            | None => ReadOutside (wrap_uint (offset + 1))
            | Some w1 =>
                let width := wrap_uint w0 in
                let height := wrap_uint w1 in
                if wrap_uint (wrap_uint (width * height) + 2)
                   >? wrap_uint (length - offset) then Done (res, s)
                else if (width =? 0) || (height =? 0) then Done (res, s)
                else
                  let '(icon, s) :=
                    match res with
                    | None => CreateIcon s
                    | Some icon => (icon, s)
                    end in
                  let offset := wrap_uint (offset + 2) in
                  match copy_pixels (Z.to_nat (wrap_uint (width * height)))
                                    input offset [] with
                  | Done (data, offset) =>
                      let image :=
                        set_data (Some data) (CreateImage width height false) in
                      binary_loop fuel' input length offset (Some icon)
                                  (push_image icon image s)
                  | ReadOutside i => ReadOutside i
                  | Endless => Endless
                  end
            end
        end
    end
  else Done (res, s).

Definition CreateIconFromBinary (input : option (list Z)) (length : Z)
    (s : State) : result (option nat * State) :=
  match input with
  | None => Done (None, s)
  | Some words => binary_loop (S (List.length words)) words length 0 None s
  end.

(** ** The background manager (background.c) *)

Inductive BackgroundType :=
  | BACKGROUND_SOLID
  | BACKGROUND_GRADIENT
  | BACKGROUND_COMMAND
  | BACKGROUND_IMAGE.

Global Instance BackgroundType_eq_dec : EqDecision BackgroundType.
Proof. solve_decision. Defined.

(** [pixel] and [pixmap] are [None] until something is assigned to them. *)
Record BackgroundNode := mkBackground {
  desktop : Z;
  type : BackgroundType;
  value : string;
  pixel : option Z;
  pixmap : option Z
}.

Inductive AttrFlag := CWBackPixmap | CWBackPixel | CWBorderPixel.

(** The fields of [XSetWindowAttributes] that [LoadBackground] assigns. *)
Record XSetWindowAttributes := mkAttr {
  background_pixmap : option Z;
  background_pixel : option Z;
  border_pixmap : option Z
}.

(** Calls that leave the process: X requests, commands, warnings. *)
Inductive Call :=
  | JXChangeWindowAttributes (attrValues : list AttrFlag) (attr : XSetWindowAttributes)
  | JXClearWindow
  | RunCommand (command : string)
  | JXCreatePixmap (id : Z)
  | JXSetForeground (pixel : Z)
  | JXFillRectangle (drawable : Z)
  | DrawHorizontalGradient (drawable color1 color2 : Z)
  | PutIcon (icon : string) (drawable : Z)
  | DestroyIcon_call (icon : string)
  | Warning (message : string).

(** [backgrounds] is the list, newest first: [SetBackground] only pushes at
    its head, so a node keeps its position counted from the tail, and that
    position is what a [BackgroundNode*] is. *)
Record BgState := mkBg {
  backgrounds : list BackgroundNode;
  defaultBackground : option nat;
  lastBackground : option nat;
  next_pixmap : positive;
  calls : list Call
}.

Definition bg_deref (s : BgState) (bp : nat) : option BackgroundNode :=
  rev (backgrounds s) !! bp.

Definition InitializeBackgrounds (s : BgState) : BgState :=
  mkBg [] None None (next_pixmap s) (calls s).

Definition parse_type (type : option string) : option BackgroundType :=
  match type with
  | None => Some BACKGROUND_SOLID
  | Some t =>
      if decide (t = "solid"%string) then Some BACKGROUND_SOLID
      else if decide (t = "gradient"%string) then Some BACKGROUND_GRADIENT
      else if decide (t = "command"%string) then Some BACKGROUND_COMMAND
      else if decide (t = "image"%string) then Some BACKGROUND_IMAGE
      else None
  end.

Definition SetBackground (desktop : Z) (type value : option string)
    (s : BgState) : BgState :=
  match value with
  | None =>
      mkBg (backgrounds s) (defaultBackground s) (lastBackground s)
           (next_pixmap s)
           (calls s ++ [Warning "no value specified for background"])
  | Some v =>
      match parse_type type with
      | None =>
          mkBg (backgrounds s) (defaultBackground s) (lastBackground s)
               (next_pixmap s) (calls s ++ [Warning "invalid background type"])
      | Some bgType =>
          let bp := mkBackground desktop bgType v None None in
          mkBg (bp :: backgrounds s) (defaultBackground s) (lastBackground s)
               (next_pixmap s) (calls s)
      end
  end.

(** [strchr(value, ':')]: the text before and after the first colon. *)
Fixpoint split_colon (v : string) : option (string * string) :=
  match v with
  | EmptyString => None
  | String c rest =>
      if decide (c = ":"%char) then Some (EmptyString, rest)
      else '(a, b) ← split_colon rest; Some (String c a, b)
  end.

Section BackgroundModel.

(** [ParseColor] of color.c, as the pixel it leaves in the colour, and
    whether [LoadNamedIcon] finds an image of this name. *)
Variable ParseColor : string → Z.
Variable icon_found : string → bool.

Definition LoadSolidBackground (bp : BackgroundNode) : BackgroundNode :=
  mkBackground (desktop bp) (type bp) (value bp) (Some (ParseColor (value bp)))
               (pixmap bp).

Definition set_pixmap (p : Z) (bp : BackgroundNode) : BackgroundNode :=
  mkBackground (desktop bp) (type bp) (value bp) (pixel bp) (Some p).

Definition LoadGradientBackground (bp : BackgroundNode) (id : positive)
  : BackgroundNode * positive * list Call :=
  match split_colon (value bp) with
  | None => (set_pixmap XNone bp, id, [])
  | Some (first, second) =>
      let color1 := ParseColor first in
      let color2 := ParseColor second in
      let pm := Z.pos id in
      (set_pixmap pm bp, (id + 1)%positive,
       JXCreatePixmap pm ::
       (if color1 =? color2 then [JXSetForeground color1; JXFillRectangle pm]
        else [DrawHorizontalGradient pm color1 color2]))
  end.

(** background.c calls [LoadNamedIcon] with one argument, [PutIcon] with
    six and sets a field [useRender] of the icon: these are the functions
    of another version of the icon module than icon.c, whose
    [LoadNamedIcon] takes three arguments and whose [PutIcon] takes seven.
    They stay calls here: [icon_found] tells whether the load gives an
    icon, and what [PutIcon] and [DestroyIcon] do inside the icon module,
    the pixmaps of the renderings included, is no part of this state.
    [id] numbers the pixmaps that background.c itself creates. *)
Definition LoadImageBackground (bp : BackgroundNode) (id : positive)
  : BackgroundNode * positive * list Call :=
  if icon_found (value bp) then
    let pm := Z.pos id in
    (set_pixmap pm bp, (id + 1)%positive,
     [JXCreatePixmap pm; JXSetForeground 0; JXFillRectangle pm;
      PutIcon (value bp) pm; DestroyIcon_call (value bp)])
  else
    (set_pixmap XNone bp, id, [Warning "background image not found"]).

(** The [for] loop of [StartupBackgrounds] over the nodes left: the nodes
    as it leaves them, and the value of [defaultBackground]. *)
Fixpoint startup_loop (bps : list BackgroundNode) (dflt : option nat)
    (id : positive) (log : list Call)
  : list BackgroundNode * option nat * positive * list Call :=
  match bps with
  | [] => ([], dflt, id, log)
  | bp :: rest =>
      let '(bp, id, out) :=
        match type bp with
        | BACKGROUND_SOLID => (LoadSolidBackground bp, id, [])
        | BACKGROUND_GRADIENT => LoadGradientBackground bp id
        | BACKGROUND_COMMAND => (bp, id, [])
        | BACKGROUND_IMAGE => LoadImageBackground bp id
        end in
      let dflt := if desktop bp =? -1 then Some (length rest) else dflt in
      let '(rest, dflt, id, log) := startup_loop rest dflt id (log ++ out) in
      (bp :: rest, dflt, id, log)
  end.

Definition StartupBackgrounds (s : BgState) : BgState :=
  let '(bps, dflt, id, log) :=
    startup_loop (backgrounds s) (defaultBackground s) (next_pixmap s) (calls s) in
  mkBg bps dflt (lastBackground s) id log.

(** The first loop of [LoadBackground]: the first node of this desktop. *)
Fixpoint find_desktop (d : Z) (bps : list BackgroundNode) : option nat :=
  match bps with
  | [] => None
  | bp :: rest => if desktop bp =? d then Some (length rest) else find_desktop d rest
  end.

Definition add_calls (c : list Call) (s : BgState) : BgState :=
  mkBg (backgrounds s) (defaultBackground s) (lastBackground s)
       (next_pixmap s) (calls s ++ c).
Definition set_lastBackground (bp : option nat) (s : BgState) : BgState :=
  mkBg (backgrounds s) (defaultBackground s) bp (next_pixmap s) (calls s).

(** Lines 186-188: the background is not changing. *)
Definition unchanged (s : BgState) (bp : BackgroundNode) : option bool :=
  match lastBackground s with
  | None => Some false
  | Some l =>
      lastbp ← bg_deref s l;
      Some (bool_decide (type bp = type lastbp)
            && bool_decide (value bp = value lastbp))
  end.

Definition LoadBackground (d : Z) (s : BgState) : option BgState :=
  let bp := find_desktop d (backgrounds s) in
  let bp := match bp with None => defaultBackground s | Some _ => bp end in
  match bp with
  | None => Some s
  | Some p =>
      node ← bg_deref s p;
      same ← unchanged s node;
      if same : bool then Some s
      else
        let s := set_lastBackground (Some p) s in
        match type node with
        | BACKGROUND_SOLID =>
            let attr := mkAttr (Some XNone) (pixel node) (pixmap node) in
            Some (add_calls
                    [JXChangeWindowAttributes
                       [CWBackPixmap; CWBackPixel; CWBorderPixel] attr;
                     JXClearWindow] s)
        | BACKGROUND_COMMAND => Some (add_calls [RunCommand (value node)] s)
        | _ =>
            let attr := mkAttr (pixmap node) None None in
            Some (add_calls
                    [JXChangeWindowAttributes [CWBackPixmap] attr;
                     JXClearWindow] s)
        end
  end.

End BackgroundModel.

(** ** The background manager: shutdown and release (background.c) *)

(** [JXFreePixmap], with the pixmap field that it is given. *)
Inductive FreeCall :=
  | JXFreePixmap (pixmap : option Z).

(** The loop of [ShutdownBackgrounds]: the requests it sends. *)
Fixpoint ShutdownBackgrounds_loop (bps : list BackgroundNode) : list FreeCall :=
  match bps with
  | [] => []
  | bp :: rest =>
      match type bp with
      | BACKGROUND_SOLID | BACKGROUND_COMMAND => []
      | _ => [JXFreePixmap (pixmap bp)]
      end ++ ShutdownBackgrounds_loop rest
  end.

Definition ShutdownBackgrounds (s : BgState) : list FreeCall :=
  ShutdownBackgrounds_loop (backgrounds s).

(** [DestroyBackgrounds] releases every node; [defaultBackground] and
    [lastBackground] are not assigned. *)
Definition DestroyBackgrounds (s : BgState) : BgState :=
  mkBg [] (defaultBackground s) (lastBackground s) (next_pixmap s) (calls s).

(** ** The status window of a move or a resize (status.c) *)

Module Status.

Inductive StatusWindowType :=
  | SW_INVALID
  | SW_OFF
  | SW_SCREEN
  | SW_WINDOW
  | SW_CORNER.

Global Instance StatusWindowType_eq_dec : EqDecision StatusWindowType.
Proof. solve_decision. Defined.

(** The fields of a [ClientNode] (client.h) that status.c reads, all of
    them [int]. *)
Record ClientNode := mkClient {
  np_x : Z;
  np_y : Z;
  np_width : Z;
  np_height : Z
}.

Inductive ColorType :=
  | COLOR_MENU_BG
  | COLOR_MENU_FG
  | COLOR_MENU_UP
  | COLOR_MENU_DOWN.

(** What status.c takes from the other modules: the height of the menu
    font and the width of a string in it (font.c), the screen of a point
    and the origin and the size of a screen (screen.c), the pixels of the
    colours (color.c), the width of the root window (main.c), and the
    conversion [%d] of [snprintf]. *)
Record Env := mkEnv {
  GetStringHeight : Z;
  GetStringWidth : string → Z;
  GetCurrentScreen : Z → Z → Z;
  GetScreenX : Z → Z;
  GetScreenY : Z → Z;
  GetScreenWidth : Z → Z;
  GetScreenHeight : Z → Z;
  colors : ColorType → Z;
  rootWidth : Z;
  format_d : Z → string
}.

(** Calls that leave the module: X requests, strings drawn, warnings. *)
Inductive Call :=
  | JXCreateWindow (id x y width height : Z)
  | JXMapRaised (w : Z)
  | JXCreateGC (gc w : Z)
  | JXSetBackground (gc pixel : Z)
  | JXMoveResizeWindow (w x y width height : Z)
  | JXSetForeground (gc pixel : Z)
  | JXFillRectangle (w gc x y width height : Z)
  | JXDrawLine (w gc x1 y1 x2 y2 : Z)
  | RenderString (w gc : Z) (color : ColorType) (x y width : Z) (str : string)
  | JXFreeGC (gc : Z)
  | JXDestroyWindow (w : Z)
  | Warning (message str : string).

(** The static variables of status.c; [next_id] is the next free X
    identifier. *)
Record State := mkState {
  statusWindow : Z;
  statusGC : Z;
  statusWindowHeight : Z;
  statusWindowWidth : Z;
  statusWindowX : Z;
  statusWindowY : Z;
  moveStatusType : StatusWindowType;
  resizeStatusType : StatusWindowType;
  next_id : positive;
  calls : list Call
}.

Definition add_calls (c : list Call) (s : State) : State :=
  mkState (statusWindow s) (statusGC s) (statusWindowHeight s)
          (statusWindowWidth s) (statusWindowX s) (statusWindowY s)
          (moveStatusType s) (resizeStatusType s) (next_id s) (calls s ++ c).
Definition set_position (x y : Z) (s : State) : State :=
  mkState (statusWindow s) (statusGC s) (statusWindowHeight s)
          (statusWindowWidth s) x y
          (moveStatusType s) (resizeStatusType s) (next_id s) (calls s).
Definition set_size (height width : Z) (s : State) : State :=
  mkState (statusWindow s) (statusGC s) height width
          (statusWindowX s) (statusWindowY s)
          (moveStatusType s) (resizeStatusType s) (next_id s) (calls s).
Definition set_window (w gc : Z) (id : positive) (s : State) : State :=
  mkState w gc (statusWindowHeight s) (statusWindowWidth s)
          (statusWindowX s) (statusWindowY s)
          (moveStatusType s) (resizeStatusType s) id (calls s).
Definition set_moveStatusType (t : StatusWindowType) (s : State) : State :=
  mkState (statusWindow s) (statusGC s) (statusWindowHeight s)
          (statusWindowWidth s) (statusWindowX s) (statusWindowY s)
          t (resizeStatusType s) (next_id s) (calls s).
Definition set_resizeStatusType (t : StatusWindowType) (s : State) : State :=
  mkState (statusWindow s) (statusGC s) (statusWindowHeight s)
          (statusWindowWidth s) (statusWindowX s) (statusWindowY s)
          (moveStatusType s) t (next_id s) (calls s).

(** [a - b] for an [int] [a] and an [unsigned] [b], stored in an [int]:
    the difference is taken on [unsigned]. *)
Definition int_minus_uint (a b : Z) : Z :=
  wrap_int (wrap_uint (wrap_uint a - b)).

(** An [unsigned] passed for an [int]. *)
Definition int_of_uint (a : Z) : Z := wrap_int a.

Section StatusModel.

Variable env : Env.

Definition GetMoveResizeCoordinates (np : ClientNode) (type : StatusWindowType)
    (s : State) : Z * Z :=
  if decide (type = SW_WINDOW) then
    (int_minus_uint (wrap_int (np_x np + Z.quot (np_width np) 2))
                    (statusWindowWidth s / 2),
     int_minus_uint (wrap_int (np_y np + Z.quot (np_height np) 2))
                    (statusWindowHeight s / 2))
  else
    let screen := GetCurrentScreen env (np_x np) (np_y np) in
    let screenx := GetScreenX env screen in
    let screeny := GetScreenY env screen in
    if decide (type = SW_CORNER) then (screenx, screeny)
    else
      let screenWidth := GetScreenWidth env screen in
      let screenHeight := GetScreenHeight env screen in
      (int_minus_uint (wrap_int (screenx + Z.quot screenWidth 2))
                      (statusWindowWidth s / 2),
       int_minus_uint (wrap_int (screeny + Z.quot screenHeight 2))
                      (statusWindowHeight s / 2)).

Definition CreateMoveResizeWindow (np : ClientNode) (type : StatusWindowType)
    (s : State) : State :=
  if decide (type = SW_OFF) then s
  else
    let s := set_size (wrap_uint (wrap_int (GetStringHeight env + 8)))
                      (wrap_uint (GetStringWidth env " 00000 x 00000 ")) s in
    let '(x, y) := GetMoveResizeCoordinates np type s in
    let s := set_position x y s in
    let w := Z.pos (next_id s) in
    let gc := Z.pos (next_id s + 1) in
    add_calls [JXCreateWindow w (statusWindowX s) (statusWindowY s)
                 (statusWindowWidth s) (statusWindowHeight s);
               JXMapRaised w;
               JXCreateGC gc w;
               JXSetBackground gc (colors env COLOR_MENU_BG)]
              (set_window w gc (next_id s + 2)%positive s).

Definition DrawMoveResizeWindow (np : ClientNode) (type : StatusWindowType)
    (s : State) : State :=
  let '(x, y) := GetMoveResizeCoordinates np type s in
  let s :=
    if negb (x =? statusWindowX s) || negb (y =? statusWindowX s) then
      add_calls [JXMoveResizeWindow (statusWindow s) x y
                   (statusWindowWidth s) (statusWindowHeight s)]
                (set_position x y s)
    else s in
  let w := statusWindow s in
  let gc := statusGC s in
  let width n := wrap_uint (statusWindowWidth s - n) in
  let height n := wrap_uint (statusWindowHeight s - n) in
  add_calls
    [JXSetForeground gc (colors env COLOR_MENU_BG);
     JXFillRectangle w gc 2 2 (width 3) (height 3);
     JXSetForeground gc (colors env COLOR_MENU_UP);
     JXDrawLine w gc 0 0 (int_of_uint (width 1)) 0;
     JXDrawLine w gc 0 1 (int_of_uint (width 2)) 1;
     JXDrawLine w gc 0 2 0 (int_of_uint (height 1));
     JXDrawLine w gc 1 2 1 (int_of_uint (height 2));
     JXSetForeground gc (colors env COLOR_MENU_DOWN);
     JXDrawLine w gc 1 (int_of_uint (height 1))
                (int_of_uint (width 1)) (int_of_uint (height 1));
     JXDrawLine w gc 2 (int_of_uint (height 2))
                (int_of_uint (width 1)) (int_of_uint (height 2));
     JXDrawLine w gc (int_of_uint (width 1)) 1
                (int_of_uint (width 1)) (int_of_uint (height 3));
     JXDrawLine w gc (int_of_uint (width 2)) 2
                (int_of_uint (width 2)) (int_of_uint (height 3))] s.

Definition DestroyMoveResizeWindow (s : State) : State :=
  if negb (statusWindow s =? XNone) then
    add_calls [JXFreeGC (statusGC s); JXDestroyWindow (statusWindow s)]
              (set_window XNone (statusGC s) (next_id s) s)
  else s.

Definition CreateMoveWindow (np : ClientNode) (s : State) : State :=
  CreateMoveResizeWindow np (moveStatusType s) s.

(** The string is drawn in the middle of the window. *)
Definition render_centered (str : string) (s : State) : State :=
  let width := wrap_uint (GetStringWidth env str) in
  add_calls [RenderString (statusWindow s) (statusGC s) COLOR_MENU_FG
               (int_of_uint (wrap_uint (statusWindowWidth s / 2 - width / 2)))
               4 (rootWidth env) str] s.

Definition UpdateMoveWindow (np : ClientNode) (s : State) : State :=
  if decide (moveStatusType s = SW_OFF) then s
  else
    let s := DrawMoveResizeWindow np (moveStatusType s) s in
    let str := String.append "("
                 (String.append (format_d env (np_x np))
                    (String.append ", "
                       (String.append (format_d env (np_y np)) ")"))) in
    render_centered str s.

Definition DestroyMoveWindow (s : State) : State := DestroyMoveResizeWindow s.

Definition CreateResizeWindow (np : ClientNode) (s : State) : State :=
  CreateMoveResizeWindow np (resizeStatusType s) s.

Definition UpdateResizeWindow (np : ClientNode) (gwidth gheight : Z)
    (s : State) : State :=
  if decide (resizeStatusType s = SW_OFF) then s
  else
    let s := DrawMoveResizeWindow np (resizeStatusType s) s in
    let str := String.append (format_d env gwidth)
                 (String.append " x " (format_d env gheight)) in
    render_centered str s.

Definition DestroyResizeWindow (s : State) : State := DestroyMoveResizeWindow s.

End StatusModel.

Definition ParseType (str : option string) : StatusWindowType :=
  match str with
  | None => SW_SCREEN
  | Some st =>
      if decide (st = "off"%string) then SW_OFF
      else if decide (st = "screen"%string) then SW_SCREEN
      else if decide (st = "window"%string) then SW_WINDOW
      else if decide (st = "corner"%string) then SW_CORNER
      else SW_INVALID
  end.

Definition SetMoveStatusType (str : option string) (s : State) : State :=
  let type := ParseType str in
  if decide (type = SW_INVALID) then
    add_calls [Warning "invalid MoveMode coordinates" (default EmptyString str)]
              (set_moveStatusType SW_SCREEN s)
  else set_moveStatusType type s.

Definition SetResizeStatusType (str : option string) (s : State) : State :=
  let type := ParseType str in
  if decide (type = SW_INVALID) then
    add_calls [Warning "invalid ResizeMode coordinates" (default EmptyString str)]
              (set_resizeStatusType SW_SCREEN s)
  else set_resizeStatusType type s.

End Status.

(** ** The icon of a client (icon.c) *)

(** The fields of a [ClientNode] (client.h) that icon.c reads and writes. *)
Record ClientNode := mkClient {
  np_icon : option nat;
  np_window : Z;
  np_instanceName : option string
}.

Definition set_icon (icon : option nat) (np : ClientNode) : ClientNode :=
  mkClient icon (np_window np) (np_instanceName np).

(** What [JXGetWindowProperty] gives back for [_NET_WM_ICON]. *)
Record WindowProperty := mkProperty {
  prop_status : Z;
  prop_realFormat : Z;
  prop_count : Z;
  prop_data : option (list Z)
}.

(** [XWMHints] and the bits of its flags (Xutil.h). *)
Record XWMHints := mkHints {
  flags : Z;
  icon_pixmap : Z;
  icon_mask : Z
}.
Definition Success : Z := 0.
Definition IconPixmapHint : Z := 4.
Definition IconMaskHint : Z := 32.

Section IconClientModel.

(** The build and the image store, as for the cache; the decoders of an
    XPM in memory and of a drawable (image.c), the default image [x_xpm],
    and the two requests that read a property of a window. *)
Variable build : Build.
Variable LoadImage : string → list ImageNode.
Variable LoadImageFromData : list string → list ImageNode.
Variable LoadImageFromDrawable : Z → Z → list ImageNode.
Variable x_xpm : list string.
Variable JXGetWindowProperty : Z → WindowProperty.
Variable JXGetWMHints : Z → option XWMHints.

Definition CreateIconFromData (name : string) (data : list string) (s : State)
  : option (option nat * State) :=
  result ← FindIcon name s;
  match result with
  | Some icon => Some (Some icon, s)
  | None =>
      match LoadImageFromData data with
      | [] => Some (None, s)
      | image =>
          let '(result, s) := CreateIcon s in
          s ← store result (set_name (Some name)) s;
          s ← store result (set_images image) s;
          s ← InsertIcon result s;
          Some (Some result, s)
      end
  end.

Definition GetDefaultIcon (s : State) : option (option nat * State) :=
  CreateIconFromData "default" x_xpm s.

Definition CreateIconFromDrawable (d mask : Z) (s : State)
  : option (option nat * State) :=
  match LoadImageFromDrawable d mask with
  | [] => Some (None, s)
  | image =>
      let '(result, s) := CreateIcon s in
      s ← store result (set_images image) s;
      Some (Some result, s)
  end.

(** The length of the property is an [unsigned long] and the parameter of
    [CreateIconFromBinary] an [unsigned int].  A read outside the buffer
    and a loop without end leave no defined result. *)
Definition ReadNetWMIcon (np : ClientNode) (s : State)
  : option (ClientNode * State) :=
  let p := JXGetWindowProperty (np_window np) in
  if (prop_status p =? Success) && negb (prop_realFormat p =? 0)
     && bool_decide (is_Some (prop_data p)) then
    match CreateIconFromBinary (prop_data p) (wrap_uint (prop_count p)) s with
    | Done (icon, s) => Some (set_icon icon np, s)
    | _ => None
    end
  else Some (np, s).

Definition ReadWMHintIcon (np : ClientNode) (s : State)
  : option (ClientNode * State) :=
  match JXGetWMHints (np_window np) with
  | Some hints =>
      let mask :=
        if negb (Z.land (flags hints) IconMaskHint =? 0) then icon_mask hints
        else XNone in
      let d :=
        if negb (Z.land (flags hints) IconPixmapHint =? 0) then icon_pixmap hints
        else XNone in
      if negb (d =? XNone) then
        '(icon, s) ← CreateIconFromDrawable d mask s;
        Some (set_icon icon np, s)
      else Some (np, s)
  | None => Some (np, s)
  end.

Definition LoadIcon (np : ClientNode) (s : State) : option (ClientNode * State) :=
  s ← DestroyIcon build (np_icon np) s;
  let np := set_icon None np in
  '(np, s) ← ReadNetWMIcon np s;
  if bool_decide (is_Some (np_icon np)) then Some (np, s)
  else
    '(np, s) ← ReadWMHintIcon np s;
    if bool_decide (is_Some (np_icon np)) then Some (np, s)
    else
      '(np, s) ←
        match np_instanceName np with
        | Some instanceName =>
            '(icon, s) ← LoadNamedIcon build LoadImage instanceName true true s;
            Some (set_icon icon np, s)
        | None => Some (np, s)
        end;
      if bool_decide (is_Some (np_icon np)) then Some (np, s)
      else
        '(icon, s) ← GetDefaultIcon s;
        Some (set_icon icon np, s).

End IconClientModel.

(** ** Drawing an icon: [PutIcon] (icon.c) *)

Module IconDraw.

(** The requests that draw; [PutScaledRenderIcon] is of render.c. *)
Inductive DrawCall :=
  | JXSetClipOrigin (x y : Z)
  | JXSetClipMask (mask : Z)
  | JXCopyArea (src dest src_x src_y width height dest_x dest_y : Z)
  | PutScaledRenderIcon (image : ImageNode) (d x y : Z).

Global Instance ScaledIconNode_eq_dec : EqDecision ScaledIconNode.
Proof. solve_decision. Defined.
Global Instance ImageNode_eq_dec : EqDecision ImageNode.
Proof. solve_decision. Defined.

(** The place, in the list of the variants, of the variant that the loop
    of [GetBestImage] leaves in [best], which is what the [ImageNode*]
    that it returns is.  A round moves the pointer only to a variant of a
    larger overlap or of a smaller area, hence to another value: comparing
    the values tells whether the pointer moved. *)
Fixpoint best_position_loop (rwidth rheight : Z) (best : ImageNode) (pos : nat)
    (ip : list ImageNode) (n : nat) : nat :=
  match ip with
  | [] => pos
  | i :: rest =>
      let best' := best_step rwidth rheight best i in
      best_position_loop rwidth rheight best'
        (if bool_decide (best' = best) then pos else n) rest (S n)
  end.

Definition best_position (rwidth rheight : Z) (l : list ImageNode) : nat :=
  match l with
  | [] => 0%nat
  | first :: rest => best_position_loop rwidth rheight first 0 rest 1
  end.

Section PutIconModel.

Variable build : Build.
Variable haveRender : bool.
Variable rootDepth : Z.

(** The result is what is drawn.  [GetScaledIcon] changes the variant
    where it is, in the list of the icon: the variant as it leaves it is
    stored at its place in the record.  Nothing happens for the empty
    icon. *)
Definition PutIcon (icon : nat) (d fg x y width height : Z) (s : State)
  : option (list DrawCall * State) :=
  if decide (icon = emptyIcon) then Some ([], s)
  else
    i ← heap s !! icon;
    imageNode ← GetBestImage i width height;
    let pos := best_position width height (images i) in
    '(np, imageNode, s) ←
      GetScaledIcon build haveRender rootDepth i imageNode fg width height s;
    s ← store icon (λ i, set_images (<[pos := imageNode]> (images i)) i) s;
    node ← rev (img_nodes imageNode) !! np;
    let ix := wrap_int (x + Z.quot (wrap_int (width - sn_width node)) 2) in
    let iy := wrap_int (y + Z.quot (wrap_int (height - sn_height node)) 2) in
    if USE_XRENDER build && haveRender then
      Some ([PutScaledRenderIcon imageNode d ix iy], s)
    else if negb (sn_image node =? XNone) then
      let clip := negb (sn_mask node =? XNone) in
      Some ((if clip then [JXSetClipOrigin ix iy; JXSetClipMask (sn_mask node)]
             else [])
            ++ [JXCopyArea (sn_image node) d 0 0 (sn_width node) (sn_height node)
                           ix iy]
            ++ (if clip then [JXSetClipMask XNone; JXSetClipOrigin 0 0] else []),
            s)
    else Some ([], s).

End PutIconModel.

End IconDraw.

(** ** The search paths: [AddIconPath] (icon.c) *)

Section AddIconPathModel.

(** [Trim] and [ExpandPath] of misc.c. *)
Variable Trim : string → string.
Variable ExpandPath : string → string.

(** [path[length - 1]]: the last character; no character is there when
    the length is 0. *)
Fixpoint last_char (path : string) : option ascii :=
  match path with
  | EmptyString => None
  | String c EmptyString => Some c
  | String _ rest => last_char rest
  end.

Definition AddIconPath (path : option string) (s : State) : option State :=
  match path with
  | None => Some s
  | Some path =>
      let path := Trim path in
      c ← last_char path;
      let addSep := negb (bool_decide (c = "/"%char)) in
      let ip := if addSep then String.append path "/" else path in
      Some (set_iconPaths (iconPaths s ++ [ExpandPath ip]) s)
  end.

End AddIconPathModel.

(** * Notions and inputs of the statements *)

(** ** Notions *)

(** [chain h p pv l]: from the pointer [p] on, whose predecessor is [pv],
    the live records at the addresses [l] are linked in this order, back
    and forth, and the last one ends the chain. *)
Fixpoint chain (h : gmap nat IconNode) (p pv : option nat) (l : list nat) : Prop :=
  match l with
  | [] => p = None
  | a :: rest =>
      p = Some a ∧ a ≠ emptyIcon
      ∧ ∃ i, h !! a = Some i ∧ prev i = pv ∧ chain h (next i) (Some a) rest
  end.

(** The table is well linked: [L x] is the chain of bucket [x], and no
    record is in a chain twice or in two chains. *)
Definition table_ok (s : State) (L : Z → list nat) : Prop :=
  (∀ x, chain (heap s) (iconHash s !! x) None (L x))
  ∧ (∀ x, NoDup (L x))
  ∧ (∀ x y a, a ∈ L x → a ∈ L y → x = y).

(** The table is well linked and its records have names. *)
Definition cache_ok (s : State) (L : Z → list nat) : Prop :=
  table_ok s L
  ∧ (∀ x a i, a ∈ L x → heap s !! a = Some i → is_Some (name i)).

(** [new_cell s0 a s]: [s] is [s0] with one more record, at [a], and with
    the same names and [next] pointers in the records of [s0]; the table
    and the search paths are those of [s0]. *)
Definition new_cell (s0 : State) (a : nat) (s : State) : Prop :=
  heap s0 !! a = None
  ∧ is_Some (heap s !! a)
  ∧ size (heap s) = S (size (heap s0))
  ∧ (∀ b i, heap s0 !! b = Some i →
       ∃ i', heap s !! b = Some i' ∧ name i' = name i ∧ next i' = next i)
  ∧ iconHash s = iconHash s0
  ∧ iconPaths s = iconPaths s0.

(** The cache has no icon of this name and the store has no image for it:
    loading it fails and changes nothing. *)
Definition miss (LoadImage : string → list ImageNode) (c : string) (s : State)
  : Prop :=
  FindIcon c s = Some None ∧ LoadImage c = [].

(** [stable LoadImage s s']: what missed in [s] misses in [s'], and the
    search paths are the same. *)
Definition stable (LoadImage : string → list ImageNode) (s s' : State) : Prop :=
  (∀ c, miss LoadImage c s → miss LoadImage c s') ∧ iconPaths s' = iconPaths s.

(** What an activation that goes through sends out for a node. *)
Definition activation_calls (node : BackgroundNode) : list Call :=
  match type node with
  | BACKGROUND_SOLID =>
      [JXChangeWindowAttributes [CWBackPixmap; CWBackPixel; CWBorderPixel]
         (mkAttr (Some XNone) (pixel node) (pixmap node));
       JXClearWindow]
  | BACKGROUND_COMMAND => [RunCommand (value node)]
  | _ =>
      [JXChangeWindowAttributes [CWBackPixmap] (mkAttr (pixmap node) None None);
       JXClearWindow]
  end.

(** The pointers [defaultBackground] and [lastBackground] are NULL or point
    to a node of the list. *)
Definition bg_ok (s : BgState) : Prop :=
  (∀ p, defaultBackground s = Some p → is_Some (bg_deref s p))
  ∧ (∀ p, lastBackground s = Some p → is_Some (bg_deref s p)).

(** The node that [LoadBackground] settles on (lines 170-178). *)
Definition resolved (d : Z) (s : BgState) : option nat :=
  match find_desktop d (backgrounds s) with
  | None => defaultBackground s
  | Some p => Some p
  end.

(** ** Inputs of the examples *)

(** Two builds, without and with the compositing extension, and the
    state that [InitializeIcons] leaves. *)
Definition build_plain : Build := mkBuild true false true true false false.
Definition build_render : Build := mkBuild true false true true false true.
Definition state0 : State := InitializeIcons (mkState ∅ ∅ [] 1%positive []).

(** Variants and icons. *)
Definition img (width height : Z) : ImageNode :=
  mkImage width height false (Some []) [].
Definition icon_of (l : list ImageNode) : IconNode := mkIcon None l None None true.
Definition icon_32_16 : IconNode := icon_of [img 32 32; img 16 16].
Definition icon_32_16_16 : IconNode := icon_of [img 32 32; img 16 16; img 16 16].
Definition transient_icon : IconNode :=
  icon_of [mkImage 1 1 false (Some [255; 0; 0; 0]) []].

(** An image store with one file, whose name falls into bucket 0. *)
Definition xterm : string := "/usr/share/icons/xterm.png".
Definition xterm_store (file : string) : list ImageNode :=
  if decide (file = xterm) then [img 16 16; img 32 32] else [].

(** The cached icon of that file at address 1 and the transient icon of a
    client, made from its property, at address 2. *)
Definition cached_and_transient : State :=
  match CreateIconFromFile xterm_store (Some xterm) true true state0 with
  | Some (_, s1) =>
      match CreateIconFromBinary (Some [1; 1; 4278190080]) 3 s1 with
      | Done (_, s2) => s2
      | _ => s1
      end
  | None => state0
  end.

(** Two search paths, and the state after the load of "xterm". *)
Definition with_paths : State :=
  set_iconPaths ["/usr/share/pixmaps/"; "/usr/share/icons/"]%string state0.
Definition xterm_loaded : State :=
  match LoadNamedIcon build_plain xterm_store "xterm" true true with_paths with
  | Some (_, s) => s
  | None => with_paths
  end.

(** Backgrounds: a colour parser for the examples, and the registrations
    of the scenarios, before and after startup. *)
Definition bg0 : BgState := InitializeBackgrounds (mkBg [] None None 1%positive []).
Definition color_code (c : string) : Z := Z.of_nat (String.length c).

Definition red_blue_green : BgState :=
  SetBackground (-1) (Some "solid"%string) (Some "green"%string)
    (SetBackground 1 (Some "solid"%string) (Some "blue"%string)
       (SetBackground 0 (Some "solid"%string) (Some "red"%string) bg0)).

Definition three_desktops : BgState :=
  StartupBackgrounds color_code (λ _, false)
    (SetBackground (-1) (Some "solid"%string) (Some "green"%string)
       (SetBackground 1 (Some "solid"%string) (Some "blue"%string)
          (SetBackground 0 None (Some "red"%string) bg0))).

Definition command_desktop : BgState :=
  StartupBackgrounds color_code (λ _, false)
    (SetBackground 0 (Some "command"%string)
       (Some "xsetroot -solid black"%string) bg0).

Definition command_and_solid : BgState :=
  StartupBackgrounds color_code (λ _, false)
    (SetBackground 1 (Some "solid"%string) (Some "blue"%string)
       (SetBackground 0 (Some "command"%string)
          (Some "xsetroot -solid black"%string) bg0)).

(** ** Further notions *)

(** The overlap of a variant with the requested size, as each round of
    [GetBestImage] computes it (lines 474-488). *)
Definition image_overlap (rwidth rheight : Z) (i : ImageNode) : Z :=
  if (rwidth =? 0) && (rheight =? 0) then 0
  else if rwidth =? 0 then Min (img_height i) rheight
  else if rheight =? 0 then Min (img_width i) rwidth
  else int_mul (Min (img_width i) rwidth) (Min (img_height i) rheight).

(** [no_better rw rh best i]: the variant [i] does not take the place of
    [best]: it overlaps less, or as much with an area that is not smaller.
    [worse] is the strict form, for the variants met before [best]. *)
Definition no_better (rwidth rheight : Z) (best i : ImageNode) : Prop :=
  image_overlap rwidth rheight i < image_overlap rwidth rheight best
  ∨ (image_overlap rwidth rheight i = image_overlap rwidth rheight best
     ∧ image_area best ≤ image_area i).
Definition worse (rwidth rheight : Z) (best i : ImageNode) : Prop :=
  image_overlap rwidth rheight i < image_overlap rwidth rheight best
  ∨ (image_overlap rwidth rheight i = image_overlap rwidth rheight best
     ∧ image_area best < image_area i).

(** Two records of one rendering: everything but the size is the same. *)
Definition same_rendering (n n' : ScaledIconNode) : Prop :=
  sn_fg n' = sn_fg n ∧ sn_image n' = sn_image n ∧ sn_mask n' = sn_mask n
  ∧ sn_imagePicture n' = sn_imagePicture n
  ∧ sn_alphaPicture n' = sn_alphaPicture n.

(** The X resources that a list of requests creates, and those it frees. *)
Definition created_id (r : XRequest) : option Z :=
  match r with
  | XCreatePixmap id _ _ _ => Some id
  | XRenderCreatePicture id => Some id
  | _ => None
  end.
Definition freed_id (r : XRequest) : option Z :=
  match r with
  | XFreePixmap id => Some id
  | XRenderFreePicture id => Some id
  | _ => None
  end.

(** The table holds one record for a name, in the bucket of the name. *)
Definition cache_unique (s : State) (L : Z → list nat) : Prop :=
  cache_ok s L
  ∧ (∀ x a i, a ∈ L x → heap s !! a = Some i → GetHash (name i) = x)
  ∧ (∀ x a b i j, a ∈ L x → b ∈ L x →
       heap s !! a = Some i → heap s !! b = Some j → name i = name j → a = b).

(** The file names that [LoadNamedIcon] tries for a bare name, in the
    order in which it tries them: path by path, and for a path extension
    by extension. *)
Definition candidates (build : Build) (paths : list string) (name : string)
  : list string :=
  flat_map (λ path,
              map (λ ext, String.append path (String.append name ext))
                  (ICON_EXTENSIONS build)) paths.

(** The file names under which [LoadNamedIcon] looks for a name: the
    name itself when it is absolute, the candidates of the search paths
    otherwise, and none for the empty name. *)
Definition tried_files (build : Build) (paths : list string) (name : string)
  : list string :=
  match name with
  | EmptyString => []
  | String c _ =>
      if decide (c = "/"%char) then [name] else candidates build paths name
  end.

(** An entry of the icon property: width, height and the pixels, one word
    each; the words it takes, the four bytes of a pixel, and the variant
    that [CreateIconFromBinary] makes of it. *)
Definition entry_words (e : Z * Z * list Z) : list Z :=
  let '(w, h, pixels) := e in w :: h :: pixels.
Definition pixel_bytes (w : Z) : list Z :=
  [Z.land (Z.shiftr w 24) 255; Z.land (Z.shiftr w 16) 255;
   Z.land (Z.shiftr w 8) 255; Z.land (Z.shiftr w 0) 255].
Definition entry_image (e : Z * Z * list Z) : ImageNode :=
  let '(w, h, pixels) := e in
  mkImage (wrap_int w) (wrap_int h) false
          (Some (concat (map pixel_bytes pixels))) [].

(** The entry holds as many pixels as it declares, and no side is 0. *)
Definition well_formed (e : Z * Z * list Z) : Prop :=
  let '(w, h, pixels) := e in
  0 < w < 2 ^ 32 ∧ 0 < h < 2 ^ 32 ∧ Z.of_nat (length pixels) = w * h.

(** What is left of the buffer begins with a complete header that declares
    more words than are left, without exceeding 2^32, or a side of 0. *)
Definition malformed (tail : list Z) : Prop :=
  ∃ w0 w1 rest, tail = w0 :: w1 :: rest
    ∧ wrap_uint w0 * wrap_uint w1 + 2 < 2 ^ 32
    ∧ (wrap_uint w0 * wrap_uint w1 + 2 > Z.of_nat (length tail)
       ∨ wrap_uint w0 = 0 ∨ wrap_uint w1 = 0).

(** The pixmap that a call creates, and the pixmap that a call frees when
    it is given one. *)
Definition created_pixmap (c : Call) : option Z :=
  match c with
  | JXCreatePixmap id => Some id
  | _ => None
  end.
Definition freed_pixmap (c : FreeCall) : option Z :=
  match c with
  | JXFreePixmap (Some p) => if p =? XNone then None else Some p
  | JXFreePixmap None => None
  end.

(** What startup leaves of a node: the descriptor is kept; a solid node
    gets the pixel of its colour, a gradient or an image node a pixmap
    field, and a command node nothing. *)
Definition started (ParseColor : string → Z) (bp bp' : BackgroundNode) : Prop :=
  desktop bp' = desktop bp ∧ type bp' = type bp ∧ value bp' = value bp
  ∧ match type bp with
    | BACKGROUND_SOLID =>
        pixel bp' = Some (ParseColor (value bp)) ∧ pixmap bp' = pixmap bp
    | BACKGROUND_COMMAND => bp' = bp
    | _ => is_Some (pixmap bp') ∧ pixel bp' = pixel bp
    end.

(** The calls of the configuration and of the desktop switches, and a
    run of them. *)
Inductive BgOp :=
  | OpSetBackground (desktop : Z) (type value : option string)
  | OpStartupBackgrounds
  | OpLoadBackground (desktop : Z).

Fixpoint run_ops (ParseColor : string → Z) (icon_found : string → bool)
    (ops : list BgOp) (s : BgState) : option BgState :=
  match ops with
  | [] => Some s
  | op :: rest =>
      s ← match op with
          | OpSetBackground d t v => Some (SetBackground d t v s)
          | OpStartupBackgrounds => Some (StartupBackgrounds ParseColor icon_found s)
          | OpLoadBackground d => LoadBackground d s
          end;
      run_ops ParseColor icon_found rest s
  end.

(** What [StartupBackgrounds] does with one node (lines 66-82): the node
    after it, the next free pixmap and the calls. *)
Definition materialize (ParseColor : string → Z) (icon_found : string → bool)
    (bp : BackgroundNode) (id : positive)
  : BackgroundNode * positive * list Call :=
  match type bp with
  | BACKGROUND_SOLID => (LoadSolidBackground ParseColor bp, id, [])
  | BACKGROUND_GRADIENT => LoadGradientBackground ParseColor bp id
  | BACKGROUND_COMMAND => (bp, id, [])
  | BACKGROUND_IMAGE => LoadImageBackground icon_found bp id
  end.

(** A gradient without a colon, or an image that is not found. *)
Definition fails (icon_found : string → bool) (bp : BackgroundNode) : Prop :=
  (type bp = BACKGROUND_GRADIENT ∧ split_colon (value bp) = None)
  ∨ (type bp = BACKGROUND_IMAGE ∧ icon_found (value bp) = false).

(** Registrations for the examples: two defaults; a second node for
    desktop 0; a gradient without a colon. *)
Definition two_defaults : BgState :=
  SetBackground (-1) (Some "solid"%string) (Some "black"%string)
    (SetBackground (-1) (Some "solid"%string) (Some "green"%string) bg0).
Definition two_for_desktop_0 : BgState :=
  SetBackground 0 (Some "solid"%string) (Some "white"%string) red_blue_green.
Definition gradient_no_colon : BgState :=
  SetBackground 0 (Some "gradient"%string) (Some "red"%string) bg0.

(** A request that draws into the window [w] with the context [gc], or
    moves that window. *)
Definition on_window (w gc : Z) (c : Status.Call) : Prop :=
  match c with
  | Status.JXMoveResizeWindow w' _ _ _ _ => w' = w
  | Status.JXSetForeground gc' _ => gc' = gc
  | Status.JXFillRectangle w' gc' _ _ _ _ => w' = w ∧ gc' = gc
  | Status.JXDrawLine w' gc' _ _ _ _ => w' = w ∧ gc' = gc
  | Status.RenderString w' gc' _ _ _ _ _ => w' = w ∧ gc' = gc
  | _ => False
  end.

Definition is_move (c : Status.Call) : Prop :=
  match c with
  | Status.JXMoveResizeWindow _ _ _ _ _ => True
  | _ => False
  end.

(** An environment for the examples: a font of height 12 in which a
    character is 6 wide, two screens of 800x600 one above the other, and
    the colours numbered. *)
Definition env0 : Status.Env :=
  Status.mkEnv 12 (λ str, 6 * Z.of_nat (String.length str))
    (λ x y, if y <? 600 then 0 else 1)
    (λ _, 0) (λ screen, 600 * screen) (λ _, 800) (λ _, 600)
    (λ c, match c with
          | Status.COLOR_MENU_BG => 1 | Status.COLOR_MENU_FG => 2
          | Status.COLOR_MENU_UP => 3 | Status.COLOR_MENU_DOWN => 4
          end)
    800 (λ _, "0"%string).

(** The static variables when the program starts. *)
Definition status0 : Status.State :=
  Status.mkState 0 0 0 0 0 0 Status.SW_INVALID Status.SW_INVALID 1%positive [].

(** Every record but the static one is in a chain of the table. *)
Definition linked (s : State) (L : Z → list nat) : Prop :=
  ∀ a, a ≠ emptyIcon → is_Some (heap s !! a) → ∃ x, a ∈ L x.

(** Loads that save, one after the other. *)
Fixpoint load_all (build : Build) (LoadImage : string → list ImageNode)
    (names : list (string * bool)) (s : State) : option State :=
  match names with
  | [] => Some s
  | (name, aspect) :: rest =>
      '(_, s) ← LoadNamedIcon build LoadImage name true aspect s;
      load_all build LoadImage rest s
  end.

(** Clients and their windows for the examples: no window has a property
    or hints; the default image decodes to one variant. *)
Definition no_property (w : Z) : WindowProperty := mkProperty 1 0 0 None.
Definition no_hints (w : Z) : option XWMHints := None.
Definition default_image (data : list string) : list ImageNode := [img 16 16].
Definition no_drawable (d mask : Z) : list ImageNode := [].

(** Two desktops with the same colour. *)
Definition blue_blue : BgState :=
  StartupBackgrounds color_code (λ _, false)
    (SetBackground 1 (Some "solid"%string) (Some "blue"%string)
       (SetBackground 0 (Some "solid"%string) (Some "blue"%string) bg0)).


(** The pixel buffer of the variant is there and holds what the sides of
    the variant announce (one bit a pixel for a bitmap, four bytes a pixel
    otherwise), and the sides are small enough for the 16.16 fixed point
    positions and the byte index to stay in the range of [int]. *)
Definition readable (image : ImageNode) : Prop :=
  0 < img_width image < 2 ^ 15
  ∧ 0 < img_height image < 2 ^ 15
  ∧ let size := Z.of_nat (length (default [] (img_data image))) in
    if img_bitmap image then img_width image * img_height image ≤ 8 * size
    else 4 * (img_width image * img_height image) ≤ size
         ∧ img_width image * img_height image < 2 ^ 29.

(** Variants with their pixels: a bitmap of 16x16 with every bit set, and
    opaque white variants of any size. *)
Definition bitmap_16_set : ImageNode :=
  mkImage 16 16 true (Some (repeat 255 32)) [].
Definition white (width height : Z) : ImageNode :=
  mkImage width height false
          (Some (repeat 255 (Z.to_nat (4 * (width * height))))) [].

(** An icon of two white variants, in a record at address 1 that is in
    no bucket, for [PutIcon]. *)
Definition icon_white : IconNode := icon_of [white 32 32; white 16 16].
Definition icon_at_1 : State :=
  set_heap (<[1%nat := icon_white]> (heap state0)) state0.

(** * Properties *)

(** ** C integers *)

Lemma wrap_int_small z : - 2 ^ 31 ≤ z < 2 ^ 31 → wrap_int z = z.
Proof.
  intros H. unfold wrap_int.
  rewrite Z.mod_small by lia. lia.
Qed.

Lemma int_shl_16 z : 0 ≤ z < 2 ^ 15 → int_shl z 16 = z * 65536.
Proof.
  intros H. unfold int_shl. rewrite Z.shiftl_mul_pow2 by lia.
  change (2 ^ 16) with 65536. apply wrap_int_small. lia.
Qed.

Lemma int_shr_16 z : int_shr z 16 = z / 65536.
Proof. unfold int_shr. rewrite Z.shiftr_div_pow2 by lia. reflexivity. Qed.

Lemma int_div_pos a b :
  0 ≤ a → 0 < b → int_div a b = Some (a / b).
Proof.
  intros Ha Hb. unfold int_div.
  destruct (Z.eqb_spec b 0); [lia|].
  destruct (Z.eqb_spec a (- 2 ^ 31)); [lia|]. simpl.
  rewrite Z.quot_div_nonneg by lia. reflexivity.
Qed.

Lemma int_div_zero a : int_div a 0 = None.
Proof. reflexivity. Qed.

Lemma Min_spec a b : Min a b = Z.min a b.
Proof. unfold Min. destruct (Z.ltb_spec a b); lia. Qed.

Lemma Max_spec a b : Max a b = Z.max a b.
Proof. unfold Max. destruct (Z.gtb_spec a b); lia. Qed.

(** ** Positions counted from the tail of a list *)

Lemma lookup_rev_head {A} (x : A) (l : list A) :
  rev (x :: l) !! length l = Some x.
Proof.
  simpl. rewrite lookup_app_r by (rewrite length_rev; lia).
  rewrite length_rev, Nat.sub_diag. reflexivity.
Qed.

Lemma lookup_rev_tail {A} (x : A) (l : list A) p y :
  rev l !! p = Some y → rev (x :: l) !! p = Some y.
Proof. intros H. simpl. apply lookup_app_l_Some. assumption. Qed.

(** ** The effective size of a rendering *)

Section NativeSize.

Variables w h : Z.
Hypothesis Hw : 0 < w < 2 ^ 15.
Hypothesis Hh : 0 < h < 2 ^ 31.

Let ratio := (w * 65536) / h.

Lemma ratio_bounds : 0 ≤ ratio ∧ h * ratio ≤ w * 65536.
Proof.
  unfold ratio. split.
  - apply Z.div_pos; lia.
  - apply Z.mul_div_le. lia.
Qed.

Lemma scaled_size_native_eq :
  scaled_size true w h w h =
    if ratio =? 0 then None
    else
      let n1 := Z.min w (h * ratio / 65536) in
      let nh := Z.min h (n1 * 65536 / ratio) in
      Some (Z.max 1 (nh * ratio / 65536), Z.max 1 nh).
Proof.
  destruct ratio_bounds as [Hr0 Hr1].
  unfold scaled_size.
  destruct (Z.eqb_spec w 0); [lia|]. destruct (Z.eqb_spec h 0); [lia|].
  rewrite int_shl_16 by lia.
  rewrite int_div_pos by lia. fold ratio. simpl.
  assert (Hm : int_mul h ratio = h * ratio).
  { unfold int_mul. apply wrap_int_small. lia. }
  rewrite Hm, int_shr_16, Min_spec.
  assert (Hn1 : 0 ≤ Z.min w (h * ratio / 65536) ≤ w).
  { split; [|lia]. apply Z.min_glb; [lia|]. apply Z.div_pos; lia. }
  rewrite int_shl_16 by lia.
  destruct (Z.eqb_spec ratio 0) as [E|E].
  - rewrite E. reflexivity.
  - rewrite int_div_pos by lia. simpl. rewrite Min_spec.
    set (n1 := Z.min w (h * ratio / 65536)) in *.
    assert (Hq : 0 ≤ n1 * 65536 / ratio) by (apply Z.div_pos; lia).
    assert (Hm2 : int_mul (Z.min h (n1 * 65536 / ratio)) ratio
                  = Z.min h (n1 * 65536 / ratio) * ratio).
    { unfold int_mul. apply wrap_int_small. nia. }
    rewrite Hm2, int_shr_16, !Max_spec. reflexivity.
Qed.

Lemma scaled_size_native_exact :
  (h | w * 65536) → scaled_size true w h w h = Some (w, h).
Proof.
  intros [k Hk]. rewrite scaled_size_native_eq.
  assert (Hr : ratio = k).
  { unfold ratio. rewrite Hk. apply Z.div_mul. lia. }
  assert (Hk0 : 0 < k) by nia.
  rewrite Hr. destruct (Z.eqb_spec k 0); [lia|]. cbv zeta.
  replace (h * k) with (w * 65536) by lia.
  rewrite Z.div_mul by lia. rewrite Z.min_id.
  replace (w * 65536) with (h * k) by lia.
  rewrite Z.div_mul by lia. rewrite Z.min_id.
  replace (h * k) with (w * 65536) by lia.
  rewrite Z.div_mul by lia. f_equal. f_equal; lia.
Qed.

Lemma scaled_size_native_inexact :
  ¬ (h | w * 65536) → scaled_size true w h w h ≠ Some (w, h).
Proof.
  intros Hnd. rewrite scaled_size_native_eq.
  destruct ratio_bounds as [Hr0 Hr1].
  destruct (Z.eqb_spec ratio 0) as [E|E]; [discriminate|]. cbv zeta.
  assert (Hlt : h * ratio < w * 65536).
  { destruct (Z.eq_dec (h * ratio) (w * 65536)) as [Heq|]; [|lia].
    exfalso. apply Hnd. exists ratio. lia. }
  assert (H1 : h * ratio / 65536 < w).
  { apply Z.div_lt_upper_bound; lia. }
  set (n1 := Z.min w (h * ratio / 65536)).
  assert (Hn1 : 0 ≤ n1 < w).
  { unfold n1. split; [|lia]. apply Z.min_glb; [lia|]. apply Z.div_pos; lia. }
  set (nh := Z.min h (n1 * 65536 / ratio)).
  assert (Hq : 0 ≤ n1 * 65536 / ratio) by (apply Z.div_pos; lia).
  assert (Hnh : 0 ≤ nh ≤ h) by (unfold nh; lia).
  assert (Hnw : nh * ratio / 65536 < w).
  { apply Z.div_lt_upper_bound; [lia|]. nia. }
  intros Heq. injection Heq as Ew Eh.
  assert (Hw1 : w = 1) by lia.
  assert (Hn0 : n1 * 65536 / ratio = 0).
  { replace n1 with 0 by lia. reflexivity. }
  assert (Hh1 : h = 1) by lia.
  apply Hnd. exists 65536. lia.
Qed.

End NativeSize.

(** With aspect preservation on, the effective size of a request at the
    native size of a variant whose sides are below 2^15 is defined and
    never exceeds the native size, and it is the native size exactly when
    the native height divides 65536 times the native width. *)
Lemma scaled_size_native_round_trip w h :
  0 < w < 2 ^ 15 → 0 < h < 2 ^ 15 →
  ∃ nw nh, scaled_size true w h w h = Some (nw, nh)
    ∧ 1 ≤ nw ≤ w ∧ 1 ≤ nh ≤ h
    ∧ ((nw, nh) = (w, h) ↔ (h | w * 65536)).
Proof.
  intros Hw Hh.
  assert (Hh' : 0 < h < 2 ^ 31) by lia.
  pose proof (scaled_size_native_eq w h Hw Hh') as E.
  pose proof (ratio_bounds w h Hw Hh') as [_ Hr1].
  assert (Hr : 1 ≤ w * 65536 / h) by (apply Z.div_le_lower_bound; lia).
  destruct (Z.eqb_spec (w * 65536 / h) 0) as [E0|_]; [lia|]. cbv zeta in E.
  set (ratio := w * 65536 / h) in *.
  set (n1 := Z.min w (h * ratio / 65536)) in *.
  set (nh := Z.min h (n1 * 65536 / ratio)) in *.
  assert (Hn1 : 0 ≤ n1 ≤ w).
  { unfold n1. split; [|lia]. apply Z.min_glb; [lia|]. apply Z.div_pos; lia. }
  assert (Hnh : 0 ≤ nh ≤ h).
  { unfold nh. split; [|lia]. apply Z.min_glb; [lia|]. apply Z.div_pos; lia. }
  assert (Hnw : 0 ≤ nh * ratio / 65536 ≤ w).
  { split; [apply Z.div_pos; nia|].
    apply Z.div_le_upper_bound; [lia|]. nia. }
  exists (Z.max 1 (nh * ratio / 65536)), (Z.max 1 nh).
  split; [exact E|]. split; [lia|]. split; [lia|]. split.
  - intros Heq. rewrite Heq in E.
    destruct (Z.BoolSpec_divide h (w * 65536)) as [Hd|Hd]; [exact Hd|].
    exfalso. exact (scaled_size_native_inexact w h Hw Hh' Hd E).
  - intros Hd. rewrite (scaled_size_native_exact w h Hw Hh' Hd) in E.
    congruence.
Qed.

(** ** The icon resolver *)

(** Without a requested size a round of the loop compares the areas only. *)
Lemma best_step_unsized best ip :
  best_step 0 0 best ip =
    if image_area ip <? image_area best then ip else best.
Proof. reflexivity. Qed.

Lemma best_loop_unsized l : ∀ best r,
  best_loop 0 0 best l = r →
  (r = best ∧ Forall (λ i, image_area best ≤ image_area i) l)
  ∨ (∃ l1 l2, l = l1 ++ r :: l2
       ∧ image_area r < image_area best
       ∧ Forall (λ i, image_area r < image_area i) l1
       ∧ Forall (λ i, image_area r ≤ image_area i) l2).
Proof.
  induction l as [|i l IH]; intros best r Hr; simpl in Hr.
  - left. split; [congruence | constructor].
  - rewrite best_step_unsized in Hr.
    destruct (Z.ltb_spec (image_area i) (image_area best)) as [Hlt|Hge].
    + right. destruct (IH _ _ Hr) as [[-> Hall] | (l1 & l2 & -> & Hlt' & H1 & H2)].
      * exists [], l. repeat split; [assumption | constructor | assumption].
      * exists (i :: l1), l2. repeat split; [lia | | assumption].
        constructor; assumption.
    + destruct (IH _ _ Hr) as [[-> Hall] | (l1 & l2 & -> & Hlt' & H1 & H2)].
      * left. split; [reflexivity|]. constructor; assumption.
      * right. exists (i :: l1), l2. repeat split; [assumption | | assumption].
        constructor; [lia | assumption].
Qed.

(** What the code does at an unsized request: it returns the variant of
    the smallest area, the earliest one of that area in the list; every
    variant before it is strictly larger, none after it is smaller. *)
Lemma GetBestImage_unsized_smallest icon :
  images icon ≠ [] →
  ∃ best l1 l2, GetBestImage icon 0 0 = Some best
    ∧ images icon = l1 ++ best :: l2
    ∧ Forall (λ i, image_area best < image_area i) l1
    ∧ Forall (λ i, image_area best ≤ image_area i) l2.
Proof.
  unfold GetBestImage. destruct (images icon) as [|first rest]; [congruence|].
  intros _. exists (best_loop 0 0 first rest).
  destruct (best_loop_unsized rest first _ eq_refl)
    as [[-> Hall] | (l1 & l2 & Hl & Hlt & H1 & H2)].
  - exists [], rest. repeat split; [constructor | assumption].
  - exists (first :: l1), l2. split; [reflexivity|].
    split; [simpl; rewrite <- Hl; reflexivity|].
    split; [constructor; assumption | assumption].
Qed.

(** C3: the code does not do what the claim states, nor what its own
    comment announces (icon.c, lines 462-466: "If no size is specified, use
    the largest").  With the variants 32x32 and 16x16, in that order, the
    unsized request returns the 16x16 variant: not the first variant of the
    list, which the claim states, and not the largest, which the comment
    announces, the 32x32 variant of the list having the larger area. *)
Theorem GetBestImage_unsized_not_largest :
  images icon_32_16 = [img 32 32; img 16 16]
  ∧ GetBestImage icon_32_16 0 0 = Some (img 16 16)
  ∧ GetBestImage icon_32_16 0 0 ≠ head (images icon_32_16)
  ∧ image_area (img 16 16) = 256
  ∧ image_area (img 32 32) = 1024.
Proof.
  split; [reflexivity|]. split; [reflexivity|]. split; [discriminate|].
  split; reflexivity.
Qed.

(** With 16x16 first the smallest variant is the first one, and with the
    smallest variant twice the earlier one is returned. *)
Example GetBestImage_unsized_16_32 :
  GetBestImage (mkIcon None [img 16 16; img 32 32] None None true) 0 0
  = Some (img 16 16)
  ∧ GetBestImage icon_32_16_16 0 0 = Some (img 16 16).
Proof. split; reflexivity. Qed.

(** The effective size is at least 1x1. *)
Lemma scaled_size_positive aspect iw ih rw rh nw nh :
  scaled_size aspect iw ih rw rh = Some (nw, nh) → 1 ≤ nw ∧ 1 ≤ nh.
Proof.
  unfold scaled_size. intros H.
  apply bind_Some in H as ([a b] & _ & H). injection H as <- <-.
  rewrite !Max_spec. lia.
Qed.

(** ** The icon scaler *)

(** *** The loop that fills a rendering reads inside the pixel buffer *)

Lemma byte_at_Some data i :
  0 ≤ i < Z.of_nat (length data) → is_Some (byte_at data i).
Proof.
  intros H. unfold byte_at. destruct (Z.ltb_spec i 0); [lia|].
  apply lookup_lt_is_Some. lia.
Qed.

Section ScaleLoop.

Variable image : ImageNode.
Variable data : list Z.

Let w := img_width image.
Let h := img_height image.

Hypothesis Hw : 0 < w < 2 ^ 15.
Hypothesis Hh : 0 < h < 2 ^ 15.
Hypothesis Hdata :
  if img_bitmap image then w * h ≤ 8 * Z.of_nat (length data)
  else 4 * (w * h) ≤ Z.of_nat (length data) ∧ w * h < 2 ^ 29.

(** A position inside the source reads inside the buffer. *)
Lemma scale_pixel_defined srcx srcy :
  0 ≤ srcx < w * 65536 → 0 ≤ srcy < h * 65536 →
  is_Some (scale_pixel image data srcx srcy).
Proof.
  intros Hx Hy. unfold scale_pixel. cbv zeta. rewrite !int_shr_16. fold w.
  assert (Hsx : 0 ≤ srcx / 65536 < w).
  { split; [apply Z.div_pos; lia | apply Z.div_lt_upper_bound; lia]. }
  assert (Hsy : 0 ≤ srcy / 65536 < h).
  { split; [apply Z.div_pos; lia | apply Z.div_lt_upper_bound; lia]. }
  set (sx := srcx / 65536) in *. set (sy := srcy / 65536) in *.
  assert (Hi : 0 ≤ sy * w + sx < w * h) by nia.
  assert (Hwh : w * h < 2 ^ 30) by nia.
  assert (Hm : int_mul sy w = sy * w).
  { unfold int_mul. apply wrap_int_small. nia. }
  rewrite !Hm, !(wrap_int_small (sy * w + sx)) by lia.
  set (index := sy * w + sx) in *.
  destruct (img_bitmap image).
  - unfold int_shr. rewrite Z.shiftr_div_pow2 by lia. change (2 ^ 3) with 8.
    destruct (byte_at_Some data (index / 8)) as [d ->]; [|simpl; eauto].
    split; [apply Z.div_pos; lia | apply Z.div_lt_upper_bound; lia].
  - destruct Hdata as [Hlen Hsmall].
    unfold int_mul. rewrite (wrap_int_small (4 * index)) by lia.
    rewrite !wrap_int_small by lia.
    destruct (byte_at_Some data (4 * index + 1)) as [r ->]; [lia|].
    destruct (byte_at_Some data (4 * index + 2)) as [g ->]; [lia|].
    destruct (byte_at_Some data (4 * index + 3)) as [b ->]; [lia|].
    destruct (byte_at_Some data (4 * index)) as [a ->]; [lia|].
    simpl. eauto.
Qed.

Lemma scale_row_defined nwidth scalex srcy n : ∀ x,
  0 ≤ scalex → nwidth * scalex ≤ w * 65536 →
  0 ≤ srcy < h * 65536 →
  0 ≤ x → x + Z.of_nat n ≤ nwidth →
  is_Some (scale_row n image data (x * scalex) srcy scalex).
Proof.
  induction n as [|n IH]; intros x Hs Hn Hy Hx Hxn; simpl; [eauto|].
  assert (Hlt : 0 ≤ x * scalex < w * 65536) by nia.
  destruct (scale_pixel_defined (x * scalex) srcy Hlt Hy) as [px ->]. simpl.
  rewrite (wrap_int_small (x * scalex + scalex)) by nia.
  replace (x * scalex + scalex) with ((x + 1) * scalex) by lia.
  destruct (IH (x + 1) Hs Hn Hy) as [rest ->]; [lia | lia|]. simpl. eauto.
Qed.

Lemma scale_rows_defined nwidth nheight scalex scaley n : ∀ y,
  0 ≤ nwidth →
  0 ≤ scalex → nwidth * scalex ≤ w * 65536 →
  0 ≤ scaley → nheight * scaley ≤ h * 65536 →
  0 ≤ y → y + Z.of_nat n ≤ nheight →
  is_Some (scale_rows n (Z.to_nat nwidth) image data (y * scaley) scalex scaley).
Proof.
  induction n as [|n IH]; intros y Hnw Hsx Hnx Hsy Hny Hy Hyn; simpl; [eauto|].
  assert (Hlt : 0 ≤ y * scaley < h * 65536) by nia.
  destruct (scale_row_defined nwidth scalex (y * scaley) (Z.to_nat nwidth) 0)
    as [row Hrow]; try lia.
  change (0 * scalex) with 0 in Hrow. rewrite Hrow. simpl.
  rewrite (wrap_int_small (y * scaley + scaley)) by nia.
  replace (y * scaley + scaley) with ((y + 1) * scaley) by lia.
  destruct (IH (y + 1)) as [rest ->]; try lia. simpl. eauto.
Qed.

End ScaleLoop.

(** The loop is defined for a variant that is readable, whatever the size
    of the rendering. *)
Lemma scale_image_defined image nwidth nheight :
  readable image → 1 ≤ nwidth → 1 ≤ nheight →
  is_Some (scale_image image nwidth nheight).
Proof.
  intros (Hw & Hh & Hdata) Hnw Hnh. unfold scale_image.
  rewrite !int_shl_16 by lia. rewrite !int_div_pos by lia. simpl.
  apply (scale_rows_defined image (default [] (img_data image)) Hw Hh Hdata
           nwidth nheight _ _ (Z.to_nat nheight) 0); try lia.
  - apply Z.div_pos; lia.
  - apply Z.mul_div_le. lia.
  - apply Z.div_pos; lia.
  - apply Z.mul_div_le. lia.
Qed.

(** The loop on a bitmap of 4x2 whose byte is 10100101 in binary, and on
    a variant of 2x2 stretched to 4x2: the points of the mask, and the
    colours. *)
Example scale_image_bitmap :
  scale_image (mkImage 4 2 true (Some [165]) []) 4 2
  = Some [[(None, true); (None, false); (None, true); (None, false)];
          [(None, false); (None, true); (None, false); (None, true)]].
Proof. reflexivity. Qed.

Example scale_image_stretched :
  scale_image (mkImage 2 2 false
                 (Some [200; 1; 2; 3;  100; 4; 5; 6;  128; 7; 8; 9;
                        0; 10; 11; 12]) []) 4 2
  = Some [[(Some (257, 514, 771), true); (Some (257, 514, 771), true);
           (Some (1028, 1285, 1542), false); (Some (1028, 1285, 1542), false)];
          [(Some (1799, 2056, 2313), true); (Some (1799, 2056, 2313), true);
           (Some (2570, 2827, 3084), false); (Some (2570, 2827, 3084), false)]].
Proof. reflexivity. Qed.

(** *** The chain of the renderings *)

Section Scaler.

Variable build : Build.
Variable haveRender : bool.
Variable rootDepth : Z.

Lemma set_size_idem w h n : set_size w h (set_size w h n) = set_size w h n.
Proof. reflexivity. Qed.

(** A cell that the loop returns has the size asked for. *)
Lemma probe_size nw nh fg bm l : ∀ p l',
  probe build nw nh fg bm l = Some (p, l') →
  ∃ np, rev l' !! p = Some np ∧ sn_width np = nw ∧ sn_height np = nh.
Proof.
  induction l as [|n l IH]; intros p l' H; simpl in H; [discriminate|].
  destruct (USE_XRENDER build && negb (sn_imagePicture n =? XNone)).
  { injection H as <- <-. eexists. split; [apply lookup_rev_head|].
    split; reflexivity. }
  destruct ((sn_width n =? nw) && (sn_height n =? nh)
            && (negb bm || (sn_fg n =? fg))) eqn:E.
  { injection H as <- <-. exists n. split; [apply lookup_rev_head|].
    apply andb_true_iff in E as [E _]. apply andb_true_iff in E as [E1 E2].
    split; lia. }
  destruct (probe build nw nh fg bm l) as [[q rest]|] eqn:Hp; [|discriminate].
  simpl in H. injection H as <- <-.
  destruct (IH _ _ eq_refl) as (np & Hl & Hs). exists np. split; [|exact Hs].
  apply lookup_rev_tail. exact Hl.
Qed.

(** For a bitmap, a cell that the loop returns has the foreground asked
    for, unless it holds a picture of the compositing extension. *)
Lemma probe_fg nw nh fg l : ∀ p l',
  probe build nw nh fg true l = Some (p, l') →
  ∃ np, rev l' !! p = Some np
    ∧ (sn_fg np = fg
       ∨ (USE_XRENDER build = true ∧ sn_imagePicture np ≠ XNone)).
Proof.
  induction l as [|n l IH]; intros p l' H; simpl in H; [discriminate|].
  destruct (USE_XRENDER build && negb (sn_imagePicture n =? XNone)) eqn:E0.
  { injection H as <- <-. eexists. split; [apply lookup_rev_head|]. right.
    apply andb_true_iff in E0 as [E1 E2]. split; [exact E1|]. simpl.
    destruct (Z.eqb_spec (sn_imagePicture n) XNone); [discriminate | assumption]. }
  destruct ((sn_width n =? nw) && (sn_height n =? nh) && (sn_fg n =? fg)) eqn:E.
  { injection H as <- <-. exists n. split; [apply lookup_rev_head|]. left.
    apply andb_true_iff in E as [_ E]. lia. }
  destruct (probe build nw nh fg true l) as [[q rest]|] eqn:Hp; [|discriminate].
  simpl in H. injection H as <- <-.
  destruct (IH _ _ eq_refl) as (np & Hl & Hs). exists np. split; [|exact Hs].
  apply lookup_rev_tail. exact Hl.
Qed.


(** The rendering that [GetScaledIcon] returns is a cell of the chain it
    leaves, and has the effective size; for a bitmap it has the foreground
    asked for, unless it holds a picture of the compositing extension. *)
Lemma GetScaledIcon_size icon image fg rw rh s p image' s' :
  GetScaledIcon build haveRender rootDepth icon image fg rw rh s
    = Some (p, image', s') →
  ∃ nw nh np,
    scaled_size (preserveAspect icon) (img_width image) (img_height image)
                rw rh = Some (nw, nh)
    ∧ rev (img_nodes image') !! p = Some np
    ∧ sn_width np = nw ∧ sn_height np = nh
    ∧ (img_bitmap image = true →
       sn_fg np = fg ∨ (USE_XRENDER build = true ∧ sn_imagePicture np ≠ XNone)).
Proof.
  unfold GetScaledIcon.
  destruct (scaled_size _ _ _ rw rh) as [[nw nh]|]; [|discriminate]. simpl.
  intros H. exists nw, nh.
  destruct (probe build nw nh fg (img_bitmap image) (img_nodes image))
    as [[q l']|] eqn:Hp.
  - injection H as <- <- <-. destruct (probe_size _ _ _ _ _ _ _ Hp) as (np & Hl & Hs).
    exists np. split; [reflexivity|]. split; [exact Hl|].
    split; [apply Hs|]. split; [apply Hs|]. intros Hb. rewrite Hb in Hp.
    destruct (probe_fg _ _ _ _ _ _ Hp) as (np' & Hl' & Hfg).
    simpl in Hl. rewrite Hl in Hl'. injection Hl' as <-. exact Hfg.
  - destruct (USE_XRENDER build && haveRender).
    + simpl in H. injection H as <- <- <-. eexists. split; [reflexivity|].
      split; [apply lookup_rev_head|]. repeat split. intros _. left. reflexivity.
    + destruct (scale_image image nw nh) as [raster|]; [|discriminate].
      simpl in H. injection H as <- <- <-. eexists. split; [reflexivity|].
      split; [apply lookup_rev_head|]. repeat split. intros _. left. reflexivity.
Qed.


(** A request for a readable variant returns whenever the effective size
    is defined. *)
Lemma GetScaledIcon_returns icon image fg rw rh s nw nh :
  readable image →
  scaled_size (preserveAspect icon) (img_width image) (img_height image) rw rh
    = Some (nw, nh) →
  ∃ p image' s',
    GetScaledIcon build haveRender rootDepth icon image fg rw rh s
      = Some (p, image', s').
Proof.
  intros Hread Hs. unfold GetScaledIcon. rewrite Hs. simpl.
  destruct (probe build nw nh fg (img_bitmap image) (img_nodes image))
    as [[q l']|]; [eauto|].
  destruct (USE_XRENDER build && haveRender); simpl; [eauto|].
  destruct (scaled_size_positive _ _ _ _ _ _ _ Hs) as [Hnw Hnh].
  destruct (scale_image_defined image nw nh Hread Hnw Hnh) as [raster ->].
  simpl. eauto.
Qed.


(** C6 (amended): with aspect preservation on, a request at the native
    size of a variant whose sides are below 2^15 and whose pixel buffer is
    complete returns a rendering that never exceeds the native size, and
    that has the native size exactly when the native height divides 65536
    times the native width, that is when the 16.16 ratio is exact (every
    square variant, for one). *)
Theorem GetScaledIcon_native_size icon image fg s :
  preserveAspect icon = true →
  readable image →
  ∃ p image' s' np,
    GetScaledIcon build haveRender rootDepth icon image fg
                  (img_width image) (img_height image) s
      = Some (p, image', s')
    ∧ rev (img_nodes image') !! p = Some np
    ∧ 1 ≤ sn_width np ≤ img_width image
    ∧ 1 ≤ sn_height np ≤ img_height image
    ∧ ((sn_width np, sn_height np) = (img_width image, img_height image)
       ↔ (img_height image | img_width image * 65536)).
Proof.
  intros Hasp Hread.
  destruct (scaled_size_native_round_trip (img_width image) (img_height image))
    as (nw & nh & Hs & Hnw & Hnh & Hiff); [apply Hread | apply Hread|].
  rewrite <- Hasp in Hs.
  destruct (GetScaledIcon_returns icon image fg _ _ s nw nh Hread Hs)
    as (p & image' & s' & H).
  destruct (GetScaledIcon_size _ _ _ _ _ _ _ _ _ H)
    as (nw0 & nh0 & np & Hs0 & Hl & Hw & Hh & _).
  rewrite Hs in Hs0. injection Hs0 as <- <-.
  exists p, image', s', np. rewrite Hw, Hh.
  split; [exact H|]. split; [exact Hl|]. split; [exact Hnw|].
  split; [exact Hnh|]. exact Hiff.
Qed.

End Scaler.


(** Without its pixels the variant cannot be rendered without the
    compositing extension: the loop reads outside the buffer. *)
Example GetScaledIcon_unreadable :
  GetScaledIcon build_plain false 24 (icon_of [img 16 16]) (img 16 16)
                0 16 16 state0 = None.
Proof. reflexivity. Qed.

(** C6, as the claim states it, fails: the 16x48 variant requested at
    16x48 is rendered at 14x45. *)
Lemma GetScaledIcon_native_size_lost :
  let image := white 16 48 in
  ∃ image' s' np,
    GetScaledIcon build_plain false 24 (icon_of [image]) image 0
                  (img_width image) (img_height image) state0
      = Some (0%nat, image', s')
    ∧ rev (img_nodes image') !! 0%nat = Some np
    ∧ sn_width np = 14 ∧ sn_height np = 45
    ∧ (sn_width np, sn_height np) ≠ (img_width image, img_height image).
Proof.
  cbv zeta. eexists _, _, _. split; [vm_compute; reflexivity|].
  split; [reflexivity|]. split; [reflexivity|]. split; [reflexivity|].
  discriminate.
Qed.

(** An instance of C6 (amended): a 48x16 variant, whose ratio is exact. *)
Lemma GetScaledIcon_native_size_witness :
  ∃ p image' s' np,
    GetScaledIcon build_plain false 24 (icon_of [white 48 16]) (white 48 16) 0
                  (img_width (white 48 16)) (img_height (white 48 16)) state0
      = Some (p, image', s')
    ∧ rev (img_nodes image') !! p = Some np
    ∧ 1 ≤ sn_width np ≤ img_width (white 48 16)
    ∧ 1 ≤ sn_height np ≤ img_height (white 48 16)
    ∧ ((sn_width np, sn_height np)
       = (img_width (white 48 16), img_height (white 48 16))
       ↔ (img_height (white 48 16) | img_width (white 48 16) * 65536)).
Proof.
  apply (GetScaledIcon_native_size build_plain false 24 (icon_of [white 48 16])
           (white 48 16) 0 state0); [reflexivity|].
  split; [simpl; lia|]. split; [simpl; lia|].
  vm_compute. split; [intros H; discriminate H | reflexivity].
Defined.

(** ** The background manager *)

Lemma LoadBackground_unfold d s :
  LoadBackground d s =
    match resolved d s with
    | None => Some s
    | Some p =>
        node ← bg_deref s p;
        same ← unchanged s node;
        Some (if same : bool then s
              else add_calls (activation_calls node)
                             (set_lastBackground (Some p) s))
    end.
Proof.
  unfold LoadBackground, resolved.
  destruct (find_desktop d (backgrounds s)) as [p|];
    [|destruct (defaultBackground s) as [p|]; [|reflexivity]].
  all: destruct (bg_deref s p) as [node|]; [|reflexivity]; simpl.
  all: destruct (unchanged s node) as [[|]|]; [reflexivity| |reflexivity]; simpl.
  all: unfold activation_calls; destruct (type node); reflexivity.
Qed.

Lemma unchanged_after p node s c :
  bg_deref s p = Some node →
  unchanged (add_calls c (set_lastBackground (Some p) s)) node = Some true.
Proof.
  intros H. unfold unchanged. simpl.
  replace (bg_deref (add_calls c (set_lastBackground (Some p) s)) p)
    with (bg_deref s p) by reflexivity.
  rewrite H. simpl. rewrite !bool_decide_eq_true_2 by reflexivity. reflexivity.
Qed.

(** A second activation of the same desktop, right after the first,
    changes nothing. *)
Lemma LoadBackground_again d s s1 :
  LoadBackground d s = Some s1 → LoadBackground d s1 = Some s1.
Proof.
  rewrite !LoadBackground_unfold. intros H.
  destruct (resolved d s) as [p|] eqn:Hr.
  - destruct (bg_deref s p) as [node|] eqn:Hn; [|discriminate]. simpl in H.
    destruct (unchanged s node) as [[|]|] eqn:Hu; [| |discriminate];
      simpl in H; injection H as <-.
    + rewrite Hr, Hn. simpl. rewrite Hu. reflexivity.
    + replace (resolved d (add_calls (activation_calls node)
                             (set_lastBackground (Some p) s)))
        with (resolved d s) by reflexivity.
      rewrite Hr.
      replace (bg_deref (add_calls (activation_calls node)
                           (set_lastBackground (Some p) s)) p)
        with (bg_deref s p) by reflexivity.
      rewrite Hn. simpl. rewrite (unchanged_after _ _ _ _ Hn). reflexivity.
  - injection H as <-. rewrite Hr. reflexivity.
Qed.

Lemma find_desktop_live d bps : ∀ p,
  find_desktop d bps = Some p → is_Some (rev bps !! p).
Proof.
  induction bps as [|bp rest IH]; intros p H; simpl in H; [discriminate|].
  destruct (desktop bp =? d).
  - injection H as <-. rewrite lookup_rev_head. eauto.
  - destruct (IH p H) as [node Hn]. exists node. apply lookup_rev_tail. exact Hn.
Qed.

(** The pointers of a well formed state are live, and [LoadBackground]
    then returns. *)
Lemma LoadBackground_returns d s :
  bg_ok s → ∃ s1, LoadBackground d s = Some s1.
Proof.
  intros [Hd Hl]. rewrite LoadBackground_unfold.
  destruct (resolved d s) as [p|] eqn:Hr; [|eauto].
  assert (Hp : is_Some (bg_deref s p)).
  { unfold resolved in Hr.
    destruct (find_desktop d (backgrounds s)) as [q|] eqn:Hf.
    - injection Hr as <-. exact (find_desktop_live _ _ _ Hf).
    - apply Hd. exact Hr. }
  destruct Hp as [node ->]. simpl. unfold unchanged.
  destruct (lastBackground s) as [l|] eqn:Hlast; simpl; [|eauto].
  destruct (Hl l eq_refl) as [lastbp ->]. simpl. eauto.
Qed.

(** C7: a second activation of the same desktop, right after the first,
    changes nothing: it sends no request and runs no command, so the root
    window is changed and cleared once at most. *)
Theorem LoadBackground_twice d s :
  bg_ok s →
  ∃ s1, LoadBackground d s = Some s1 ∧ LoadBackground d s1 = Some s1.
Proof.
  intros Hok. destruct (LoadBackground_returns d s Hok) as [s1 H].
  exists s1. split; [exact H | exact (LoadBackground_again d s s1 H)].
Qed.

(** The same holds for another desktop whose node has the type and the
    value of the node just activated. *)
Lemma LoadBackground_same_descriptor d d' s s1 p p' node node' :
  LoadBackground d s = Some s1 →
  resolved d s = Some p → bg_deref s p = Some node →
  resolved d' s = Some p' → bg_deref s p' = Some node' →
  type node' = type node → value node' = value node →
  LoadBackground d' s1 = Some s1.
Proof.
  rewrite !LoadBackground_unfold. intros H Hr Hn Hr' Hn' Ht Hv.
  rewrite Hr, Hn in H. simpl in H.
  assert (Hu' : ∀ t, unchanged t node' = unchanged t node).
  { intros t. unfold unchanged. rewrite Ht, Hv. reflexivity. }
  destruct (unchanged s node) as [[|]|] eqn:Hu; [| |discriminate];
    simpl in H; injection H as <-.
  - rewrite Hr', Hn'. simpl. rewrite Hu', Hu. reflexivity.
  - replace (resolved d' (add_calls (activation_calls node)
                            (set_lastBackground (Some p) s)))
      with (resolved d' s) by reflexivity.
    rewrite Hr'.
    replace (bg_deref (add_calls (activation_calls node)
                         (set_lastBackground (Some p) s)) p')
      with (bg_deref s p') by reflexivity.
    rewrite Hn'. simpl. rewrite Hu', (unchanged_after _ _ _ _ Hn). reflexivity.
Qed.

(** An instance of C7: desktop 0 of the three desktops, activated twice. *)
Lemma LoadBackground_twice_witness :
  bg_ok three_desktops
  ∧ ∃ s1, LoadBackground 0 three_desktops = Some s1
      ∧ LoadBackground 0 s1 = Some s1.
Proof.
  assert (Hok : bg_ok three_desktops).
  { split; intros p H; [|discriminate].
    injection H as <-. eexists. reflexivity. }
  split; [exact Hok|]. exact (LoadBackground_twice 0 three_desktops Hok).
Defined.

(** In that instance one request to change the root window goes out. *)
Example LoadBackground_twice_calls :
  (s1 ← LoadBackground 0 three_desktops; calls <$> LoadBackground 0 s1)
  = Some [JXChangeWindowAttributes [CWBackPixmap; CWBackPixel; CWBorderPixel]
            (mkAttr (Some XNone) (Some 3) None);
          JXClearWindow].
Proof. reflexivity. Qed.

(** C8, as the claim states it, fails: of two activations in a row of a
    desktop with a command background only the first runs the command. *)
Lemma LoadBackground_command_once :
  ∃ s1, LoadBackground 0 command_desktop = Some s1
    ∧ calls s1 = [RunCommand "xsetroot -solid black"]
    ∧ ∃ s2, LoadBackground 0 s1 = Some s2
        ∧ calls s2 = [RunCommand "xsetroot -solid black"].
Proof.
  eexists. split; [reflexivity|]. split; [reflexivity|].
  eexists. split; reflexivity.
Qed.

(** C8 (amended): an activation that settles on a command node runs the
    command when nothing was activated before or when the node activated
    last differs from it in type or in value; when the node activated last
    is a command node of the same value the activation runs nothing. *)
Theorem LoadBackground_command d s p node :
  resolved d s = Some p →
  bg_deref s p = Some node →
  type node = BACKGROUND_COMMAND →
  (lastBackground s = None →
   LoadBackground d s
   = Some (add_calls [RunCommand (value node)] (set_lastBackground (Some p) s)))
  ∧ (∀ l lastbp,
       lastBackground s = Some l → bg_deref s l = Some lastbp →
       LoadBackground d s
       = Some (if bool_decide (type lastbp = BACKGROUND_COMMAND
                               ∧ value lastbp = value node)
               then s
               else add_calls [RunCommand (value node)]
                              (set_lastBackground (Some p) s))).
Proof.
  intros Hr Hn Ht. rewrite LoadBackground_unfold, Hr, Hn. simpl.
  unfold unchanged, activation_calls. rewrite Ht. split.
  - intros ->. reflexivity.
  - intros l lastbp -> Hl. rewrite Hl. simpl. f_equal.
    rewrite <- bool_decide_and.
    rewrite (bool_decide_ext _ (type lastbp = BACKGROUND_COMMAND
                                ∧ value lastbp = value node));
      [reflexivity | intuition congruence].
Qed.

(** An instance of C8 (amended): the first activation of a command node. *)
Lemma LoadBackground_command_witness :
  resolved 0 command_and_solid = Some 0%nat
  ∧ bg_deref command_and_solid 0
    = Some (mkBackground 0 BACKGROUND_COMMAND "xsetroot -solid black" None None)
  ∧ (lastBackground command_and_solid = None →
     LoadBackground 0 command_and_solid
     = Some (add_calls [RunCommand "xsetroot -solid black"]
                       (set_lastBackground (Some 0%nat) command_and_solid))).
Proof.
  split; [reflexivity|]. split; [reflexivity|].
  apply (LoadBackground_command 0 command_and_solid 0
           (mkBackground 0 BACKGROUND_COMMAND "xsetroot -solid black" None None));
    reflexivity.
Defined.

(** Going to another desktop and back runs the command again. *)
Example LoadBackground_command_again :
  ∃ s3, (s1 ← LoadBackground 0 command_and_solid;
         s2 ← LoadBackground 1 s1;
         LoadBackground 0 s2) = Some s3
    ∧ calls s3
      = [RunCommand "xsetroot -solid black";
         JXChangeWindowAttributes [CWBackPixmap; CWBackPixel; CWBorderPixel]
           (mkAttr (Some XNone) (Some 4) None);
         JXClearWindow;
         RunCommand "xsetroot -solid black"].
Proof. eexists. split; reflexivity. Qed.

Section Fallback.

Variable ParseColor : string → Z.
Variable icon_found : string → bool.

Lemma find_desktop_None d bps :
  Forall (λ bp, desktop bp ≠ d) bps → find_desktop d bps = None.
Proof.
  induction 1 as [|bp rest Hbp _ IH]; simpl; [reflexivity|].
  destruct (Z.eqb_spec (desktop bp) d); [contradiction | exact IH].
Qed.

(** Startup leaves the desktop of every node as it is. *)
Lemma materialize_desktop bp id :
  desktop (LoadSolidBackground ParseColor bp) = desktop bp
  ∧ desktop (LoadGradientBackground ParseColor bp id).1.1 = desktop bp
  ∧ desktop (LoadImageBackground icon_found bp id).1.1 = desktop bp.
Proof.
  split; [reflexivity|]. split.
  - unfold LoadGradientBackground.
    destruct (split_colon (value bp)) as [[a b]|]; reflexivity.
  - unfold LoadImageBackground. destruct (icon_found (value bp)); reflexivity.
Qed.

Lemma startup_loop_spec bps : ∀ dflt id log bps' dflt' id' log',
  startup_loop ParseColor icon_found bps dflt id log = (bps', dflt', id', log') →
  map desktop bps' = map desktop bps
  ∧ ((dflt' = dflt ∧ Forall (λ bp, desktop bp ≠ -1) bps)
     ∨ (∃ p node, dflt' = Some p ∧ rev bps' !! p = Some node
          ∧ desktop node = -1)).
Proof.
  induction bps as [|bp rest IH]; intros dflt id log bps' dflt' id' log' H;
    simpl in H.
  - injection H as <- <- <- <-. split; [reflexivity|]. left. split; constructor.
  - destruct (materialize_desktop bp id) as (Hd1 & Hd2 & Hd3).
    destruct (match type bp with
              | BACKGROUND_SOLID => (LoadSolidBackground ParseColor bp, id, [])
              | BACKGROUND_GRADIENT => LoadGradientBackground ParseColor bp id
              | BACKGROUND_COMMAND => (bp, id, [])
              | BACKGROUND_IMAGE => LoadImageBackground icon_found bp id
              end) as [[bp1 id1] out] eqn:Hm.
    assert (Hbp1 : desktop bp1 = desktop bp).
    { destruct (type bp); simpl in Hm.
      - injection Hm as <- _ _. exact Hd1.
      - rewrite <- Hd2, Hm. reflexivity.
      - injection Hm as <- _ _. reflexivity.
      - rewrite <- Hd3, Hm. reflexivity. }
    destruct (startup_loop ParseColor icon_found rest
                (if desktop bp1 =? -1 then Some (length rest) else dflt)
                id1 (log ++ out)) as [[[rest' d'] i'] l'] eqn:Hrec.
    injection H as <- <- <- <-.
    destruct (IH _ _ _ _ _ _ _ Hrec) as [Hmap Hdf].
    split; [simpl; rewrite Hmap, Hbp1; reflexivity|].
    destruct Hdf as [[-> Hall] | (p & node & -> & Hl & Hn)].
    + destruct (Z.eqb_spec (desktop bp1) (-1)) as [E|E].
      * right. exists (length rest), bp1. split; [reflexivity|].
        split; [|exact E].
        replace (length rest) with (length rest').
        { apply lookup_rev_head. }
        rewrite <- (length_map desktop rest'), Hmap, length_map. reflexivity.
      * left. split; [reflexivity|]. constructor; [congruence | exact Hall].
    + right. exists p, node. split; [reflexivity|]. split; [|exact Hn].
      apply lookup_rev_tail. exact Hl.
Qed.

(** C10: after startup, the activation of a desktop that no node is
    registered for does what the activation of the default node does,
    skipped or applied by the same test; the default node is a node
    registered for the sentinel -1 when there is one, and when there is
    none (and no default was recorded before) the activation does nothing. *)
Theorem LoadBackground_default d s0 :
  let s := StartupBackgrounds ParseColor icon_found s0 in
  Forall (λ bp, desktop bp ≠ d) (backgrounds s0) →
  LoadBackground d s
  = match defaultBackground s with
    | None => Some s
    | Some p =>
        node ← bg_deref s p;
        same ← unchanged s node;
        Some (if same : bool then s
              else add_calls (activation_calls node)
                             (set_lastBackground (Some p) s))
    end
  ∧ (Exists (λ bp, desktop bp = -1) (backgrounds s0) →
     ∃ p node, defaultBackground s = Some p ∧ bg_deref s p = Some node
       ∧ desktop node = -1)
  ∧ (Forall (λ bp, desktop bp ≠ -1) (backgrounds s0) →
     defaultBackground s0 = None →
     LoadBackground d s = Some s).
Proof.
  intros s Hd. subst s. unfold StartupBackgrounds.
  destruct (startup_loop ParseColor icon_found (backgrounds s0)
              (defaultBackground s0) (next_pixmap s0) (calls s0))
    as [[[bps' dflt'] id'] log'] eqn:Hs.
  destruct (startup_loop_spec _ _ _ _ _ _ _ _ Hs) as [Hmap Hdf].
  assert (Hnone : find_desktop d bps' = None).
  { apply find_desktop_None. apply Forall_forall. intros bp Hin.
    assert (Hin' : desktop bp ∈ map desktop (backgrounds s0)).
    { rewrite <- Hmap. apply list_elem_of_fmap. exists bp. auto. }
    apply list_elem_of_fmap in Hin' as (bp0 & -> & Hin0).
    rewrite Forall_forall in Hd. apply Hd. exact Hin0. }
  assert (Hload : ∀ s, backgrounds s = bps' →
            LoadBackground d s
            = match defaultBackground s with
              | None => Some s
              | Some p =>
                  node ← bg_deref s p;
                  same ← unchanged s node;
                  Some (if same : bool then s
                        else add_calls (activation_calls node)
                               (set_lastBackground (Some p) s))
              end).
  { intros s Hb. rewrite LoadBackground_unfold. unfold resolved.
    rewrite Hb, Hnone. reflexivity. }
  split; [apply Hload; reflexivity|]. split.
  - intros Hex. destruct Hdf as [[_ Hall] | (p & node & -> & Hl & Hn)].
    + exfalso. apply Exists_exists in Hex as (bp & Hin & Hbp).
      rewrite Forall_forall in Hall. exact (Hall bp Hin Hbp).
    + exists p, node. split; [reflexivity|]. split; [exact Hl | exact Hn].
  - intros Hall Hd0. rewrite Hload by reflexivity. simpl.
    destruct Hdf as [[-> _] | (p & node & -> & Hl & Hn)].
    + rewrite Hd0. reflexivity.
    + exfalso.
      assert (Hin : desktop node ∈ map desktop (backgrounds s0)).
      { rewrite <- Hmap. apply list_elem_of_fmap. exists node. split; [reflexivity|].
        apply list_elem_of_lookup_2, list_elem_of_In, in_rev in Hl.
        apply list_elem_of_In. exact Hl. }
      apply list_elem_of_fmap in Hin as (bp0 & Heq & Hin0).
      rewrite Forall_forall in Hall. apply (Hall bp0 Hin0). congruence.
Qed.

(** The scenario of the specification, for any colour parser: desktop 2
    gets the pixel of green. *)
Example LoadBackground_desktop_2_green :
  let s := StartupBackgrounds ParseColor icon_found red_blue_green in
  LoadBackground 2 s
  = Some (add_calls
            [JXChangeWindowAttributes [CWBackPixmap; CWBackPixel; CWBorderPixel]
               (mkAttr (Some XNone) (Some (ParseColor "green")) None);
             JXClearWindow]
            (set_lastBackground (Some 2%nat) s)).
Proof. reflexivity. Qed.

End Fallback.

(** An instance of C10, the scenario of the specification: red for
    desktop 0, blue for desktop 1, green for the default; desktop 2 falls
    back to the node of green. *)
Lemma LoadBackground_default_witness :
  let s := StartupBackgrounds color_code (λ _, false) red_blue_green in
  Forall (λ bp, desktop bp ≠ 2) (backgrounds red_blue_green)
  ∧ LoadBackground 2 s
    = match defaultBackground s with
      | None => Some s
      | Some p =>
          node ← bg_deref s p;
          same ← unchanged s node;
          Some (if same : bool then s
                else add_calls (activation_calls node)
                               (set_lastBackground (Some p) s))
      end
  ∧ defaultBackground s = Some 2%nat
  ∧ bg_deref s 2 = Some (mkBackground (-1) BACKGROUND_SOLID "green" (Some 5) None).
Proof.
  cbv zeta.
  assert (H : Forall (λ bp, desktop bp ≠ 2) (backgrounds red_blue_green)).
  { repeat constructor; simpl; lia. }
  split; [exact H|].
  split; [exact (proj1 (LoadBackground_default color_code (λ _, false) 2
                          red_blue_green H))|].
  split; reflexivity.
Defined.

(** ** Icons from window properties *)

(** C9: the loop reads past the words it was given.  A buffer of one word
    passes the test [offset < length] and the second word of the header is
    read at index 1; a header of 2 x 2147483647, whose size plus 2 is
    2^32 and wraps to 0, passes the test on the size, and the pixels are
    read from index 2 on. *)
Theorem CreateIconFromBinary_reads_outside s :
  CreateIconFromBinary (Some [5]) 1 s = ReadOutside 1
  ∧ CreateIconFromBinary (Some [2; 2147483647]) 2 s = ReadOutside 2.
Proof. split; reflexivity. Qed.

Lemma wrap_uint_small z : 0 ≤ z < 2 ^ 32 → wrap_uint z = z.
Proof. intros H. unfold wrap_uint. apply Z.mod_small. exact H. Qed.

(** What the loop does at a malformed entry whose header is complete and
    whose declared size stays below 2^32: it stops, and the icon is the
    one of the entries before. *)
Lemma binary_loop_stops fuel input length offset res s w0 w1 :
  0 ≤ offset < length → length < 2 ^ 32 →
  input !! Z.to_nat offset = Some w0 →
  input !! Z.to_nat (offset + 1) = Some w1 →
  wrap_uint w0 * wrap_uint w1 + 2 < 2 ^ 32 →
  wrap_uint w0 * wrap_uint w1 + 2 > length - offset
    ∨ wrap_uint w0 = 0 ∨ wrap_uint w1 = 0 →
  binary_loop (S fuel) input length offset res s = Done (res, s).
Proof.
  intros Ho Hl H0 H1 Hsmall Hbad. cbn [binary_loop].
  destruct (Z.ltb_spec offset length); [|lia].
  rewrite Z.add_0_r, !(wrap_uint_small offset), !(wrap_uint_small (offset + 1))
    by lia.
  rewrite H0, H1.
  assert (Hw0 : 0 ≤ wrap_uint w0) by (apply Z.mod_pos_bound; lia).
  assert (Hw1 : 0 ≤ wrap_uint w1) by (apply Z.mod_pos_bound; lia).
  rewrite (wrap_uint_small (wrap_uint w0 * wrap_uint w1)) by nia.
  rewrite (wrap_uint_small (wrap_uint w0 * wrap_uint w1 + 2)) by nia.
  rewrite (wrap_uint_small (length - offset)) by lia.
  destruct (Z.gtb_spec (wrap_uint w0 * wrap_uint w1 + 2) (length - offset));
    [reflexivity|].
  destruct Hbad as [Hb | [-> | ->]]; [lia | reflexivity |].
  rewrite orb_true_r. reflexivity.
Qed.

(** The case of the specification: a 1x1 image, then a header of 5x5 with
    5 words left, of which the 3 after the header are pixels.  The loop
    stops at the header and the icon holds the first image. *)
Example CreateIconFromBinary_5x5_short :
  ∃ s, CreateIconFromBinary (Some [1; 1; 4278190080; 5; 5; 0; 0; 0]) 8 state0
       = Done (Some 1%nat, s)
    ∧ heap s !! 1%nat
      = Some (mkIcon None [mkImage 1 1 false (Some [255; 0; 0; 0]) []]
                     None None true).
Proof. eexists. split; reflexivity. Qed.

Example CreateIconFromBinary_zero_width :
  CreateIconFromBinary (Some [0; 7; 1; 2]) 4 state0 = Done (None, state0).
Proof. reflexivity. Qed.

(** ** Destroying icons *)

Section Destroy.

Variable build : Build.

(** What [DestroyIcon] does to an icon that has no name and was never
    linked: the record is freed with the X resources of its renderings,
    and, the index passed on being [GetHash(NULL) = 0], the head of
    bucket 0 is overwritten with the NULL [next] of the icon. *)
Lemma DestroyIcon_unnamed s a i :
  heap s !! a = Some i → name i = None → a ≠ emptyIcon →
  prev i = None → next i = None →
  DestroyIcon build (Some a) s
  = Some (mkState (delete a (heap s)) (delete 0 (iconHash s)) (iconPaths s)
                  (xid s) (xlog s ++ free_images build (images i))).
Proof.
  intros Hi Hn Ha Hp Hx. unfold DestroyIcon. rewrite Hi. simpl. rewrite Hn.
  unfold DoDestroyIcon. rewrite decide_False by exact Ha. simpl.
  rewrite Hi. simpl. rewrite Hp, Hx. reflexivity.
Qed.

Lemma DestroyIcon_named s a i :
  heap s !! a = Some i → is_Some (name i) → DestroyIcon build (Some a) s = Some s.
Proof.
  intros Hi [n Hn]. unfold DestroyIcon. rewrite Hi. simpl. rewrite Hn.
  reflexivity.
Qed.

End Destroy.

(** C5: the code loses a cached icon when a transient one is destroyed.
    The name hashes to bucket 0; the icon is loaded and cached, a client's
    icon is made from its property and destroyed, and [FindIcon] no longer
    finds the cached icon, whose record is still live. *)
Theorem DestroyIcon_orphans_bucket_0 :
  GetHash (Some xterm) = 0
  ∧ ∃ s1 s2 s3,
      CreateIconFromFile xterm_store (Some xterm) true true state0
        = Some (Some 1%nat, s1)
      ∧ CreateIconFromBinary (Some [1; 1; 4278190080]) 3 s1
        = Done (Some 2%nat, s2)
      ∧ name <$> heap s2 !! 2%nat = Some None
      ∧ FindIcon xterm s2 = Some (Some 1%nat)
      ∧ DestroyIcon build_plain (Some 2%nat) s2 = Some s3
      ∧ FindIcon xterm s3 = Some None
      ∧ name <$> heap s3 !! 1%nat = Some (Some xterm).
Proof.
  split; [reflexivity|]. eexists _, _, _.
  split; [vm_compute; reflexivity|].
  split; [vm_compute; reflexivity|].
  split; [vm_compute; reflexivity|].
  split; [vm_compute; reflexivity|].
  split; [vm_compute; reflexivity|].
  split; vm_compute; reflexivity.
Qed.

(** ** Shutdown *)

Lemma chain_frame h h' l : ∀ p pv,
  (∀ a, a ∈ l → h' !! a = h !! a) → chain h p pv l → chain h' p pv l.
Proof.
  induction l as [|a rest IH]; intros p pv Hsame H; simpl in *; [exact H|].
  destruct H as (Hp & Ha & i & Hi & Hpv & Hc).
  split; [exact Hp|]. split; [exact Ha|]. exists i.
  split; [rewrite Hsame by left; exact Hi|]. split; [exact Hpv|].
  apply IH; [|exact Hc]. intros b Hb. apply Hsame. right. exact Hb.
Qed.

Lemma chain_live h l : ∀ p pv a,
  chain h p pv l → a ∈ l → is_Some (h !! a).
Proof.
  induction l as [|b rest IH]; intros p pv a H Ha; simpl in H.
  - inversion Ha.
  - destruct H as (_ & _ & i & Hi & _ & Hc).
    apply elem_of_cons in Ha as [->|Ha]; [eauto|]. eapply IH; eauto.
Qed.

Lemma chain_length h l p pv :
  chain h p pv l → NoDup l → (length l ≤ size h)%nat.
Proof.
  intros Hc Hnd. rewrite <- size_dom.
  unfold size, set_size. simpl.
  apply submseteq_length, NoDup_submseteq; [exact Hnd|].
  intros a Ha. apply elem_of_elements, elem_of_dom. eapply chain_live; eauto.
Qed.

Section Shutdown.

Variable build : Build.

(** Destroying the head of a chain leaves the rest as the chain of the
    bucket and touches no other record. *)
Lemma DoDestroyIcon_head s x a rest :
  chain (heap s) (iconHash s !! x) None (a :: rest) → NoDup (a :: rest) →
  ∃ s', DoDestroyIcon build x (Some a) s = Some s'
    ∧ chain (heap s') (iconHash s' !! x) None rest
    ∧ delete x (iconHash s') = delete x (iconHash s)
    ∧ heap s' !! a = None
    ∧ (∀ b, b ≠ a → b ∉ rest → heap s' !! b = heap s !! b).
Proof.
  intros (Hx & Ha & i & Hi & Hp & Hc) Hnd.
  apply NoDup_cons in Hnd as [Hnotin Hnd].
  unfold DoDestroyIcon. rewrite decide_False by exact Ha. simpl.
  rewrite Hi. simpl. rewrite Hp.
  destruct rest as [|n rest]; simpl in Hc.
  - rewrite Hc. simpl. eexists. split; [reflexivity|]. simpl.
    split; [apply lookup_delete_eq|]. split; [apply delete_delete_eq|].
    split; [apply lookup_delete_eq|].
    intros b Hb _. apply lookup_delete_ne. congruence.
  - destruct Hc as (Hn & Hne & ni & Hni & Hpn & Hc). rewrite Hn. simpl.
    unfold store. simpl. rewrite Hni. simpl.
    assert (Hna : n ≠ a). { intros ->. apply Hnotin. left. }
    apply NoDup_cons in Hnd as [Hnotin' Hnd'].
    eexists. split; [reflexivity|]. simpl.
    split.
    { rewrite lookup_insert_eq. split; [reflexivity|]. split; [exact Hne|].
      exists (set_prev None ni).
      split; [rewrite lookup_delete_ne, lookup_insert_eq by congruence;
              reflexivity|].
      split; [reflexivity|]. simpl.
      apply (chain_frame (heap s)); [|exact Hc].
      intros b Hb. rewrite lookup_delete_ne, lookup_insert_ne; [reflexivity| |].
      - intros ->. contradiction.
      - intros ->. apply Hnotin. right. exact Hb. }
    split; [apply delete_insert_eq|].
    split; [apply lookup_delete_eq|].
    intros b Hb Hb'. rewrite lookup_delete_ne, lookup_insert_ne; [reflexivity| |].
    + intros ->. apply Hb'. left.
    + congruence.
Qed.

Lemma shutdown_loop_chain l : ∀ fuel s x,
  chain (heap s) (iconHash s !! x) None l → NoDup l → (length l ≤ fuel)%nat →
  ∃ s', shutdown_loop build fuel x s = Some s'
    ∧ iconHash s' = delete x (iconHash s)
    ∧ (∀ a, a ∈ l → heap s' !! a = None)
    ∧ (∀ a, a ∉ l → heap s' !! a = heap s !! a).
Proof.
  induction l as [|a rest IH]; intros fuel s x Hc Hnd Hf.
  - simpl in Hc. exists s.
    split; [destruct fuel; simpl; rewrite Hc; reflexivity|].
    split; [symmetry; apply delete_id; exact Hc|].
    split; [intros a Ha; inversion Ha | reflexivity].
  - destruct fuel as [|fuel]; [simpl in Hf; lia|].
    destruct (DoDestroyIcon_head s x a rest Hc Hnd)
      as (s1 & Hd & Hc1 & Hh1 & Ha1 & Hother).
    destruct Hc as (Hx & _).
    change (shutdown_loop build (S fuel) x s)
      with (match iconHash s !! x with
            | None => Some s
            | Some a =>
                DoDestroyIcon build x (Some a) s ≫= shutdown_loop build fuel x
            end).
    rewrite Hx, Hd. simpl.
    apply NoDup_cons in Hnd as [Hnotin Hnd].
    destruct (IH fuel s1 x Hc1 Hnd) as (s' & Hs' & Hh' & Hin' & Hout');
      [simpl in Hf; lia|].
    exists s'. split; [exact Hs'|]. split; [rewrite Hh', Hh1; reflexivity|].
    split.
    + intros b Hb. apply elem_of_cons in Hb as [->|Hb]; [|apply Hin'; exact Hb].
      rewrite Hout' by exact Hnotin. exact Ha1.
    + intros b Hb. apply not_elem_of_cons in Hb as [Hba Hbr].
      rewrite Hout' by exact Hbr. apply Hother; assumption.
Qed.

Lemma shutdown_buckets_ok xs : ∀ L s,
  NoDup xs → table_ok s L →
  ∃ s', shutdown_buckets build xs s = Some s'
    ∧ (∀ x, x ∈ xs → iconHash s' !! x = None)
    ∧ (∀ x a, x ∈ xs → a ∈ L x → heap s' !! a = None)
    ∧ (∀ a, (∀ x, x ∈ xs → a ∉ L x) → heap s' !! a = heap s !! a)
    ∧ (∀ x, x ∉ xs → iconHash s' !! x = iconHash s !! x).
Proof.
  induction xs as [|x xs IH]; intros L s Hxs (Hc & Hnd & Hdis).
  - exists s. split; [reflexivity|]. split; [intros x Hx; inversion Hx|].
    split; [intros x a Hx; inversion Hx|]. split; reflexivity.
  - apply NoDup_cons in Hxs as [Hx Hxs].
    destruct (shutdown_loop_chain (L x) (size (heap s)) s x (Hc x) (Hnd x))
      as (s1 & Hs1 & Hh1 & Hin1 & Hout1).
    { eapply chain_length; [apply Hc | apply Hnd]. }
    change (shutdown_buckets build (x :: xs) s)
      with (shutdown_loop build (size (heap s)) x s ≫= shutdown_buckets build xs).
    rewrite Hs1. simpl.
    assert (Hok1 : table_ok s1 (λ y, if decide (y = x) then [] else L y)).
    { split; [|split].
      - intros y. destruct (decide (y = x)) as [->|Hy]; simpl.
        + rewrite Hh1. apply lookup_delete_eq.
        + rewrite Hh1, lookup_delete_ne by congruence.
          apply (chain_frame (heap s)); [|apply Hc].
          intros a Ha. apply Hout1. intros Hax. apply Hy. eapply Hdis; eauto.
      - intros y. destruct (decide (y = x)); [constructor | apply Hnd].
      - intros y z a. destruct (decide (y = x)); [intros H; inversion H|].
        destruct (decide (z = x)); [intros _ H; inversion H|]. apply Hdis. }
    destruct (IH _ s1 Hxs Hok1) as (s' & Hs' & Hnone & Hfreed & Hkept & Hhash).
    exists s'. split; [exact Hs'|]. split; [|split; [|split]].
    + intros y Hy. apply elem_of_cons in Hy as [->|Hy]; [|apply Hnone; exact Hy].
      rewrite Hhash by exact Hx. rewrite Hh1. apply lookup_delete_eq.
    + intros y a Hy Ha. apply elem_of_cons in Hy as [->|Hy].
      * rewrite Hkept; [apply Hin1; exact Ha|].
        intros z Hz. destruct (decide (z = x)) as [->|_]; [contradiction|].
        intros Haz. apply Hx. rewrite (Hdis x z a Ha Haz). exact Hz.
      * destruct (decide (y = x)) as [->|Hyx]; [contradiction|].
        apply (Hfreed y a Hy). rewrite decide_False by exact Hyx. exact Ha.
    + intros a Ha. rewrite Hkept.
      * apply Hout1. apply Ha. left.
      * intros z Hz. destruct (decide (z = x)); [intros H; inversion H|].
        apply Ha. right. exact Hz.
    + intros y Hy. apply not_elem_of_cons in Hy as [Hyx Hy].
      rewrite Hhash by exact Hy. rewrite Hh1. apply lookup_delete_ne. congruence.
Qed.

(** Shutdown empties every bucket and frees every record of every chain;
    a record that is in no chain stays. *)
Lemma ShutdownIcons_frees s L :
  table_ok s L →
  ∃ s', ShutdownIcons build s = Some s'
    ∧ (∀ x, 0 ≤ x < HASH_SIZE → iconHash s' !! x = None)
    ∧ (∀ x a, 0 ≤ x < HASH_SIZE → a ∈ L x → heap s' !! a = None)
    ∧ (∀ a, (∀ x, 0 ≤ x < HASH_SIZE → a ∉ L x) → heap s' !! a = heap s !! a).
Proof.
  intros Hok. unfold ShutdownIcons.
  destruct (shutdown_buckets_ok (seqZ 0 HASH_SIZE) L s (NoDup_seqZ _ _) Hok)
    as (s' & Hs' & Hnone & Hfreed & Hkept & _).
  rewrite Hs'. simpl. eexists. split; [reflexivity|]. simpl.
  assert (Hin : ∀ x, x ∈ seqZ 0 HASH_SIZE ↔ 0 ≤ x < HASH_SIZE).
  { intros x. rewrite elem_of_seqZ. unfold HASH_SIZE. lia. }
  split; [intros x Hx; apply Hnone, Hin, Hx|].
  split; [intros x a Hx; apply Hfreed, Hin, Hx|].
  intros a Ha. apply Hkept. intros x Hx. apply Ha, Hin, Hx.
Qed.

End Shutdown.

Section DestroyOnly.

Variable build : Build.

(** C4: [DestroyIcon] frees an icon that has no name (a transient one,
    never linked into the table: the record goes and the X resources of
    its renderings are freed) and does nothing to an icon that has a name;
    an icon with a name is freed by [ShutdownIcons], which frees every
    record of a well linked table. *)
Theorem DestroyIcon_frees_unnamed_only s a i :
  heap s !! a = Some i →
  (name i = None → a ≠ emptyIcon → prev i = None → next i = None →
   ∃ s', DestroyIcon build (Some a) s = Some s'
     ∧ heap s' !! a = None
     ∧ xlog s' = xlog s ++ free_images build (images i))
  ∧ (is_Some (name i) → DestroyIcon build (Some a) s = Some s)
  ∧ (is_Some (name i) →
     ∀ L x, table_ok s L → 0 ≤ x < HASH_SIZE → a ∈ L x →
     ∃ s', ShutdownIcons build s = Some s' ∧ heap s' !! a = None).
Proof.
  intros Hi. split; [|split].
  - intros Hn Ha Hp Hx. eexists.
    split; [apply (DestroyIcon_unnamed build s a i); assumption|].
    split; [apply lookup_delete_eq | reflexivity].
  - apply DestroyIcon_named. exact Hi.
  - intros _ L x Hok Hx Ha.
    destruct (ShutdownIcons_frees build s L Hok) as (s' & Hs & _ & Hfreed & _).
    exists s'. split; [exact Hs|]. exact (Hfreed x a Hx Ha).
Qed.

(** The static [emptyIcon] has no name either, and is left alone. *)
Lemma DestroyIcon_emptyIcon s i :
  heap s !! emptyIcon = Some i → DestroyIcon build (Some emptyIcon) s = Some s.
Proof.
  intros Hi. unfold DestroyIcon. rewrite Hi. simpl.
  destruct (name i); reflexivity.
Qed.

End DestroyOnly.

(** An instance of C4: the transient icon of the scenario is freed. *)
Lemma DestroyIcon_frees_unnamed_only_witness :
  heap cached_and_transient !! 2%nat = Some transient_icon
  ∧ ∃ s', DestroyIcon build_plain (Some 2%nat) cached_and_transient = Some s'
      ∧ heap s' !! 2%nat = None
      ∧ xlog s' = xlog cached_and_transient
                  ++ free_images build_plain (images transient_icon).
Proof.
  assert (H : heap cached_and_transient !! 2%nat = Some transient_icon)
    by (vm_compute; reflexivity).
  split; [exact H|].
  apply (proj1 (DestroyIcon_frees_unnamed_only build_plain
                  cached_and_transient 2 transient_icon H));
    [reflexivity | discriminate | reflexivity | reflexivity].
Defined.

(** The table of that state is well linked, and shutdown frees the cached
    icon. *)
Lemma cached_and_transient_ok :
  table_ok cached_and_transient (λ x, if decide (x = 0) then [1%nat] else []).
Proof.
  split; [|split].
  - intros x. destruct (decide (x = 0)) as [->|Hx].
    + simpl. split; [vm_compute; reflexivity|]. split; [discriminate|].
      eexists. split; [vm_compute; reflexivity|]. split; reflexivity.
    + simpl. replace (iconHash cached_and_transient) with ({[0 := 1%nat]} : gmap Z nat)
        by (vm_compute; reflexivity).
      apply lookup_singleton_ne. congruence.
  - intros x. destruct (decide (x = 0)); [apply NoDup_singleton | constructor].
  - intros x y a. destruct (decide (x = 0)) as [->|]; [|intros H; inversion H].
    destruct (decide (y = 0)) as [->|]; [reflexivity | intros _ H; inversion H].
Qed.

Example ShutdownIcons_frees_cached :
  ∃ s', ShutdownIcons build_plain cached_and_transient = Some s'
    ∧ heap s' !! 1%nat = None.
Proof.
  destruct (ShutdownIcons_frees build_plain _ _ cached_and_transient_ok)
    as (s' & Hs & _ & Hfreed & _).
  exists s'. split; [exact Hs|]. apply (Hfreed 0); [unfold HASH_SIZE; lia|].
  simpl. left.
Qed.

(** ** The cache: loading by name *)

Arguments GetHash : simpl never.
Arguments fresh_addr : simpl never.
Arguments CreateIcon : simpl never.

Lemma find_loop_mono n : ∀ m h p nm r,
  find_loop n h p nm = Some r → (n ≤ m)%nat → find_loop m h p nm = Some r.
Proof.
  induction n as [|n IH]; intros m h p nm r H Hm.
  - destruct p; [discriminate|]. destruct m; exact H.
  - destruct p as [a|]; [|destruct m; exact H].
    destruct m as [|m]; [lia|]. simpl in *.
    destruct (h !! a) as [i|]; [|discriminate]. simpl in *.
    destruct (name i) as [n0|]; [|discriminate]. simpl in *.
    destruct (decide (n0 = nm)); [exact H|]. apply IH; [exact H | lia].
Qed.

(** The walk reads the name and the [next] of live records only. *)
Lemma find_loop_ext n : ∀ h h' p nm r,
  (∀ a i, h !! a = Some i →
     ∃ i', h' !! a = Some i' ∧ name i' = name i ∧ next i' = next i) →
  find_loop n h p nm = Some r → find_loop n h' p nm = Some r.
Proof.
  induction n as [|n IH]; intros h h' p nm r Hext H; [exact H|].
  destruct p as [a|]; [|exact H]. simpl in *.
  destruct (h !! a) as [i|] eqn:Hi; [|discriminate].
  destruct (Hext a i Hi) as (i' & -> & Hn & Hx). simpl in *. rewrite Hn, Hx.
  destruct (name i) as [n0|]; [|discriminate]. simpl in *.
  destruct (decide (n0 = nm)); [exact H|]. eapply IH; eauto.
Qed.

Lemma fresh_addr_fresh (h : gmap nat IconNode) : h !! fresh_addr h = None.
Proof.
  apply not_elem_of_dom. intros Hin.
  apply elem_of_elements, max_list_elem_of_le in Hin.
  unfold fresh_addr in Hin. lia.
Qed.

Lemma store_Some p f s s' :
  store p f s = Some s' →
  ∃ i, heap s !! p = Some i ∧ s' = set_heap (<[p := f i]> (heap s)) s.
Proof.
  unfold store. intros H. destruct (heap s !! p) as [i|]; [|discriminate].
  injection H as <-. eauto.
Qed.

Lemma new_cell_CreateIcon s :
  new_cell s (CreateIcon s).1 (CreateIcon s).2.
Proof.
  pose proof (fresh_addr_fresh (heap s)) as Hf.
  unfold CreateIcon, new_cell. cbn [fst snd heap set_heap iconHash iconPaths].
  split; [exact Hf|]. split; [rewrite lookup_insert_eq; eauto|].
  split; [apply map_size_insert_None; exact Hf|].
  split; [|split; reflexivity].
  intros b i Hb. exists i. split; [|split; reflexivity].
  rewrite lookup_insert_ne; [exact Hb|]. intros <-. congruence.
Qed.

(** A store into the new record keeps it a new record. *)
Lemma new_cell_store_new s0 a s f s' :
  new_cell s0 a s → store a f s = Some s' → new_cell s0 a s'.
Proof.
  intros (Hf & Ha & Hsz & Hold & Hh & Hp) H.
  apply store_Some in H as (i & Hi & ->). unfold new_cell. simpl.
  split; [exact Hf|]. split; [rewrite lookup_insert_eq; eauto|].
  split; [rewrite map_size_insert_Some by eauto; exact Hsz|].
  split; [|split; assumption].
  intros b ib Hb. destruct (Hold b ib Hb) as (i' & Hi' & Hn & Hx).
  exists i'. split; [|split; assumption].
  rewrite lookup_insert_ne; [exact Hi'|]. intros <-. congruence.
Qed.

(** So does a store of a [prev] pointer, wherever it goes. *)
Lemma new_cell_store_prev s0 a s p q s' :
  new_cell s0 a s → store p (set_prev q) s = Some s' → new_cell s0 a s'.
Proof.
  intros (Hf & Ha & Hsz & Hold & Hh & Hp) H.
  apply store_Some in H as (i & Hi & ->). unfold new_cell. simpl.
  split; [exact Hf|].
  split; [destruct (decide (p = a)) as [->|];
          [rewrite lookup_insert_eq | rewrite lookup_insert_ne by done]; eauto|].
  split; [rewrite map_size_insert_Some by eauto; exact Hsz|].
  split; [|split; assumption].
  intros b ib Hb. destruct (Hold b ib Hb) as (i' & Hi' & Hn & Hx).
  destruct (decide (p = b)) as [->|Hpb].
  - rewrite lookup_insert_eq. eexists. split; [reflexivity|].
    rewrite Hi in Hi'. injection Hi' as <-. split; assumption.
  - rewrite lookup_insert_ne by exact Hpb. eauto.
Qed.

(** What [InsertIcon] leaves: the record at the head of the bucket of its
    name, followed by the old chain. *)
Lemma InsertIcon_spec s0 a s s' i :
  new_cell s0 a s → heap s !! a = Some i →
  InsertIcon a s = Some s' →
  ∃ n i', name i = Some n
    ∧ new_cell s0 a (set_iconHash (iconHash s0) s')
    ∧ iconHash s' = <[GetHash (Some n) := a]> (iconHash s0)
    ∧ iconPaths s' = iconPaths s0
    ∧ heap s' !! a = Some i'
    ∧ name i' = Some n
    ∧ next i' = iconHash s0 !! GetHash (Some n).
Proof.
  intros Hnew Hi H. unfold InsertIcon in H. rewrite Hi in H. simpl in H.
  destruct (name i) as [n|] eqn:Hn; [|discriminate]. simpl in H.
  apply bind_Some in H as (s1 & H1 & H).
  apply bind_Some in H as (s2 & H2 & H).
  apply bind_Some in H as (s3 & H3 & H). injection H as <-.
  pose proof (new_cell_store_new _ _ _ _ _ Hnew H1) as Hnew1.
  assert (Hh1 : iconHash s1 = iconHash s0) by apply Hnew1.
  assert (Hname1 : name <$> heap s1 !! a = Some (Some n)).
  { apply store_Some in H1 as (i1 & Hi1 & ->). simpl.
    rewrite lookup_insert_eq. simpl. rewrite Hi in Hi1. injection Hi1 as <-.
    simpl. rewrite Hn. reflexivity. }
  assert (Hnew2 : new_cell s0 a s2 ∧ name <$> heap s2 !! a = Some (Some n)).
  { destruct (iconHash s1 !! GetHash (Some n)) as [hd|].
    - split; [eapply new_cell_store_prev; eauto|].
      apply store_Some in H2 as (i2 & Hi2 & ->). simpl.
      destruct (decide (hd = a)) as [->|Hne].
      + rewrite lookup_insert_eq. rewrite Hi2 in Hname1. exact Hname1.
      + rewrite lookup_insert_ne by exact Hne. exact Hname1.
    - injection H2 as <-. split; assumption. }
  destruct Hnew2 as [Hnew2 Hname2].
  assert (Hh2 : iconHash s2 = iconHash s0) by apply Hnew2.
  pose proof (new_cell_store_new _ _ _ _ _ Hnew2 H3) as Hnew3.
  apply store_Some in H3 as (i3 & Hi3 & ->).
  rewrite Hi3 in Hname2. simpl in Hname2. injection Hname2 as Hname2.
  exists n, (set_next (iconHash s2 !! GetHash (Some n)) i3).
  split; [reflexivity|]. split.
  { destruct Hnew3 as (? & ? & ? & ? & ? & ?). repeat split; assumption. }
  simpl. rewrite Hh2.
  split; [reflexivity|]. split; [apply Hnew2|].
  split; [apply lookup_insert_eq|]. split; [exact Hname2 | reflexivity].
Qed.

Lemma FindIcon_after_insert s0 s' a n i' :
  (∀ b i, heap s0 !! b = Some i →
     ∃ i1, heap s' !! b = Some i1 ∧ name i1 = name i ∧ next i1 = next i) →
  size (heap s') = S (size (heap s0)) →
  iconHash s' = <[GetHash (Some n) := a]> (iconHash s0) →
  heap s' !! a = Some i' → name i' = Some n →
  next i' = iconHash s0 !! GetHash (Some n) →
  FindIcon n s' = Some (Some a)
  ∧ ∀ c r, c ≠ n → FindIcon c s0 = Some r → FindIcon c s' = Some r.
Proof.
  intros Hold Hsz Hh Ha Hn Hx. unfold FindIcon. rewrite Hsz, Hh. split.
  - rewrite lookup_insert_eq. simpl. rewrite Ha. simpl. rewrite Hn. simpl.
    rewrite decide_True by reflexivity. reflexivity.
  - intros c r Hc Hr.
    destruct (decide (GetHash (Some n) = GetHash (Some c))) as [E|E].
    + rewrite <- E, lookup_insert_eq. simpl. rewrite Ha. simpl. rewrite Hn. simpl.
      rewrite decide_False by congruence. rewrite Hx, E.
      eapply find_loop_ext; eauto.
    + rewrite lookup_insert_ne by exact E.
      eapply find_loop_ext; [exact Hold|].
      eapply find_loop_mono; [exact Hr | lia].
Qed.

Section CacheLoad.

Variable build : Build.
Variable LoadImage : string → list ImageNode.

(** The three ways in which [CreateIconFromFile] returns when the icon is
    to be saved: found in the cache; not found and not decoded; not found,
    decoded and put in the cache. *)
Lemma CreateIconFromFile_spec file aspect s r s' :
  CreateIconFromFile LoadImage (Some file) true aspect s = Some (r, s') →
  (∃ a, r = Some a ∧ s' = s ∧ FindIcon file s = Some (Some a))
  ∨ (r = None ∧ s' = s ∧ miss LoadImage file s)
  ∨ (∃ a, r = Some a ∧ LoadImage file ≠ []
       ∧ FindIcon file s' = Some (Some a)
       ∧ (∀ c r', c ≠ file → FindIcon c s = Some r' → FindIcon c s' = Some r')
       ∧ iconPaths s' = iconPaths s).
Proof.
  unfold CreateIconFromFile. intros H.
  destruct (FindIcon file s) as [[a|]|] eqn:Hf; simpl in H; [| |discriminate].
  { injection H as <- <-. left. eauto. }
  destruct (LoadImage file) as [|image0 images0] eqn:Hl.
  { injection H as <- <-. right. left. repeat split; assumption. }
  right. right.
  pose proof (new_cell_CreateIcon s) as Hnew.
  unfold CreateIcon in Hnew. cbn [fst snd] in Hnew.
  set (a := fresh_addr (heap s)) in *.
  apply bind_Some in H as (s2 & H2 & H).
  apply bind_Some in H as (s3 & H3 & H).
  apply bind_Some in H as (s4 & H4 & H).
  apply bind_Some in H as (s5 & H5 & H). injection H as <- <-.
  pose proof (new_cell_store_new _ _ _ _ _ Hnew H2) as Hnew2.
  pose proof (new_cell_store_new _ _ _ _ _ Hnew2 H3) as Hnew3.
  pose proof (new_cell_store_new _ _ _ _ _ Hnew3 H4) as Hnew4.
  apply store_Some in H4 as (i3 & Hi3 & ->).
  destruct (InsertIcon_spec s a _ s5 (set_name (Some file) i3) Hnew4)
    as (n & i' & Hn & Hnew5 & Hh5 & Hp5 & Ha5 & Hn5 & Hx5);
    [simpl; apply lookup_insert_eq | exact H5 |].
  simpl in Hn. injection Hn as <-.
  destruct Hnew5 as (_ & _ & Hsz & Hold & _ & _). simpl in Hsz, Hold.
  destruct (FindIcon_after_insert s s5 a file i' Hold Hsz Hh5 Ha5 Hn5 Hx5)
    as [Hfound Hframe].
  exists a. split; [reflexivity|]. split; [discriminate|].
  split; [exact Hfound|]. split; [exact Hframe | exact Hp5].
Qed.

Lemma CreateIconFromFile_miss file save aspect s :
  miss LoadImage file s →
  CreateIconFromFile LoadImage (Some file) save aspect s = Some (None, s).
Proof.
  intros [Hf Hl]. unfold CreateIconFromFile. rewrite Hf. simpl. rewrite Hl.
  reflexivity.
Qed.

Lemma CreateIconFromFile_found file save aspect s a :
  FindIcon file s = Some (Some a) →
  CreateIconFromFile LoadImage (Some file) save aspect s = Some (Some a, s).
Proof.
  intros Hf. unfold CreateIconFromFile. rewrite Hf. reflexivity.
Qed.

Lemma CreateIconFromFile_again file aspect s r s' :
  CreateIconFromFile LoadImage (Some file) true aspect s = Some (r, s') →
  (∀ save' aspect',
     CreateIconFromFile LoadImage (Some file) save' aspect' s' = Some (r, s'))
  ∧ stable LoadImage s s' ∧ (r = None → s' = s).
Proof.
  intros H. apply CreateIconFromFile_spec in H
    as [(a & -> & -> & Hf) | [(-> & -> & Hm) | (a & -> & Hl & Hf & Hframe & Hp)]].
  - split; [intros; apply CreateIconFromFile_found; exact Hf|].
    split; [split; auto | discriminate].
  - split; [intros; apply CreateIconFromFile_miss; exact Hm|].
    split; [split; auto | reflexivity].
  - split; [intros; apply CreateIconFromFile_found; exact Hf|].
    split; [|discriminate]. split; [|exact Hp].
    intros c [Hc Hlc]. split; [|exact Hlc]. apply Hframe; [|exact Hc].
    intros ->. contradiction.
Qed.

Lemma CreateIconFromFile_None file aspect s s' :
  CreateIconFromFile LoadImage (Some file) true aspect s = Some (None, s') →
  s' = s ∧ miss LoadImage file s.
Proof.
  intros H. apply CreateIconFromFile_spec in H
    as [(a & Ha & _) | [(_ & -> & Hm) | (a & Ha & _)]];
    [discriminate | split; [reflexivity | exact Hm] | discriminate].
Qed.

Arguments CreateIconFromFile : simpl never.

Lemma helper_loop_None exts name path aspect : ∀ s s',
  helper_loop LoadImage exts name path true aspect s = Some (None, s') →
  s' = s
  ∧ Forall (λ ext,
       miss LoadImage (String.append path (String.append name ext)) s) exts.
Proof.
  induction exts as [|ext rest IH]; intros s s' H; simpl in H.
  - injection H as <-. split; [reflexivity | constructor].
  - apply bind_Some in H as ([r0 s0] & H0 & H).
    destruct r0 as [icon|]; [discriminate|].
    apply CreateIconFromFile_None in H0 as [-> Hm].
    destruct (IH _ _ H) as [-> Hall]. split; [reflexivity|].
    constructor; assumption.
Qed.

Lemma helper_loop_miss exts name path save aspect s :
  Forall (λ ext,
    miss LoadImage (String.append path (String.append name ext)) s) exts →
  helper_loop LoadImage exts name path save aspect s = Some (None, s).
Proof.
  induction 1 as [|ext rest Hm _ IH]; simpl; [reflexivity|].
  rewrite (CreateIconFromFile_miss _ save aspect _ Hm). simpl. exact IH.
Qed.

Lemma helper_loop_again exts name path aspect : ∀ s r s',
  helper_loop LoadImage exts name path true aspect s = Some (r, s') →
  (∀ save' aspect',
     helper_loop LoadImage exts name path save' aspect' s' = Some (r, s'))
  ∧ stable LoadImage s s' ∧ (r = None → s' = s).
Proof.
  induction exts as [|ext rest IH]; intros s r s' H; simpl in H.
  - injection H as <- <-. split; [reflexivity|]. split; [split; auto | reflexivity].
  - apply bind_Some in H as ([r0 s0] & H0 & H).
    destruct (CreateIconFromFile_again _ _ _ _ _ H0) as (Hag & [Hm0 Hp0] & Hn0).
    destruct r0 as [icon|].
    + injection H as <- <-. split; [|split; [split; assumption | discriminate]].
      intros save' aspect'. simpl. rewrite Hag. reflexivity.
    + apply CreateIconFromFile_None in H0 as [-> Hmiss].
      destruct (IH _ _ _ H) as (Hag' & [Hm' Hp'] & Hn').
      split; [|split; [split; assumption | exact Hn']].
      intros save' aspect'. simpl.
      rewrite (CreateIconFromFile_miss _ save' aspect' _ (Hm' _ Hmiss)). simpl.
      apply Hag'.
Qed.

Lemma paths_loop_again ip name aspect : ∀ s r s',
  paths_loop build LoadImage ip name true aspect s = Some (r, s') →
  (∀ save' aspect',
     paths_loop build LoadImage ip name save' aspect' s' = Some (r, s'))
  ∧ stable LoadImage s s' ∧ (r = None → s' = s).
Proof.
  induction ip as [|path rest IH]; intros s r s' H; simpl in H.
  - injection H as <- <-. split; [reflexivity|]. split; [split; auto | reflexivity].
  - apply bind_Some in H as ([r0 s0] & H0 & H).
    unfold LoadNamedIconHelper in H0.
    destruct (helper_loop_again _ _ _ _ _ _ _ H0) as (Hag & [Hm0 Hp0] & Hn0).
    destruct r0 as [icon|].
    + injection H as <- <-. split; [|split; [split; assumption | discriminate]].
      intros save' aspect'. simpl. unfold LoadNamedIconHelper. rewrite Hag.
      reflexivity.
    + apply helper_loop_None in H0 as [-> Hall].
      destruct (IH _ _ _ H) as (Hag' & [Hm' Hp'] & Hn').
      split; [|split; [split; assumption | exact Hn']].
      intros save' aspect'. simpl. unfold LoadNamedIconHelper.
      rewrite helper_loop_miss.
      * simpl. apply Hag'.
      * eapply Forall_impl; [exact Hall|]. intros ext. apply Hm'.
Qed.

(** The record of a load that was to save is the entry of the cache
    under the name of the file it was loaded from. *)
Lemma CreateIconFromFile_cached file aspect s a s' :
  CreateIconFromFile LoadImage (Some file) true aspect s = Some (Some a, s') →
  FindIcon file s' = Some (Some a).
Proof.
  intros H. apply CreateIconFromFile_spec in H
    as [(b & [= <-] & -> & Hf) | [(Hr & _) | (b & [= <-] & _ & Hf & _)]];
    [exact Hf | discriminate | exact Hf].
Qed.

(** The record that [FindIcon] returns has the name asked for. *)
Lemma find_loop_name fuel h nm a : ∀ p,
  find_loop fuel h p nm = Some (Some a) →
  ∃ i, h !! a = Some i ∧ name i = Some nm.
Proof.
  induction fuel as [|fuel IH]; intros [b|] H; simpl in H; try discriminate.
  destruct (h !! b) as [i|] eqn:Hi; [|discriminate]. simpl in H.
  destruct (name i) as [n|] eqn:Hn; [|discriminate]. simpl in H.
  destruct (decide (n = nm)) as [->|Hne].
  - injection H as <-. eauto.
  - exact (IH _ H).
Qed.

Lemma FindIcon_name nm s a :
  FindIcon nm s = Some (Some a) →
  ∃ i, heap s !! a = Some i ∧ name i = Some nm.
Proof. apply find_loop_name. Qed.

Lemma helper_loop_cached exts nm path aspect : ∀ s a s',
  helper_loop LoadImage exts nm path true aspect s = Some (Some a, s') →
  ∃ file,
    file ∈ map (λ ext, String.append path (String.append nm ext)) exts
    ∧ FindIcon file s' = Some (Some a).
Proof.
  induction exts as [|ext rest IH]; intros s a s' H; simpl in H; [discriminate|].
  apply bind_Some in H as ([r0 s0] & H0 & H). destruct r0 as [icon|].
  - injection H as <- <-. eexists. split; [left|].
    eapply CreateIconFromFile_cached. exact H0.
  - destruct (IH _ _ _ H) as (file & Hin & Hf).
    exists file. split; [right; exact Hin | exact Hf].
Qed.

Lemma paths_loop_cached ip nm aspect : ∀ s a s',
  paths_loop build LoadImage ip nm true aspect s = Some (Some a, s') →
  ∃ file, file ∈ candidates build ip nm ∧ FindIcon file s' = Some (Some a).
Proof.
  induction ip as [|path rest IH]; intros s a s' H; simpl in H; [discriminate|].
  apply bind_Some in H as ([r0 s0] & H0 & H). destruct r0 as [icon|].
  - injection H as <- <-.
    destruct (helper_loop_cached _ _ _ _ _ _ _ H0) as (file & Hin & Hf).
    exists file. split; [|exact Hf].
    change (file ∈ map (λ ext, String.append path (String.append nm ext))
                       (ICON_EXTENSIONS build) ++ candidates build rest nm).
    apply elem_of_app. left. exact Hin.
  - destruct (IH _ _ _ H) as (file & Hin & Hf).
    exists file. split; [|exact Hf].
    change (file ∈ map (λ ext, String.append path (String.append nm ext))
                       (ICON_EXTENSIONS build) ++ candidates build rest nm).
    apply elem_of_app. right. exact Hin.
Qed.

(** A load by name that was to save the icon, done again, returns the
    same record (or fails again) and leaves the state as the first load
    left it; the record of a name that is not empty is the entry of the
    cache for one of the file names of that name, and has that file name
    for its name. *)
Lemma LoadNamedIcon_again nm aspect s r s' :
  LoadNamedIcon build LoadImage nm true aspect s = Some (r, s') →
  (∀ save' aspect',
     LoadNamedIcon build LoadImage nm save' aspect' s' = Some (r, s'))
  ∧ (∀ a, nm ≠ EmptyString → r = Some a →
       ∃ file i, file ∈ tried_files build (iconPaths s) nm
         ∧ FindIcon file s' = Some (Some a)
         ∧ heap s' !! a = Some i ∧ name i = Some file).
Proof.
  unfold LoadNamedIcon, tried_files. destruct nm as [|c rest].
  - intros [= <- <-]. split; [reflexivity | congruence].
  - destruct (decide (c = "/"%char)).
    + intros H. split.
      * apply CreateIconFromFile_again in H as (Hag & _). exact Hag.
      * intros a _ ->. apply CreateIconFromFile_cached in H.
        destruct (FindIcon_name _ _ _ H) as (i & Hi & Hn).
        exists (String c rest), i. split; [left|]. auto.
    + intros H. split.
      * apply paths_loop_again in H as (Hag & [_ Hp] & _).
        intros save' aspect'. rewrite Hp. apply Hag.
      * intros a _ ->.
        destruct (paths_loop_cached _ _ _ _ _ _ H) as (file & Hin & Hf).
        destruct (FindIcon_name _ _ _ Hf) as (i & Hi & Hn).
        exists file, i. auto.
Qed.

End CacheLoad.

(** Once a file is in the cache, a load of it returns the cached record
    whatever the image store has become. *)
Lemma CreateIconFromFile_cached_any_store LoadImage LoadImage' file aspect s a s'
    save' aspect' :
  CreateIconFromFile LoadImage (Some file) true aspect s = Some (Some a, s') →
  CreateIconFromFile LoadImage' (Some file) save' aspect' s' = Some (Some a, s').
Proof.
  intros H. apply CreateIconFromFile_found.
  eapply CreateIconFromFile_cached. exact H.
Qed.

(** *** The first load returns *)

Lemma find_loop_returns l : ∀ h p pv nm fuel,
  chain h p pv l →
  (∀ a i, a ∈ l → h !! a = Some i → is_Some (name i)) →
  (length l ≤ fuel)%nat →
  ∃ r, find_loop fuel h p nm = Some r.
Proof.
  induction l as [|a rest IH]; intros h p pv nm fuel Hc Hn Hf; simpl in Hc.
  - subst p. exists None. destruct fuel; reflexivity.
  - destruct Hc as (-> & _ & i & Hi & _ & Hc).
    destruct fuel as [|fuel]; [simpl in Hf; lia|]. simpl. rewrite Hi. simpl.
    destruct (Hn a i (list_elem_of_here _ _) Hi) as [n ->]. simpl.
    destruct (decide (n = nm)); [eauto|].
    eapply IH; [exact Hc | | simpl in Hf; lia].
    intros b ib Hb. apply Hn. right. exact Hb.
Qed.

Lemma FindIcon_returns s L nm :
  cache_ok s L → ∃ r, FindIcon nm s = Some r.
Proof.
  intros [(Hc & Hnd & _) Hn]. unfold FindIcon.
  eapply (find_loop_returns (L (GetHash (Some nm)))); [apply Hc | apply Hn |].
  eapply chain_length; [apply Hc | apply Hnd].
Qed.

Lemma chain_head_live h hd pv l : chain h (Some hd) pv l → is_Some (h !! hd).
Proof.
  destruct l as [|a rest]; simpl; [discriminate|].
  intros ([= ->] & _ & i & Hi & _). eauto.
Qed.

Lemma store_returns p f s :
  is_Some (heap s !! p) →
  ∃ s', store p f s = Some s' ∧ iconHash s' = iconHash s
    ∧ (∀ q, is_Some (heap s !! q) → is_Some (heap s' !! q)).
Proof.
  intros [i Hi]. unfold store. rewrite Hi. simpl. eexists.
  split; [reflexivity|]. split; [reflexivity|]. simpl. intros q Hq.
  destruct (decide (p = q)) as [->|Hne];
    [rewrite lookup_insert_eq | rewrite lookup_insert_ne by exact Hne]; eauto.
Qed.

Lemma InsertIcon_returns a s i n :
  heap s !! a = Some i → name i = Some n →
  (∀ hd, iconHash s !! GetHash (Some n) = Some hd → is_Some (heap s !! hd)) →
  ∃ s', InsertIcon a s = Some s'.
Proof.
  intros Hi Hn Hhd. unfold InsertIcon. rewrite Hi. simpl. rewrite Hn. simpl.
  destruct (store_returns a (set_prev None) s) as (s1 & -> & Hh1 & Hl1); [eauto|].
  simpl. rewrite Hh1.
  destruct (iconHash s !! GetHash (Some n)) as [hd|] eqn:Hb.
  - destruct (store_returns hd (set_prev (Some a)) s1) as (s2 & -> & Hh2 & Hl2);
      [apply Hl1, Hhd; reflexivity|].
    simpl.
    destruct (store_returns a (set_next (iconHash s2 !! GetHash (Some n))) s2)
      as (s3 & -> & _); [apply Hl2, Hl1; eauto|].
    simpl. eauto.
  - simpl.
    destruct (store_returns a (set_next (iconHash s1 !! GetHash (Some n))) s1)
      as (s3 & -> & _); [apply Hl1; eauto|].
    simpl. eauto.
Qed.

Section FirstLoad.

Variable build : Build.
Variable LoadImage : string → list ImageNode.

Lemma CreateIconFromFile_returns file save aspect s L :
  cache_ok s L →
  ∃ r s', CreateIconFromFile LoadImage (Some file) save aspect s = Some (r, s').
Proof.
  intros Hok. unfold CreateIconFromFile.
  destruct (FindIcon_returns s L file Hok) as [[a|] ->]; simpl; [eauto|].
  destruct (LoadImage file) as [|image0 images0]; [eauto|].
  pose proof (new_cell_CreateIcon s) as (_ & Ha & _ & Hold & Hh & _).
  unfold CreateIcon in Ha, Hold, Hh. cbn [fst snd] in Ha, Hold, Hh.
  set (a := fresh_addr (heap s)) in *.
  set (s1 := set_heap (<[a := mkIcon None [] None None true]> (heap s)) s) in *.
  destruct (store_returns a (set_preserveAspect aspect) s1 Ha)
    as (s2 & -> & Hh2 & Hl2). simpl.
  destruct (store_returns a (set_images (image0 :: images0)) s2 (Hl2 _ Ha))
    as (s3 & -> & Hh3 & Hl3). simpl.
  destruct save; [|eauto].
  destruct (store_returns a (set_name (Some file)) s3 (Hl3 _ (Hl2 _ Ha)))
    as (s4 & Hs4 & Hh4 & Hl4).
  rewrite Hs4. simpl.
  apply store_Some in Hs4 as (i3 & Hi3 & Es4).
  destruct (InsertIcon_returns a s4 (set_name (Some file) i3) file)
    as (s5 & ->); [subst s4; simpl; apply lookup_insert_eq | reflexivity | |].
  - intros hd Hhd. apply Hl4, Hl3, Hl2.
    rewrite Hh4, Hh3, Hh2, Hh in Hhd.
    destruct Hok as [(Hc & _) _].
    pose proof (Hc (GetHash (Some file))) as Hch. rewrite Hhd in Hch.
    destruct (chain_head_live _ _ _ _ Hch) as [ihd Hihd].
    destruct (Hold hd ihd Hihd) as (i' & Hi' & _). eauto.
  - simpl. eauto.
Qed.

Lemma helper_loop_returns exts name path aspect s L :
  cache_ok s L →
  ∃ r s', helper_loop LoadImage exts name path true aspect s = Some (r, s').
Proof.
  intros Hok. induction exts as [|ext rest IH]; cbn [helper_loop]; [eauto|].
  destruct (CreateIconFromFile_returns
              (String.append path (String.append name ext)) true aspect s L Hok)
    as (r0 & s0 & H0).
  rewrite H0. simpl. destruct r0 as [icon|]; [eauto|].
  apply CreateIconFromFile_None in H0 as [-> _]. exact IH.
Qed.

Lemma paths_loop_returns ip name aspect s L :
  cache_ok s L →
  ∃ r s', paths_loop build LoadImage ip name true aspect s = Some (r, s').
Proof.
  intros Hok. induction ip as [|path rest IH]; cbn [paths_loop]; [eauto|].
  unfold LoadNamedIconHelper.
  destruct (helper_loop_returns (ICON_EXTENSIONS build) name path aspect s L Hok)
    as (r0 & s0 & H0).
  rewrite H0. simpl. destruct r0 as [icon|]; [eauto|].
  apply helper_loop_None in H0 as [-> _]. exact IH.
Qed.

Lemma LoadNamedIcon_returns name aspect s L :
  cache_ok s L →
  ∃ r s', LoadNamedIcon build LoadImage name true aspect s = Some (r, s').
Proof.
  intros Hok. unfold LoadNamedIcon. destruct name as [|c rest]; [eauto|].
  destruct (decide (c = "/"%char)).
  - eapply CreateIconFromFile_returns. exact Hok.
  - eapply paths_loop_returns. exact Hok.
Qed.

End FirstLoad.

(** *** The table stays well linked *)

Lemma cache_ok_InitializeIcons s : cache_ok (InitializeIcons s) (λ _, []).
Proof.
  split; [split; [|split]|].
  - intros x. simpl. apply lookup_empty.
  - intros x. constructor.
  - intros x y a H. inversion H.
  - intros x a i H. inversion H.
Qed.

(** A record that is not live is in no chain. *)
Lemma chain_not_live h l p pv a : chain h p pv l → h !! a = None → a ∉ l.
Proof.
  intros Hc Ha Hin. destruct (chain_live _ _ _ _ _ Hc Hin) as [i Hi]. congruence.
Qed.


Lemma store_eq p f s i :
  heap s !! p = Some i →
  store p f s = Some (set_heap (<[p := f i]> (heap s)) s).
Proof. intros H. unfold store. rewrite H. reflexivity. Qed.

(** What [InsertIcon] does to a record that is not in the table. *)
Lemma InsertIcon_fresh s L a i n :
  cache_ok s L →
  heap s !! a = Some i → name i = Some n → a ≠ emptyIcon →
  (∀ x, a ∉ L x) →
  ∃ s', InsertIcon a s = Some s'
    ∧ cache_ok s' (λ x, if decide (x = GetHash (Some n)) then a :: L x else L x).
Proof.
  intros [(Hc & Hnd & Hdis) Hn] Hi Hni Hae Hnot.
  set (idx := GetHash (Some n)).
  unfold InsertIcon. rewrite Hi. simpl. rewrite Hni. simpl. fold idx.
  rewrite (store_eq a _ s i Hi). simpl.
  pose proof (Hc idx) as Hci.
  destruct (L idx) as [|hd rest] eqn:HL; simpl in Hci.
  - (* the bucket is empty *)
    rewrite Hci. simpl.
    erewrite store_eq by (simpl; apply lookup_insert_eq). simpl.
    rewrite Hci, insert_insert_eq. eexists. split; [reflexivity|].
    split; [split; [|split]|].
    + intros x. simpl. destruct (decide (x = idx)) as [->|Hx].
      * rewrite lookup_insert_eq, HL. simpl. split; [reflexivity|].
        split; [exact Hae|]. eexists.
        split; [apply lookup_insert_eq|]. split; reflexivity.
      * rewrite lookup_insert_ne by congruence.
        apply (chain_frame (heap s)); [|apply Hc].
        intros b Hb.
        rewrite !lookup_insert_ne by (intros <-; exact (Hnot x Hb)).
        reflexivity.
    + intros x. destruct (decide (x = idx)) as [->|]; [|apply Hnd].
      rewrite HL. apply NoDup_singleton.
    + intros x y b. destruct (decide (x = idx)) as [->|Hx];
        destruct (decide (y = idx)) as [->|Hy]; try reflexivity.
      * rewrite HL. intros Hb Hb'. apply list_elem_of_singleton in Hb as ->.
        exfalso. exact (Hnot y Hb').
      * rewrite HL. intros Hb Hb'. apply list_elem_of_singleton in Hb' as ->.
        exfalso. exact (Hnot x Hb).
      * apply Hdis.
    + intros x b ib. simpl. destruct (decide (x = idx)) as [->|Hx].
      * rewrite HL. intros Hb. apply list_elem_of_singleton in Hb as ->.
        rewrite lookup_insert_eq. intros [= <-]. simpl. rewrite Hni. eauto.
      * intros Hb.
        rewrite !lookup_insert_ne by (intros <-; exact (Hnot x Hb)).
        apply (Hn x). exact Hb.
  - (* the bucket has a head *)
    destruct Hci as (Hhd & Hhde & ihd & Hihd & Hpv & Hcr). rewrite Hhd. simpl.
    assert (Hne : a ≠ hd).
    { intros ->. apply (Hnot idx). rewrite HL. left. }
    erewrite (store_eq hd)
      by (simpl; rewrite lookup_insert_ne by exact Hne; exact Hihd).
    simpl.
    erewrite (store_eq a)
      by (simpl; rewrite lookup_insert_ne by congruence; apply lookup_insert_eq).
    simpl. rewrite Hhd. eexists. split; [reflexivity|].
    pose proof (Hnd idx) as Hndi. rewrite HL in Hndi.
    apply NoDup_cons in Hndi as [Hhdr Hndr].
    split; [split; [|split]|].
    + intros x. simpl. destruct (decide (x = idx)) as [->|Hx].
      * rewrite lookup_insert_eq, HL. simpl. split; [reflexivity|].
        split; [exact Hae|]. eexists.
        split; [apply lookup_insert_eq|]. split; [reflexivity|]. simpl.
        split; [reflexivity|]. split; [exact Hhde|]. eexists.
        split; [rewrite lookup_insert_ne, lookup_insert_eq by congruence;
                reflexivity|].
        split; [reflexivity|]. simpl.
        apply (chain_frame (heap s)); [|exact Hcr].
        intros b Hb. rewrite !lookup_insert_ne; [reflexivity| | |].
        -- intros <-. apply (Hnot idx). rewrite HL. right. exact Hb.
        -- intros <-. contradiction.
        -- intros <-. apply (Hnot idx). rewrite HL. right. exact Hb.
      * rewrite lookup_insert_ne by congruence.
        apply (chain_frame (heap s)); [|apply Hc].
        intros b Hb. rewrite !lookup_insert_ne; [reflexivity| | |].
        -- intros <-. exact (Hnot x Hb).
        -- intros <-. apply Hx. apply (Hdis x idx hd Hb). rewrite HL. left.
        -- intros <-. exact (Hnot x Hb).
    + intros x. destruct (decide (x = idx)) as [->|]; [|apply Hnd].
      rewrite HL. apply NoDup_cons. split; [|apply NoDup_cons; split; assumption].
      rewrite <- HL. apply Hnot.
    + intros x y b. destruct (decide (x = idx)) as [->|Hx];
        destruct (decide (y = idx)) as [->|Hy]; try reflexivity.
      * intros Hb Hb'. apply elem_of_cons in Hb as [->|Hb].
        -- exfalso. exact (Hnot y Hb').
        -- exfalso. apply Hy. symmetry. exact (Hdis idx y b Hb Hb').
      * intros Hb Hb'. apply elem_of_cons in Hb' as [->|Hb'].
        -- exfalso. exact (Hnot x Hb).
        -- exfalso. apply Hx. symmetry. exact (Hdis idx x b Hb' Hb).
      * apply Hdis.
    + intros x b ib. simpl.
      assert (Hold : b ≠ a → b ∈ L x →
                <[a := set_next (Some hd) (set_prev None i)]>
                  (<[hd := set_prev (Some a) ihd]>
                     (<[a := set_prev None i]> (heap s))) !! b = Some ib →
                is_Some (name ib)).
      { intros Hba Hb. rewrite lookup_insert_ne by congruence.
        destruct (decide (hd = b)) as [->|Hhb].
        - rewrite lookup_insert_eq. intros [= <-]. simpl.
          apply (Hn x b ihd Hb Hihd).
        - rewrite !lookup_insert_ne by congruence. apply (Hn x). exact Hb. }
      destruct (decide (x = idx)) as [->|Hx].
      * intros Hb. apply elem_of_cons in Hb as [->|Hb].
        -- rewrite lookup_insert_eq. intros [= <-]. simpl. rewrite Hni. eauto.
        -- apply Hold; [|exact Hb]. intros ->. exact (Hnot idx Hb).
      * intros Hb. apply Hold; [|exact Hb]. intros ->. exact (Hnot x Hb).
Qed.

(** A store into a record outside the table leaves the table as it is. *)
Lemma cache_ok_outside s L a i :
  cache_ok s L → (∀ x, a ∉ L x) →
  cache_ok (set_heap (<[a := i]> (heap s)) s) L.
Proof.
  intros [(Hc & Hnd & Hdis) Hn] Ha. split; [split; [|split]|].
  - intros x. simpl. apply (chain_frame (heap s)); [|apply Hc].
    intros b Hb. apply lookup_insert_ne. intros <-. exact (Ha x Hb).
  - exact Hnd.
  - exact Hdis.
  - intros x b ib Hb. simpl. rewrite lookup_insert_ne; [apply (Hn x); exact Hb|].
    intros <-. exact (Ha x Hb).
Qed.

Lemma set_heap_twice h h' s : set_heap h (set_heap h' s) = set_heap h s.
Proof. reflexivity. Qed.

Section Invariant.

Variable build : Build.
Variable LoadImage : string → list ImageNode.





End Invariant.

(** C1: in a state whose table is well linked, a load by name that is to
    save the icon returns, and the same load done again returns the same
    record (or fails again) and leaves the state as the first load left
    it, so that nothing is allocated; the record of a name that is not
    empty is the entry of the cache stored under a file name of that name
    (the name itself when it is absolute, a search path followed by the
    name and an extension otherwise): [FindIcon] returns it for that file
    name, which is the name the record has, and that is where the second
    load finds it. *)
Theorem LoadNamedIcon_twice build LoadImage nm aspect s L :
  cache_ok s L →
  ∃ r s',
    LoadNamedIcon build LoadImage nm true aspect s = Some (r, s')
    ∧ (∀ save' aspect',
         LoadNamedIcon build LoadImage nm save' aspect' s' = Some (r, s'))
    ∧ (∀ a, nm ≠ EmptyString → r = Some a →
         ∃ file i, file ∈ tried_files build (iconPaths s) nm
           ∧ FindIcon file s' = Some (Some a)
           ∧ heap s' !! a = Some i ∧ name i = Some file).
Proof.
  intros Hok.
  destruct (LoadNamedIcon_returns build LoadImage nm aspect s L Hok)
    as (r & s' & H).
  exists r, s'. split; [exact H|].
  exact (LoadNamedIcon_again build LoadImage nm aspect s r s' H).
Qed.

(** The state that [InitializeIcons] leaves, search paths added, is well
    linked: every bucket is empty. *)
Lemma with_paths_ok : cache_ok with_paths (λ _, []).
Proof.
  split; [split; [|split]|].
  - intros x. simpl. apply lookup_empty.
  - intros x. constructor.
  - intros x y a H. inversion H.
  - intros x a i H. inversion H.
Qed.

(** An instance of C1: "xterm" is found under the second search path with
    the extension ".png"; the second load returns the record of the
    first, which is the entry of the cache. *)
Lemma LoadNamedIcon_twice_witness :
  cache_ok with_paths (λ _, [])
  ∧ LoadNamedIcon build_plain xterm_store "xterm" true true with_paths
    = Some (Some 1%nat, xterm_loaded)
  ∧ FindIcon xterm xterm_loaded = Some (Some 1%nat)
  ∧ xterm ∈ tried_files build_plain (iconPaths with_paths) "xterm"
  ∧ ∃ r s',
      LoadNamedIcon build_plain xterm_store "xterm" true true with_paths
        = Some (r, s')
      ∧ (∀ save' aspect',
           LoadNamedIcon build_plain xterm_store "xterm" save' aspect' s'
             = Some (r, s'))
      ∧ (∀ a, "xterm"%string ≠ EmptyString → r = Some a →
           ∃ file i, file ∈ tried_files build_plain (iconPaths with_paths) "xterm"
             ∧ FindIcon file s' = Some (Some a)
             ∧ heap s' !! a = Some i ∧ name i = Some file).
Proof.
  split; [exact with_paths_ok|].
  split; [vm_compute; reflexivity|].
  split; [vm_compute; reflexivity|].
  split; [apply list_elem_of_In; vm_compute; tauto|].
  exact (LoadNamedIcon_twice build_plain xterm_store "xterm" true with_paths
           (λ _, []) with_paths_ok).
Defined.

(** * Further properties *)

(** ** The hash *)

Lemma hash_mask_range z : 0 ≤ Z.land z (HASH_SIZE - 1) < HASH_SIZE.
Proof.
  unfold HASH_SIZE. change (128 - 1) with (Z.ones 7).
  rewrite Z.land_ones by lia. apply Z.mod_pos_bound. lia.
Qed.

(** X1.  The hash of a name, or of no name, is an index of the table. *)
Theorem GetHash_range str : 0 ≤ GetHash str < HASH_SIZE.
Proof.
  unfold GetHash. destruct str as [st|]; [apply hash_mask_range|].
  unfold HASH_SIZE. lia.
Qed.

(** ** The resolver, for any requested size *)

Lemma best_step_overlap rw rh best ip :
  best_step rw rh best ip =
    if image_overlap rw rh ip >? image_overlap rw rh best then ip
    else if image_overlap rw rh ip =? image_overlap rw rh best then
      (if image_area ip <? image_area best then ip else best)
    else best.
Proof.
  unfold best_step, image_overlap.
  destruct ((rw =? 0) && (rh =? 0)); [reflexivity|].
  destruct (rw =? 0); [reflexivity|]. destruct (rh =? 0); reflexivity.
Qed.

Lemma best_loop_ranked rw rh l : ∀ best r,
  best_loop rw rh best l = r →
  (r = best ∧ Forall (no_better rw rh best) l)
  ∨ (∃ l1 l2, l = l1 ++ r :: l2
       ∧ worse rw rh r best
       ∧ Forall (worse rw rh r) l1
       ∧ Forall (no_better rw rh r) l2).
Proof.
  unfold no_better, worse.
  induction l as [|i l IH]; intros best r Hr; simpl in Hr.
  - left. split; [congruence | constructor].
  - rewrite best_step_overlap in Hr.
    destruct (Z.gtb_spec (image_overlap rw rh i) (image_overlap rw rh best))
      as [Hgt|Hle];
      [|destruct (Z.eqb_spec (image_overlap rw rh i) (image_overlap rw rh best))
          as [Heq|Hne];
        [destruct (Z.ltb_spec (image_area i) (image_area best)) as [Hlt|Hge]|]].
    all: destruct (IH _ _ Hr) as [[-> Hall] | (l1 & l2 & -> & Hw & H1 & H2)].
    all: try (right; exists [], l; split; [reflexivity|];
              split; [lia|]; split; [constructor | exact Hall]).
    all: try (right; exists (i :: l1), l2; split; [reflexivity|];
              split; [lia|]; split; [constructor; [lia | exact H1] | exact H2]).
    all: left; split; [reflexivity|]; constructor; [lia | exact Hall].
Qed.

(** X2.  For any requested size, the variant that [GetBestImage] returns is
    a variant of the icon that no other variant beats: every variant
    before it in the list overlaps less, or as much with a larger area;
    every variant after it overlaps less, or as much with an area that is
    not smaller. *)
Theorem GetBestImage_best icon rw rh :
  images icon ≠ [] →
  ∃ best l1 l2, GetBestImage icon rw rh = Some best
    ∧ images icon = l1 ++ best :: l2
    ∧ Forall (worse rw rh best) l1
    ∧ Forall (no_better rw rh best) l2.
Proof.
  unfold GetBestImage. destruct (images icon) as [|first rest]; [congruence|].
  intros _. exists (best_loop rw rh first rest).
  destruct (best_loop_ranked rw rh rest first _ eq_refl)
    as [[-> Hall] | (l1 & l2 & Hl & Hw & H1 & H2)].
  - exists [], rest. repeat split; [constructor | assumption].
  - exists (first :: l1), l2. split; [reflexivity|].
    split; [simpl; rewrite <- Hl; reflexivity|].
    split; [constructor; assumption | assumption].
Qed.

(** An instance of X2: three variants asked for at 24x24. *)
Lemma GetBestImage_best_witness :
  images (icon_of [img 16 16; img 48 48; img 32 32]) ≠ []
  ∧ GetBestImage (icon_of [img 16 16; img 48 48; img 32 32]) 24 24
    = Some (img 32 32)
  ∧ ∃ best l1 l2,
      GetBestImage (icon_of [img 16 16; img 48 48; img 32 32]) 24 24 = Some best
      ∧ images (icon_of [img 16 16; img 48 48; img 32 32]) = l1 ++ best :: l2
      ∧ Forall (worse 24 24 best) l1
      ∧ Forall (no_better 24 24 best) l2.
Proof.
  split; [discriminate|]. split; [reflexivity|].
  apply (GetBestImage_best (icon_of [img 16 16; img 48 48; img 32 32]) 24 24).
  discriminate.
Defined.

(** ** The effective size, for any request *)

(** X3.  With aspect preservation on and no overflow in the products (the
    native width is below 2^15, the requested width too, and the requested
    height times the 16.16 ratio is below 2^31), the effective size of a
    request with both sides given is defined, is at least 1x1 and fits into
    the requested size. *)
Theorem scaled_size_fits iw ih rw rh :
  0 < iw < 2 ^ 15 → 0 < ih ≤ iw * 65536 →
  0 < rw < 2 ^ 15 → 0 < rh →
  rh * (iw * 65536 / ih) < 2 ^ 31 →
  ∃ nw nh, scaled_size true iw ih rw rh = Some (nw, nh)
    ∧ 1 ≤ nw ≤ rw ∧ 1 ≤ nh ≤ rh.
Proof.
  intros Hiw Hih Hrw Hrh Hov. unfold scaled_size.
  destruct (Z.eqb_spec rw 0); [lia|]. destruct (Z.eqb_spec rh 0); [lia|].
  rewrite int_shl_16 by lia. rewrite int_div_pos by lia.
  set (ratio := iw * 65536 / ih) in *. simpl.
  assert (Hr : 1 ≤ ratio).
  { unfold ratio. apply Z.div_le_lower_bound; lia. }
  assert (Hm : int_mul rh ratio = rh * ratio).
  { unfold int_mul. apply wrap_int_small. nia. }
  rewrite Hm, int_shr_16, Min_spec.
  set (n1 := Z.min rw (rh * ratio / 65536)).
  assert (Hn1 : 0 ≤ n1 ≤ rw).
  { unfold n1. split; [|lia]. apply Z.min_glb; [lia|]. apply Z.div_pos; nia. }
  rewrite int_shl_16 by lia. rewrite int_div_pos by lia. simpl.
  rewrite Min_spec.
  set (q := n1 * 65536 / ratio).
  assert (Hq : 0 ≤ q ∧ q * ratio ≤ n1 * 65536).
  { unfold q. split; [apply Z.div_pos; lia|].
    rewrite Z.mul_comm. apply Z.mul_div_le. lia. }
  set (nh := Z.min rh q).
  assert (Hnh : 0 ≤ nh ≤ rh ∧ nh ≤ q) by (unfold nh; lia).
  assert (Hm2 : int_mul nh ratio = nh * ratio).
  { unfold int_mul. apply wrap_int_small. nia. }
  rewrite Hm2, int_shr_16, !Max_spec.
  assert (Hnw : 0 ≤ nh * ratio / 65536 ≤ n1).
  { split; [apply Z.div_pos; nia|].
    apply Z.div_le_upper_bound; [lia|]. nia. }
  eexists _, _. split; [reflexivity|]. lia.
Qed.

(** An instance of X3: the 16x48 variant asked for at 32x32. *)
Lemma scaled_size_fits_witness :
  scaled_size true 16 48 32 32 = Some (9, 30)
  ∧ ∃ nw nh, scaled_size true 16 48 32 32 = Some (nw, nh)
      ∧ 1 ≤ nw ≤ 32 ∧ 1 ≤ nh ≤ 32.
Proof.
  split; [reflexivity|].
  apply (scaled_size_fits 16 48 32 32); [lia | lia | lia | lia |].
  vm_compute. reflexivity.
Defined.

(** ** Looking up the cache *)

Lemma find_loop_first l : ∀ h p pv nm fuel r,
  chain h p pv l →
  find_loop fuel h p nm = Some r →
  match r with
  | Some a =>
      ∃ l1 l2 i, l = l1 ++ a :: l2 ∧ h !! a = Some i ∧ name i = Some nm
        ∧ ∀ b j, b ∈ l1 → h !! b = Some j → name j ≠ Some nm
  | None => ∀ b j, b ∈ l → h !! b = Some j → name j ≠ Some nm
  end.
Proof.
  induction l as [|a rest IH]; intros h p pv nm fuel r Hc H; simpl in Hc.
  - subst p. destruct fuel; simpl in H; injection H as <-;
      intros b j Hb; inversion Hb.
  - destruct Hc as (-> & _ & i & Hi & _ & Hc).
    destruct fuel as [|fuel]; [discriminate|]. simpl in H. rewrite Hi in H.
    simpl in H. destruct (name i) as [n|] eqn:Hn; [|discriminate]. simpl in H.
    destruct (decide (n = nm)) as [->|Hne].
    + injection H as <-. exists [], rest, i. split; [reflexivity|].
      split; [exact Hi|]. split; [exact Hn|]. intros b j Hb. inversion Hb.
    + specialize (IH _ _ _ _ _ _ Hc H). destruct r as [b|].
      * destruct IH as (l1 & l2 & j & -> & Hj & Hnj & Hbefore).
        exists (a :: l1), l2, j. split; [reflexivity|]. split; [exact Hj|].
        split; [exact Hnj|]. intros c k Hc' Hk.
        apply elem_of_cons in Hc' as [->|Hc']; [|eauto].
        rewrite Hi in Hk. injection Hk as <-. congruence.
      * intros c k Hc' Hk. apply elem_of_cons in Hc' as [->|Hc']; [|eauto].
        rewrite Hi in Hk. injection Hk as <-. congruence.
Qed.

Lemma FindIcon_first_of s L nm r :
  cache_ok s L → FindIcon nm s = Some r →
  match r with
  | Some a =>
      ∃ l1 l2 i, L (GetHash (Some nm)) = l1 ++ a :: l2
        ∧ heap s !! a = Some i ∧ name i = Some nm
        ∧ ∀ b j, b ∈ l1 → heap s !! b = Some j → name j ≠ Some nm
  | None =>
      ∀ b j, b ∈ L (GetHash (Some nm)) → heap s !! b = Some j →
             name j ≠ Some nm
  end.
Proof.
  intros [(Hc & _) _] Hr.
  exact (find_loop_first _ _ _ _ _ _ _ (Hc (GetHash (Some nm))) Hr).
Qed.

(** X6.  In a well linked table [FindIcon] returns, and what it returns is
    the first record of that name in the chain of the bucket of the name,
    or NULL when the chain has no record of that name. *)
Theorem FindIcon_first s L nm :
  cache_ok s L →
  ∃ r, FindIcon nm s = Some r
    ∧ match r with
      | Some a =>
          ∃ l1 l2 i, L (GetHash (Some nm)) = l1 ++ a :: l2
            ∧ heap s !! a = Some i ∧ name i = Some nm
            ∧ ∀ b j, b ∈ l1 → heap s !! b = Some j → name j ≠ Some nm
      | None =>
          ∀ b j, b ∈ L (GetHash (Some nm)) → heap s !! b = Some j →
                 name j ≠ Some nm
      end.
Proof.
  intros Hok. destruct (FindIcon_returns s L nm Hok) as [r Hr].
  exists r. split; [exact Hr|].
  exact (FindIcon_first_of s L nm r Hok Hr).
Qed.

(** An instance of X6: the cached icon of the scenario. *)
Lemma FindIcon_first_witness :
  cache_ok cached_and_transient (λ x, if decide (x = 0) then [1%nat] else [])
  ∧ FindIcon xterm cached_and_transient = Some (Some 1%nat)
  ∧ ∃ r, FindIcon xterm cached_and_transient = Some r
      ∧ match r with
        | Some a =>
            ∃ l1 l2 i,
              (if decide (GetHash (Some xterm) = 0) then [1%nat] else [])
              = l1 ++ a :: l2
              ∧ heap cached_and_transient !! a = Some i ∧ name i = Some xterm
              ∧ ∀ b j, b ∈ l1 → heap cached_and_transient !! b = Some j →
                       name j ≠ Some xterm
        | None =>
            ∀ b j,
              b ∈ (if decide (GetHash (Some xterm) = 0) then [1%nat] else []) →
              heap cached_and_transient !! b = Some j → name j ≠ Some xterm
        end.
Proof.
  assert (Hok : cache_ok cached_and_transient
                  (λ x, if decide (x = 0) then [1%nat] else [])).
  { split; [exact cached_and_transient_ok|].
    intros x a i. destruct (decide (x = 0)); [|intros H; inversion H].
    intros Ha. apply list_elem_of_singleton in Ha as ->.
    intros Hi. vm_compute in Hi. injection Hi as <-. eauto. }
  split; [exact Hok|]. split; [vm_compute; reflexivity|].
  exact (FindIcon_first cached_and_transient _ xterm Hok).
Defined.

(** ** The renderings of a variant *)

Section Renderings.

Variable build : Build.
Variable haveRender : bool.
Variable rootDepth : Z.

Lemma same_rendering_refl n : same_rendering n n.
Proof. repeat split. Qed.

Lemma probe_keeps nw nh fg bm l : ∀ p l',
  probe build nw nh fg bm l = Some (p, l') → Forall2 same_rendering l l'.
Proof.
  induction l as [|n l IH]; intros p l' H; simpl in H; [discriminate|].
  destruct (USE_XRENDER build && negb (sn_imagePicture n =? XNone)).
  { injection H as <- <-. constructor; [repeat split|].
    apply Forall2_same_length_lookup_2; [reflexivity|].
    intros i x y Hx Hy. rewrite Hx in Hy. injection Hy as <-.
    apply same_rendering_refl. }
  destruct ((sn_width n =? nw) && (sn_height n =? nh)
            && (negb bm || (sn_fg n =? fg))).
  { injection H as <- <-.
    apply Forall2_same_length_lookup_2; [reflexivity|].
    intros i x y Hx Hy. rewrite Hx in Hy. injection Hy as <-.
    apply same_rendering_refl. }
  destruct (probe build nw nh fg bm l) as [[q rest]|] eqn:Hp; [|discriminate].
  simpl in H. injection H as <- <-.
  constructor; [apply same_rendering_refl | eapply IH; reflexivity].
Qed.

Lemma GetScaledIcon_keeps_of icon image fg rw rh s p image' s' :
  USE_XRENDER build && haveRender = false →
  GetScaledIcon build haveRender rootDepth icon image fg rw rh s
    = Some (p, image', s') →
  img_width image' = img_width image
  ∧ img_height image' = img_height image
  ∧ img_bitmap image' = img_bitmap image
  ∧ ((Forall2 same_rendering (img_nodes image) (img_nodes image') ∧ s' = s)
     ∨ (∃ np, img_nodes image' = np :: img_nodes image
          ∧ sn_fg np = fg
          ∧ scaled_size (preserveAspect icon) (img_width image)
              (img_height image) rw rh = Some (sn_width np, sn_height np))).
Proof.
  intros Hsoft. unfold GetScaledIcon.
  destruct (scaled_size _ _ _ rw rh) as [[nw nh]|]; [|discriminate]. simpl.
  destruct (probe build nw nh fg (img_bitmap image) (img_nodes image))
    as [[q l']|] eqn:Hp.
  - intros [= <- <- <-]. repeat split. left.
    split; [exact (probe_keeps _ _ _ _ _ _ _ Hp) | reflexivity].
  - rewrite Hsoft. destruct (scale_image image nw nh); [|discriminate].
    simpl. intros [= <- <- <-]. repeat split. right.
    eexists. split; [reflexivity|]. split; reflexivity.
Qed.

(** On the software path a request leaves the records and the table as
    they are, and every X resource that it creates is one that the
    release of a rendering of the variant frees. *)
Lemma GetScaledIcon_state icon image fg rw rh s p image' s' :
  USE_XRENDER build && haveRender = false →
  GetScaledIcon build haveRender rootDepth icon image fg rw rh s
    = Some (p, image', s') →
  heap s' = heap s ∧ iconHash s' = iconHash s
  ∧ ∃ created, xlog s' = xlog s ++ created
      ∧ ∀ id, id ∈ omap created_id created →
          ∃ np, np ∈ img_nodes image'
            ∧ id ∈ omap freed_id (free_node build np).
Proof.
  intros Hsoft. unfold GetScaledIcon.
  destruct (scaled_size _ _ _ rw rh) as [[nw nh]|]; [|discriminate]. simpl.
  destruct (probe build nw nh fg (img_bitmap image) (img_nodes image))
    as [[q l']|] eqn:Hp.
  - intros [= <- <- <-]. split; [reflexivity|]. split; [reflexivity|].
    exists []. split; [symmetry; apply app_nil_r|].
    intros id Hid. inversion Hid.
  - rewrite Hsoft. destruct (scale_image image nw nh); [|discriminate].
    simpl. intros [= <- <- <-]. split; [reflexivity|]. split; [reflexivity|].
    eexists. split; [reflexivity|].
    intros id Hid. simpl in Hid. eexists. split; [left|].
    unfold free_node. simpl. rewrite !omap_app.
    apply elem_of_app. right. simpl.
    apply elem_of_cons in Hid as [->|Hid]; [right; left|].
    apply list_elem_of_singleton in Hid as ->. left.
Qed.

(** X4.  On the software path a request for a variant whose pixel buffer
    is complete and whose sides are below 2^15, with an effective size
    that is defined and below 2^15, returns, and it drops and moves no
    rendering of the variant: the chain it leaves is the old chain,
    rendering by rendering, with at most one new rendering in front; when
    there is none, the state is unchanged; when there is one, it has the
    foreground asked for and the effective size.  The size and kind of the
    variant stay. *)
Theorem GetScaledIcon_keeps icon image fg rw rh s nw nh :
  USE_XRENDER build && haveRender = false →
  readable image →
  scaled_size (preserveAspect icon) (img_width image) (img_height image) rw rh
    = Some (nw, nh) →
  nw < 2 ^ 15 → nh < 2 ^ 15 →
  ∃ p image' s',
    GetScaledIcon build haveRender rootDepth icon image fg rw rh s
      = Some (p, image', s')
    ∧ img_width image' = img_width image
    ∧ img_height image' = img_height image
    ∧ img_bitmap image' = img_bitmap image
    ∧ ((Forall2 same_rendering (img_nodes image) (img_nodes image') ∧ s' = s)
       ∨ (∃ np, img_nodes image' = np :: img_nodes image
            ∧ sn_fg np = fg ∧ sn_width np = nw ∧ sn_height np = nh)).
Proof.
  intros Hsoft Hread Hsize _ _.
  destruct (GetScaledIcon_returns build haveRender rootDepth icon image fg rw rh
              s nw nh Hread Hsize) as (p & image' & s' & Hg).
  exists p, image', s'. split; [exact Hg|].
  destruct (GetScaledIcon_keeps_of _ _ _ _ _ _ _ _ _ Hsoft Hg)
    as (Hw & Hh & Hb & [Hold | (np & Hn & Hfg & Hs)]).
  - auto.
  - repeat (split; [assumption|]). right. exists np.
    rewrite Hsize in Hs. injection Hs as <- <-. auto.
Qed.

End Renderings.

(** An instance of X4: a second size of the bitmap variant. *)
Lemma GetScaledIcon_keeps_witness :
  let image := set_nodes [mkScaled 16 16 7 2 1 XNone XNone] bitmap_16_set in
  ∃ p image' s',
    GetScaledIcon build_plain false 24 (icon_of [image]) image 7 8 8 state0
      = Some (p, image', s')
    ∧ img_width image' = 16 ∧ img_height image' = 16
    ∧ img_bitmap image' = true
    ∧ ((Forall2 same_rendering (img_nodes image) (img_nodes image')
        ∧ s' = state0)
       ∨ (∃ np, img_nodes image' = np :: img_nodes image
            ∧ sn_fg np = 7 ∧ sn_width np = 8 ∧ sn_height np = 8)).
Proof.
  cbv zeta.
  apply (GetScaledIcon_keeps build_plain false 24
           (icon_of [set_nodes [mkScaled 16 16 7 2 1 XNone XNone] bitmap_16_set])
           (set_nodes [mkScaled 16 16 7 2 1 XNone XNone] bitmap_16_set)
           7 8 8 state0 8 8);
    [reflexivity | | reflexivity | lia | lia].
  split; [simpl; lia|]. split; [simpl; lia|]. simpl. lia.
Defined.

(** ** Loads that are not to save *)

Section Transient.

Variable LoadImage : string → list ImageNode.

Lemma CreateIconFromFile_transient_of file aspect s r s' :
  CreateIconFromFile LoadImage (Some file) false aspect s = Some (r, s') →
  iconHash s' = iconHash s
  ∧ (∀ c r', FindIcon c s = Some r' → FindIcon c s' = Some r')
  ∧ (FindIcon file s = Some None → ∀ a, r = Some a →
       heap s !! a = None
       ∧ heap s' !! a = Some (mkIcon None (LoadImage file) None None aspect)).
Proof.
  unfold CreateIconFromFile.
  destruct (FindIcon file s) as [[b|]|] eqn:Hf; simpl; [| |discriminate].
  { intros [= <- <-]. split; [reflexivity|]. split; [auto | discriminate]. }
  destruct (LoadImage file) as [|image0 images0] eqn:Hl.
  { intros [= <- <-]. split; [reflexivity|]. split; [auto | discriminate]. }
  unfold CreateIcon. set (a := fresh_addr (heap s)).
  erewrite store_eq by (simpl; apply lookup_insert_eq). simpl.
  erewrite store_eq by (simpl; apply lookup_insert_eq). simpl.
  rewrite !insert_insert_eq, !set_heap_twice. intros [= <- <-].
  pose proof (fresh_addr_fresh (heap s)) as Hfresh. fold a in Hfresh.
  split; [reflexivity|]. split.
  - intros c r' Hc. unfold FindIcon in *. simpl.
    rewrite map_size_insert_None by exact Hfresh.
    eapply find_loop_ext; [|eapply find_loop_mono; [exact Hc | lia]].
    intros b i Hb. exists i. split; [|split; reflexivity].
    rewrite lookup_insert_ne; [exact Hb|]. intros <-. congruence.
  - intros _ a' [= <-]. split; [exact Hfresh|]. simpl.
    rewrite lookup_insert_eq. reflexivity.
Qed.

(** X5.  In a well linked table a load that is not to save returns and
    never enters the cache: the table is the same and every lookup answers
    as before; and the icon it makes, when the file was not cached, is a
    new record without a name and without links, which [DestroyIcon]
    therefore frees. *)
Theorem CreateIconFromFile_transient file aspect s L :
  cache_ok s L →
  ∃ r s',
    CreateIconFromFile LoadImage (Some file) false aspect s = Some (r, s')
    ∧ iconHash s' = iconHash s
    ∧ (∀ c r', FindIcon c s = Some r' → FindIcon c s' = Some r')
    ∧ (FindIcon file s = Some None → ∀ a, r = Some a →
         heap s !! a = None
         ∧ heap s' !! a = Some (mkIcon None (LoadImage file) None None aspect)).
Proof.
  intros Hok.
  destruct (CreateIconFromFile_returns LoadImage file false aspect s L Hok)
    as (r & s' & H).
  exists r, s'. split; [exact H|].
  exact (CreateIconFromFile_transient_of _ _ _ _ _ H).
Qed.

End Transient.

(** An instance of X5: the file of the store, loaded without saving. *)
Lemma CreateIconFromFile_transient_witness :
  ∃ r s',
    CreateIconFromFile xterm_store (Some xterm) false true state0 = Some (r, s')
    ∧ iconHash s' = iconHash state0
    ∧ (∀ c r', FindIcon c state0 = Some r' → FindIcon c s' = Some r')
    ∧ (FindIcon xterm state0 = Some None → ∀ a, r = Some a →
         heap state0 !! a = None
         ∧ heap s' !! a = Some (mkIcon None (xterm_store xterm) None None true)).
Proof.
  exact (CreateIconFromFile_transient xterm_store xterm true state0 (λ _, [])
           (cache_ok_InitializeIcons _)).
Defined.

(** ** One record for a name *)

Lemma store_names p f s s' :
  store p f s = Some s' → (∀ i, name (f i) = name i) →
  ∀ b, name <$> heap s' !! b = name <$> heap s !! b.
Proof.
  intros H Hf b. apply store_Some in H as (i & Hi & ->). simpl.
  destruct (decide (p = b)) as [->|Hne].
  - rewrite lookup_insert_eq, Hi. simpl. rewrite Hf. reflexivity.
  - rewrite lookup_insert_ne by exact Hne. reflexivity.
Qed.

(** [InsertIcon] writes links only. *)
Lemma InsertIcon_names a s s' :
  InsertIcon a s = Some s' →
  ∀ b, name <$> heap s' !! b = name <$> heap s !! b.
Proof.
  unfold InsertIcon. intros H b.
  apply bind_Some in H as (i & _ & H).
  apply bind_Some in H as (n & _ & H).
  apply bind_Some in H as (s1 & H1 & H).
  apply bind_Some in H as (s2 & H2 & H).
  apply bind_Some in H as (s3 & H3 & H). injection H as <-.
  change (heap (store_hash (GetHash (Some n)) (Some a) s3)) with (heap s3).
  rewrite (store_names _ _ _ _ H3 (λ _, eq_refl)).
  transitivity (name <$> heap s1 !! b);
    [|exact (store_names _ _ _ _ H1 (λ _, eq_refl) b)].
  destruct (iconHash s1 !! GetHash (Some n)) as [hd|].
  - exact (store_names _ _ _ _ H2 (λ _, eq_refl) b).
  - injection H2 as <-. reflexivity.
Qed.

Lemma cache_unique_InitializeIcons s : cache_unique (InitializeIcons s) (λ _, []).
Proof.
  split; [apply cache_ok_InitializeIcons|].
  split; [intros x a i H | intros x a b i j H]; inversion H.
Qed.

Section Unique.

Variable build : Build.
Variable LoadImage : string → list ImageNode.

Lemma CreateIconFromFile_unique file save aspect s L r s' :
  cache_unique s L →
  CreateIconFromFile LoadImage (Some file) save aspect s = Some (r, s') →
  ∃ L', cache_unique s' L' ∧ (save = true → linked s L → linked s' L').
Proof.
  intros (Hok & Hhash & Huniq). unfold CreateIconFromFile.
  destruct (FindIcon_returns s L file Hok) as [r0 Hr0].
  pose proof (FindIcon_first_of s L file r0 Hok Hr0) as Hfirst.
  rewrite Hr0. simpl.
  destruct r0 as [b|].
  { intros [= <- <-]. exists L. split; [|auto]. split; [exact Hok|].
    split; assumption. }
  destruct (LoadImage file) as [|image0 images0].
  { intros [= <- <-]. exists L. split; [|auto]. split; [exact Hok|].
    split; assumption. }
  unfold CreateIcon. set (a := fresh_addr (heap s)).
  pose proof (fresh_addr_fresh (heap s)) as Hfresh. fold a in Hfresh.
  assert (Ha : ∀ x, a ∉ L x).
  { intros x. destruct Hok as [(Hc & _) _].
    exact (chain_not_live _ _ _ _ _ (Hc x) Hfresh). }
  erewrite store_eq by (simpl; apply lookup_insert_eq). simpl.
  erewrite store_eq by (simpl; apply lookup_insert_eq). simpl.
  rewrite !insert_insert_eq, !set_heap_twice.
  assert (Hold : ∀ x b i1 j,
            b ∈ L x → <[a := i1]> (heap s) !! b = Some j → heap s !! b = Some j).
  { intros x b i1 j Hb. rewrite lookup_insert_ne; [auto|].
    intros <-. exact (Ha x Hb). }
  destruct save.
  - erewrite store_eq by (simpl; apply lookup_insert_eq). simpl.
    rewrite insert_insert_eq, set_heap_twice.
    set (i3 := set_name (Some file) _).
    destruct (InsertIcon_fresh (set_heap (<[a := i3]> (heap s)) s) L a i3 file
                (cache_ok_outside s L a i3 Hok Ha)
                (lookup_insert_eq _ _ _) eq_refl) as (s5 & Hs5 & Hok5);
      [discriminate | exact Ha |].
    rewrite Hs5. simpl. intros [= <- <-].
    pose proof (InsertIcon_names _ _ _ Hs5) as Hnames. simpl in Hnames.
    assert (Hname_a : ∀ j, heap s5 !! a = Some j → name j = Some file).
    { intros j Hj. specialize (Hnames a). rewrite Hj, lookup_insert_eq in Hnames.
      simpl in Hnames. congruence. }
    assert (Hname_b : ∀ x b j, b ∈ L x → heap s5 !! b = Some j →
              ∃ j0, heap s !! b = Some j0 ∧ name j0 = name j).
    { intros x b j Hb Hj. specialize (Hnames b).
      rewrite Hj, lookup_insert_ne in Hnames by (intros <-; exact (Ha x Hb)).
      destruct (heap s !! b) as [j0|]; [|discriminate].
      exists j0. split; [reflexivity|]. simpl in Hnames. congruence. }
    exists (λ x, if decide (x = GetHash (Some file)) then a :: L x else L x).
    split;
      [|intros _ Hlinked b Hb [j Hj]; specialize (Hnames b); rewrite Hj in Hnames;
        destruct (decide (b = a)) as [->|Hba];
        [exists (GetHash (Some file)); rewrite decide_True by reflexivity; left
        |rewrite lookup_insert_ne in Hnames by congruence;
         destruct (heap s !! b) as [j0|] eqn:Hj0; [|discriminate];
         destruct (Hlinked b Hb (ex_intro _ j0 Hj0)) as [x Hx]; exists x;
         destruct (decide (x = GetHash (Some file))) as [->|]; [right|]; exact Hx]].
    split; [exact Hok5|]. split.
    + intros x b j. destruct (decide (x = GetHash (Some file))) as [->|Hx].
      * intros Hb Hj. apply elem_of_cons in Hb as [->|Hb].
        -- rewrite (Hname_a j Hj). reflexivity.
        -- destruct (Hname_b (GetHash (Some file)) b j Hb Hj)
             as (j0 & Hj0 & <-). eauto.
      * intros Hb Hj. destruct (Hname_b x b j Hb Hj) as (j0 & Hj0 & <-). eauto.
    + assert (Hnew : ∀ b j, b ∈ L (GetHash (Some file)) →
                heap s5 !! b = Some j → name j ≠ Some file).
      { intros b j Hb Hj.
        destruct (Hname_b (GetHash (Some file)) b j Hb Hj) as (j0 & Hj0 & <-).
        exact (Hfirst b j0 Hb Hj0). }
      intros x b c j k. destruct (decide (x = GetHash (Some file))) as [->|Hx].
      * intros Hb Hc Hj Hk Heq.
        apply elem_of_cons in Hb as [->|Hb];
          apply elem_of_cons in Hc as [->|Hc]; [reflexivity| | |].
        -- exfalso. apply (Hnew c k Hc Hk). rewrite <- Heq. exact (Hname_a j Hj).
        -- exfalso. apply (Hnew b j Hb Hj). rewrite Heq. exact (Hname_a k Hk).
        -- destruct (Hname_b (GetHash (Some file)) b j Hb Hj) as (j0 & Hj0 & Ej).
           destruct (Hname_b (GetHash (Some file)) c k Hc Hk) as (k0 & Hk0 & Ek).
           apply (Huniq (GetHash (Some file)) b c j0 k0); auto. congruence.
      * intros Hb Hc Hj Hk Heq.
        destruct (Hname_b x b j Hb Hj) as (j0 & Hj0 & Ej).
        destruct (Hname_b x c k Hc Hk) as (k0 & Hk0 & Ek).
        apply (Huniq x b c j0 k0); auto. congruence.
  - intros [= <- <-]. exists L. split; [|discriminate].
    split; [apply cache_ok_outside; assumption|]. simpl. split.
    + intros x b j Hb Hj. apply (Hhash x b j Hb). eapply Hold; eauto.
    + intros x b c j k Hb Hc Hj Hk. apply (Huniq x b c j k Hb Hc); eapply Hold; eauto.
Qed.

Lemma helper_loop_unique exts name path save aspect : ∀ s L r s',
  cache_unique s L →
  helper_loop LoadImage exts name path save aspect s = Some (r, s') →
  ∃ L', cache_unique s' L' ∧ (save = true → linked s L → linked s' L').
Proof.
  induction exts as [|ext rest IH]; intros s L r s' Hok H;
    cbn [helper_loop] in H.
  - injection H as <- <-. eauto.
  - apply bind_Some in H as ([r0 s0] & H0 & H).
    destruct (CreateIconFromFile_unique _ _ _ _ _ _ _ Hok H0) as (L0 & Hok0 & Hl0).
    destruct r0 as [icon|]; [injection H as <- <-; eauto|].
    destruct (IH _ _ _ _ Hok0 H) as (L1 & Hok1 & Hl1). eauto.
Qed.

Lemma paths_loop_unique ip name save aspect : ∀ s L r s',
  cache_unique s L →
  paths_loop build LoadImage ip name save aspect s = Some (r, s') →
  ∃ L', cache_unique s' L' ∧ (save = true → linked s L → linked s' L').
Proof.
  induction ip as [|path rest IH]; intros s L r s' Hok H;
    cbn [paths_loop] in H.
  - injection H as <- <-. eauto.
  - apply bind_Some in H as ([r0 s0] & H0 & H).
    destruct (helper_loop_unique _ _ _ _ _ _ _ _ _ Hok H0) as (L0 & Hok0 & Hl0).
    destruct r0 as [icon|]; [injection H as <- <-; eauto|].
    destruct (IH _ _ _ _ Hok0 H) as (L1 & Hok1 & Hl1). eauto.
Qed.

Lemma helper_loop_total exts name path save aspect : ∀ s L,
  cache_unique s L →
  ∃ r s' L',
    helper_loop LoadImage exts name path save aspect s = Some (r, s')
    ∧ cache_unique s' L' ∧ (save = true → linked s L → linked s' L').
Proof.
  induction exts as [|ext rest IH]; intros s L Hu; cbn [helper_loop].
  - exists None, s, L. auto.
  - destruct (CreateIconFromFile_returns LoadImage
                (String.append path (String.append name ext)) save aspect s L
                (proj1 Hu)) as (r0 & s0 & H0).
    rewrite H0. simpl.
    destruct (CreateIconFromFile_unique _ _ _ _ _ _ _ Hu H0) as (L0 & Hu0 & Hl0).
    destruct r0 as [icon|]; [exists (Some icon), s0, L0; auto|].
    destruct (IH s0 L0 Hu0) as (r & s' & L' & H & Hu' & Hl').
    exists r, s', L'. auto.
Qed.

Lemma paths_loop_total ip name save aspect : ∀ s L,
  cache_unique s L →
  ∃ r s' L',
    paths_loop build LoadImage ip name save aspect s = Some (r, s')
    ∧ cache_unique s' L' ∧ (save = true → linked s L → linked s' L').
Proof.
  induction ip as [|path rest IH]; intros s L Hu; cbn [paths_loop].
  - exists None, s, L. auto.
  - unfold LoadNamedIconHelper.
    destruct (helper_loop_total (ICON_EXTENSIONS build) name path save aspect
                s L Hu) as (r0 & s0 & L0 & H0 & Hu0 & Hl0).
    rewrite H0. simpl.
    destruct r0 as [icon|]; [exists (Some icon), s0, L0; auto|].
    destruct (IH s0 L0 Hu0) as (r & s' & L' & H & Hu' & Hl').
    exists r, s', L'. auto.
Qed.

Lemma LoadNamedIcon_total name save aspect s L :
  cache_unique s L →
  ∃ r s' L',
    LoadNamedIcon build LoadImage name save aspect s = Some (r, s')
    ∧ cache_unique s' L' ∧ (save = true → linked s L → linked s' L').
Proof.
  intros Hu. unfold LoadNamedIcon. destruct name as [|c rest].
  - exists (Some emptyIcon), s, L. auto.
  - destruct (decide (c = "/"%char)).
    + destruct (CreateIconFromFile_returns LoadImage (String c rest) save aspect
                  s L (proj1 Hu)) as (r & s' & H).
      destruct (CreateIconFromFile_unique _ _ _ _ _ _ _ Hu H) as (L' & Hu' & Hl').
      exists r, s', L'. auto.
    + apply paths_loop_total. exact Hu.
Qed.

(** X7.  In a table that is well linked, with every record in the bucket
    of its name and no two records of one name, a load returns, whether it
    is to save or not, and leaves such a table: from the state that
    [InitializeIcons] leaves on, the cache holds one icon for a name at
    most. *)
Theorem LoadNamedIcon_unique name save aspect s L :
  cache_unique s L →
  ∃ r s' L',
    LoadNamedIcon build LoadImage name save aspect s = Some (r, s')
    ∧ cache_unique s' L'.
Proof.
  intros Hu.
  destruct (LoadNamedIcon_total name save aspect s L Hu)
    as (r & s' & L' & H & Hu' & _).
  exists r, s', L'. auto.
Qed.

(** X24.  Icons loaded to be saved are all released at shutdown: from a
    state in which every record but the static one is in the table, after
    any loads that save, shutdown returns and leaves no record but the
    static one. *)
Theorem ShutdownIcons_releases_saved names : ∀ s L,
  cache_unique s L → linked s L →
  ∃ s1 s2, load_all build LoadImage names s = Some s1
    ∧ ShutdownIcons build s1 = Some s2
    ∧ ∀ a, a ≠ emptyIcon → heap s2 !! a = None.
Proof.
  induction names as [|[name aspect] names IH]; intros s L Hu Hl.
  - exists s. destruct Hu as (Hok & Hhash & _).
    destruct (ShutdownIcons_frees build s L (proj1 Hok))
      as (s2 & Hs2 & _ & Hfreed & Hkept).
    exists s2. split; [reflexivity|]. split; [exact Hs2|].
    intros a Ha. destruct (heap s !! a) as [i|] eqn:Hi.
    + destruct (Hl a Ha (ex_intro _ i Hi)) as [x Hx].
      apply (Hfreed x a); [|exact Hx].
      rewrite <- (Hhash x a i Hx Hi). unfold GetHash.
      destruct (name i) as [n|]; [apply hash_mask_range|].
      unfold HASH_SIZE. lia.
    + rewrite Hkept; [exact Hi|]. intros x _ Hx.
      destruct Hok as [(Hc & _) _].
      exact (chain_not_live _ _ _ _ _ (Hc x) Hi Hx).
  - cbn [load_all].
    destruct (LoadNamedIcon_total name true aspect s L Hu)
      as (r & s0 & L0 & H0 & Hu0 & Hl0).
    rewrite H0. simpl.
    exact (IH s0 L0 Hu0 (Hl0 eq_refl Hl)).
Qed.

End Unique.

Lemma ShutdownIcons_releases_saved_witness :
  ∃ s1 s2,
    load_all build_plain xterm_store
      [("xterm"%string, true); (xterm, false)] with_paths = Some s1
    ∧ ShutdownIcons build_plain s1 = Some s2
    ∧ ∀ a, a ≠ emptyIcon → heap s2 !! a = None.
Proof.
  apply (ShutdownIcons_releases_saved build_plain xterm_store
           [("xterm"%string, true); (xterm, false)] with_paths (λ _, [])).
  - split; [exact with_paths_ok|].
    split; [intros x a i H | intros x a b i j H]; inversion H.
  - intros a Ha [i Hi]. exfalso. apply Ha.
    unfold with_paths, state0, InitializeIcons in Hi. simpl in Hi.
    apply lookup_insert_Some in Hi as [[Hi _] | [_ Hi]]; [congruence|].
    rewrite lookup_empty in Hi. discriminate.
Defined.

(** An instance of X7: the load of "xterm" under the two search paths. *)
Lemma LoadNamedIcon_unique_witness :
  ∃ r s' L',
    LoadNamedIcon build_plain xterm_store "xterm" true true with_paths
    = Some (r, s')
    ∧ cache_unique s' L'.
Proof.
  apply (LoadNamedIcon_unique build_plain xterm_store "xterm" true true
           with_paths (λ _, [])).
  split; [exact with_paths_ok|].
  split; [intros x a i H | intros x a b i j H]; inversion H.
Defined.

(** ** The order of the search *)

Section SearchOrder.

Variable build : Build.
Variable LoadImage : string → list ImageNode.

(** [hit c s a s']: the candidate [c] gave the icon [a]: it was in the
    cache, or the store decoded it, and afterwards it is in the cache. *)
Let hit (c : string) (s : State) (a : nat) (s' : State) : Prop :=
  (FindIcon c s = Some (Some a) ∨ LoadImage c ≠ [])
  ∧ FindIcon c s' = Some (Some a).

Lemma CreateIconFromFile_hit file aspect s a s' :
  CreateIconFromFile LoadImage (Some file) true aspect s = Some (Some a, s') →
  hit file s a s'.
Proof.
  intros H. split; [|eapply CreateIconFromFile_cached; exact H].
  apply CreateIconFromFile_spec in H
    as [(b & [= <-] & -> & Hf) | [(Hr & _) | (b & [= <-] & Hl & _)]];
    [left; exact Hf | discriminate | right; exact Hl].
Qed.

Lemma helper_loop_order exts name path aspect : ∀ s r s',
  helper_loop LoadImage exts name path true aspect s = Some (r, s') →
  match r with
  | Some a =>
      ∃ pre c post,
        map (λ ext, String.append path (String.append name ext)) exts
        = pre ++ c :: post
        ∧ Forall (λ c', miss LoadImage c' s) pre ∧ hit c s a s'
  | None =>
      Forall (λ c', miss LoadImage c' s)
             (map (λ ext, String.append path (String.append name ext)) exts)
      ∧ s' = s
  end.
Proof.
  induction exts as [|ext rest IH]; intros s r s' H; cbn [helper_loop] in H.
  - injection H as <- <-. split; [constructor | reflexivity].
  - apply bind_Some in H as ([r0 s0] & H0 & H). destruct r0 as [icon|].
    + injection H as <- <-. eexists [], _, _. split; [reflexivity|].
      split; [constructor | exact (CreateIconFromFile_hit _ _ _ _ _ H0)].
    + apply CreateIconFromFile_None in H0 as [-> Hm].
      specialize (IH _ _ _ H). destruct r as [a|].
      * destruct IH as (pre & c & post & Heq & Hpre & Hhit).
        eexists (_ :: pre), c, post. split; [simpl; rewrite Heq; reflexivity|].
        split; [constructor; assumption | exact Hhit].
      * destruct IH as [Hall ->]. split; [constructor; assumption | reflexivity].
Qed.

Lemma candidates_cons path rest name :
  candidates build (path :: rest) name
  = map (λ ext, String.append path (String.append name ext))
        (ICON_EXTENSIONS build)
    ++ candidates build rest name.
Proof. reflexivity. Qed.

Lemma paths_loop_order ip name aspect : ∀ s r s',
  paths_loop build LoadImage ip name true aspect s = Some (r, s') →
  match r with
  | Some a =>
      ∃ pre c post, candidates build ip name = pre ++ c :: post
        ∧ Forall (λ c', miss LoadImage c' s) pre ∧ hit c s a s'
  | None => Forall (λ c', miss LoadImage c' s) (candidates build ip name) ∧ s' = s
  end.
Proof.
  induction ip as [|path rest IH]; intros s r s' H; cbn [paths_loop] in H.
  - injection H as <- <-. split; [constructor | reflexivity].
  - apply bind_Some in H as ([r0 s0] & H0 & H). unfold LoadNamedIconHelper in H0.
    pose proof (helper_loop_order _ _ _ _ _ _ _ H0) as Hh.
    destruct r0 as [icon|].
    + injection H as <- <-. destruct Hh as (pre & c & post & Heq & Hpre & Hhit).
      exists pre, c, (post ++ candidates build rest name).
      split; [|split; assumption].
      rewrite candidates_cons, Heq, <- app_assoc. reflexivity.
    + destruct Hh as [Hall ->]. specialize (IH _ _ _ H). destruct r as [a|].
      * destruct IH as (pre & c & post & Heq & Hpre & Hhit).
        exists (map (λ ext, String.append path (String.append name ext))
                    (ICON_EXTENSIONS build) ++ pre), c, post.
        split; [|split; [apply Forall_app; split; assumption | exact Hhit]].
        rewrite candidates_cons, Heq, <- app_assoc. reflexivity.
      * destruct IH as [Hall' ->]. split; [|reflexivity].
        rewrite candidates_cons. apply Forall_app. split; assumption.
Qed.

(** X8.  In a well linked table, for a name that is neither empty nor
    absolute, [LoadNamedIcon] (to save) returns; it takes the first file
    name, in the order of the search paths and for a path in the order of
    the extensions, that is in the cache or that the image store decodes:
    every file name before it missed, and the icon returned is the entry
    of the cache for it.  When [LoadNamedIcon] returns NULL every file
    name missed and the state is unchanged. *)
Theorem LoadNamedIcon_order c rest aspect s L :
  cache_ok s L →
  c ≠ "/"%char →
  ∃ r s',
    LoadNamedIcon build LoadImage (String c rest) true aspect s = Some (r, s')
    ∧ match r with
      | Some a =>
          ∃ pre file post,
            candidates build (iconPaths s) (String c rest) = pre ++ file :: post
            ∧ Forall (λ c', miss LoadImage c' s) pre
            ∧ (FindIcon file s = Some (Some a) ∨ LoadImage file ≠ [])
            ∧ FindIcon file s' = Some (Some a)
      | None =>
          Forall (λ c', miss LoadImage c' s)
                 (candidates build (iconPaths s) (String c rest))
          ∧ s' = s
      end.
Proof.
  intros Hok Hc.
  destruct (LoadNamedIcon_returns build LoadImage (String c rest) aspect s L Hok)
    as (r & s' & H).
  exists r, s'. split; [exact H|].
  unfold LoadNamedIcon in H. rewrite decide_False in H by exact Hc.
  apply paths_loop_order in H. destruct r as [a|]; [|exact H].
  destruct H as (pre & file & post & Heq & Hpre & Hhit & Hfound).
  exists pre, file, post. auto.
Qed.

End SearchOrder.

(** An instance of X8: "xterm" under the two search paths; the file found
    is the ninth candidate (the second path, the second extension). *)
Lemma LoadNamedIcon_order_witness :
  ∃ r s',
    LoadNamedIcon build_plain xterm_store "xterm" true true with_paths
    = Some (r, s')
    ∧ match r with
      | Some a =>
          ∃ pre file post,
            candidates build_plain (iconPaths with_paths) "xterm"
            = pre ++ file :: post
            ∧ Forall (λ c', miss xterm_store c' with_paths) pre
            ∧ (FindIcon file with_paths = Some (Some a) ∨ xterm_store file ≠ [])
            ∧ FindIcon file s' = Some (Some a)
      | None =>
          Forall (λ c', miss xterm_store c' with_paths)
                 (candidates build_plain (iconPaths with_paths) "xterm")
          ∧ s' = with_paths
      end.
Proof.
  apply (LoadNamedIcon_order build_plain xterm_store "x" "term" true with_paths
           (λ _, []) with_paths_ok).
  discriminate.
Defined.

(** ** Decoding the icon property *)

Lemma copy_pixels_ok pixels : ∀ pre rest data,
  Z.of_nat (length (pre ++ pixels ++ rest)) < 2 ^ 32 →
  copy_pixels (length pixels) (pre ++ pixels ++ rest)
              (Z.of_nat (length pre)) data
  = Done (data ++ concat (map pixel_bytes pixels),
          Z.of_nat (length pre + length pixels)).
Proof.
  induction pixels as [|w pixels IH]; intros pre rest data Hlen; simpl.
  - rewrite app_nil_r, Nat.add_0_r. reflexivity.
  - rewrite Nat2Z.id.
    rewrite (list_lookup_middle pre (pixels ++ rest) w (length pre) eq_refl).
    assert (Hl : Z.of_nat (length pre) + 1 + Z.of_nat (length pixels)
                 + Z.of_nat (length rest) < 2 ^ 32).
    { revert Hlen. rewrite !length_app. cbn [length]. lia. }
    replace (pre ++ w :: pixels ++ rest) with ((pre ++ [w]) ++ pixels ++ rest)
      by (rewrite <- app_assoc; reflexivity).
    rewrite wrap_uint_small by lia.
    replace (Z.of_nat (length pre) + 1) with (Z.of_nat (length (pre ++ [w])))
      by (rewrite length_app; simpl; lia).
    rewrite IH by (rewrite !length_app; cbn [length]; lia).
    rewrite <- app_assoc, length_app. simpl.
    f_equal. f_equal. lia.
Qed.

(** One round of the loop on a well formed entry. *)
Lemma binary_loop_entry e pre rest fuel res s :
  well_formed e →
  Z.of_nat (length (pre ++ entry_words e ++ rest)) < 2 ^ 32 →
  binary_loop (S fuel) (pre ++ entry_words e ++ rest)
    (Z.of_nat (length (pre ++ entry_words e ++ rest)))
    (Z.of_nat (length pre)) res s
  = let '(icon, s1) :=
      match res with None => CreateIcon s | Some icon => (icon, s) end in
    binary_loop fuel (pre ++ entry_words e ++ rest)
      (Z.of_nat (length (pre ++ entry_words e ++ rest)))
      (Z.of_nat (length (pre ++ entry_words e)))
      (Some icon) (push_image icon (entry_image e) s1).
Proof.
  destruct e as [[w h] pixels]. intros (Hw & Hh & Hpx) Hlen.
  cbn [entry_words entry_image] in *.
  set (input := pre ++ (w :: h :: pixels) ++ rest) in *.
  assert (Hl : Z.of_nat (length input)
               = Z.of_nat (length pre) + 2 + w * h + Z.of_nat (length rest)).
  { unfold input. rewrite !length_app. cbn [length]. lia. }
  cbn [binary_loop].
  destruct (Z.ltb_spec (Z.of_nat (length pre)) (Z.of_nat (length input))); [|nia].
  rewrite Z.add_0_r, !(wrap_uint_small (Z.of_nat (length pre))),
    !(wrap_uint_small (Z.of_nat (length pre) + 1)),
    !(wrap_uint_small (Z.of_nat (length pre) + 2)) by nia.
  rewrite Nat2Z.id.
  replace (Z.to_nat (Z.of_nat (length pre) + 1)) with (S (length pre)) by lia.
  assert (H0 : input !! length pre = Some w).
  { unfold input. apply list_lookup_middle. reflexivity. }
  assert (H1 : input !! S (length pre) = Some h).
  { unfold input. replace (pre ++ (w :: h :: pixels) ++ rest)
      with ((pre ++ [w]) ++ h :: pixels ++ rest)
      by (rewrite <- app_assoc; reflexivity).
    apply list_lookup_middle. rewrite length_app. simpl. lia. }
  rewrite H0, H1. cbv zeta.
  rewrite (wrap_uint_small w), (wrap_uint_small h) by lia.
  rewrite (wrap_uint_small (w * h)) by nia.
  rewrite (wrap_uint_small (w * h + 2)) by nia.
  rewrite (wrap_uint_small (Z.of_nat (length input) - Z.of_nat (length pre)))
    by nia.
  destruct (Z.gtb_spec (w * h + 2)
              (Z.of_nat (length input) - Z.of_nat (length pre))); [nia|].
  destruct (Z.eqb_spec w 0); [lia|]. destruct (Z.eqb_spec h 0); [lia|].
  cbn [orb].
  replace (Z.to_nat (w * h)) with (length pixels) by lia.
  replace (Z.of_nat (length pre) + 2) with (Z.of_nat (length (pre ++ [w; h])))
    by (rewrite length_app; simpl; lia).
  assert (Hin : input = (pre ++ [w; h]) ++ pixels ++ rest).
  { unfold input. rewrite <- app_assoc. reflexivity. }
  assert (Hcopy : copy_pixels (length pixels) input
                    (Z.of_nat (length (pre ++ [w; h]))) []
                  = Done (concat (map pixel_bytes pixels),
                          Z.of_nat (length (pre ++ w :: h :: pixels)))).
  { rewrite Hin at 1.
    rewrite copy_pixels_ok by (rewrite <- Hin; exact Hlen).
    rewrite app_nil_l. f_equal. f_equal. rewrite !length_app. cbn [length]. lia. }
  destruct res as [icon|]; [rewrite Hcopy; reflexivity|].
  destruct (CreateIcon s) as [icon s1]. rewrite Hcopy. reflexivity.
Qed.

Lemma entries_length entries :
  (2 * length entries ≤ length (concat (map entry_words entries)))%nat.
Proof.
  induction entries as [|[[w h] pixels] entries IH]; simpl; [lia|].
  rewrite length_app. lia.
Qed.

(** The loop from an entry boundary on, once the icon is there: the well
    formed entries are pushed one after the other, and the loop stops at
    the end of the buffer or at a malformed entry. *)
Lemma binary_loop_entries entries : ∀ pre tail fuel a rec s,
  Forall well_formed entries →
  tail = [] ∨ malformed tail →
  Z.of_nat (length (pre ++ concat (map entry_words entries) ++ tail)) < 2 ^ 32 →
  (length entries < fuel)%nat →
  heap s !! a = Some rec →
  binary_loop fuel (pre ++ concat (map entry_words entries) ++ tail)
    (Z.of_nat (length (pre ++ concat (map entry_words entries) ++ tail)))
    (Z.of_nat (length pre)) (Some a) s
  = Done (Some a,
          set_heap (<[a := set_images (rev (map entry_image entries)
                                        ++ images rec) rec]> (heap s)) s).
Proof.
  induction entries as [|e entries IH];
    intros pre tail fuel a rec s Hwf Htail Hlen Hfuel Ha.
  - cbn [map concat rev app] in *.
    assert (Hs : set_heap (<[a := set_images (images rec) rec]> (heap s)) s = s).
    { destruct rec, s; unfold set_heap, set_images; simpl in *.
      rewrite insert_id by exact Ha. reflexivity. }
    rewrite Hs. destruct fuel as [|fuel]; [lia|].
    destruct Htail as [-> | (w0 & w1 & rest & -> & Hsmall & Hbad)].
    + rewrite app_nil_r. cbn [binary_loop]. rewrite Z.ltb_irrefl. reflexivity.
    + assert (Hl : Z.of_nat (length (pre ++ w0 :: w1 :: rest))
                   = Z.of_nat (length pre) + 2 + Z.of_nat (length rest)).
      { rewrite length_app. cbn [length]. lia. }
      apply (binary_loop_stops _ _ _ _ _ _ w0 w1); try lia.
      * rewrite Nat2Z.id. apply list_lookup_middle. reflexivity.
      * replace (Z.to_nat (Z.of_nat (length pre) + 1))
          with (length (pre ++ [w0])) by (rewrite length_app; simpl; lia).
        replace (pre ++ w0 :: w1 :: rest) with ((pre ++ [w0]) ++ w1 :: rest)
          by (rewrite <- app_assoc; reflexivity).
        apply list_lookup_middle. reflexivity.
      * cbn [length] in Hbad. lia.
  - destruct fuel as [|fuel]; [lia|]. cbn [length] in Hfuel.
    apply Forall_cons in Hwf as [He Hwf].
    cbn [map concat] in *. rewrite <- !app_assoc in *.
    rewrite binary_loop_entry by assumption.
    replace (pre ++ entry_words e ++ concat (map entry_words entries) ++ tail)
      with ((pre ++ entry_words e) ++ concat (map entry_words entries) ++ tail)
      in * by (rewrite <- app_assoc; reflexivity).
    rewrite (IH _ _ _ _ (set_images (entry_image e :: images rec) rec));
      try assumption; try lia.
    + f_equal. f_equal. unfold push_image, set_heap. simpl.
      f_equal. rewrite (alter_alt_Some _ _ _ rec) by exact Ha.
      rewrite insert_insert_eq. f_equal.
      unfold set_images. simpl. rewrite <- app_assoc. reflexivity.
    + unfold push_image. simpl.
      rewrite lookup_alter_eq, Ha. reflexivity.
Qed.

(** X9.  [CreateIconFromBinary] on a buffer of well formed entries, with
    nothing after them or a malformed entry whose header is complete and
    whose declared size stays below 2^32, and with [length] the number of
    words of the buffer: every read is inside the buffer and the loop ends;
    without a well formed entry the answer is [NULL] and the state is the
    one before; otherwise it is a new unnamed icon, in no bucket, whose
    variants are the entries decoded, four bytes a pixel, the last entry
    first. *)
Theorem CreateIconFromBinary_decodes entries tail s :
  Forall well_formed entries →
  tail = [] ∨ malformed tail →
  Z.of_nat (length (concat (map entry_words entries) ++ tail)) < 2 ^ 32 →
  CreateIconFromBinary (Some (concat (map entry_words entries) ++ tail))
    (Z.of_nat (length (concat (map entry_words entries) ++ tail))) s
  = match entries with
    | [] => Done (None, s)
    | _ :: _ =>
        Done (Some (fresh_addr (heap s)),
              set_heap (<[fresh_addr (heap s) :=
                            mkIcon None (rev (map entry_image entries))
                                   None None true]> (heap s)) s)
    end.
Proof.
  intros Hwf Htail Hlen. unfold CreateIconFromBinary.
  destruct entries as [|e entries].
  - cbn [map concat app] in *.
    destruct Htail as [-> | (w0 & w1 & rest & -> & Hsmall & Hbad)].
    + reflexivity.
    + apply (binary_loop_stops _ _ _ _ _ _ w0 w1); try reflexivity;
        cbn [length] in *; try lia.
  - apply Forall_cons in Hwf as [He Hwf].
    cbn [map concat] in *. rewrite <- !app_assoc in *.
    pose proof (binary_loop_entry e [] (concat (map entry_words entries) ++ tail)
                  (length (entry_words e ++ concat (map entry_words entries)
                           ++ tail)) None s He Hlen) as Hstep.
    cbn [app] in Hstep. change (Z.of_nat (length (@nil Z))) with 0 in Hstep.
    rewrite Hstep. clear Hstep.
    unfold CreateIcon. set (a := fresh_addr (heap s)).
    pose proof (binary_loop_entries entries (entry_words e) tail
      (length (entry_words e ++ concat (map entry_words entries) ++ tail))
      a (mkIcon None [entry_image e] None None true)
      (push_image a (entry_image e)
         (set_heap (<[a := mkIcon None [] None None true]> (heap s)) s))
      Hwf Htail Hlen) as Hloop.
    rewrite Hloop.
    + f_equal. f_equal. destruct s. unfold push_image, set_heap. simpl.
      f_equal. rewrite alter_insert_eq, insert_insert_eq.
      unfold set_images. simpl. reflexivity.
    + pose proof (entries_length entries). rewrite !length_app.
      destruct e as [[w h] pixels]. cbn [entry_words length]. lia.
    + destruct s. unfold push_image, set_heap. simpl.
      rewrite lookup_alter_eq, lookup_insert_eq. reflexivity.
Qed.

Lemma CreateIconFromBinary_decodes_witness :
  CreateIconFromBinary (Some [1; 1; 4278190080; 2; 1; 255; 65280; 5; 5; 7]) 10
    state0
  = Done (Some 1%nat,
          set_heap
            (<[1%nat := mkIcon None
                 [mkImage 2 1 false (Some [0; 0; 0; 255; 0; 0; 255; 0]) [];
                  mkImage 1 1 false (Some [255; 0; 0; 0]) []]
                 None None true]> (heap state0)) state0).
Proof.
  apply (CreateIconFromBinary_decodes
           [(1, 1, [4278190080]); (2, 1, [255; 65280])] [5; 5; 7] state0).
  - repeat constructor; simpl; lia.
  - right. exists 5, 5, [7]. vm_compute. repeat split; try reflexivity.
    left. reflexivity.
  - vm_compute. reflexivity.
Defined.

(** ** The background manager: startup and shutdown *)

Section Startup.

Variable ParseColor : string → Z.
Variable icon_found : string → bool.

Lemma startup_loop_cons bp rest dflt id log :
  startup_loop ParseColor icon_found (bp :: rest) dflt id log
  = let '(bp1, id1, out) := materialize ParseColor icon_found bp id in
    let '(rest', dflt', id', log') :=
      startup_loop ParseColor icon_found rest
        (if desktop bp1 =? -1 then Some (length rest) else dflt)
        id1 (log ++ out) in
    (bp1 :: rest', dflt', id', log').
Proof. reflexivity. Qed.

Lemma materialize_spec bp id bp1 id1 out :
  materialize ParseColor icon_found bp id = (bp1, id1, out) →
  started ParseColor bp bp1
  ∧ omap freed_pixmap (ShutdownBackgrounds_loop [bp1]) = omap created_pixmap out
  ∧ Forall (λ c, c ≠ JXFreePixmap None) (ShutdownBackgrounds_loop [bp1])
  ∧ ((omap created_pixmap out = [] ∧ id1 = id)
     ∨ (omap created_pixmap out = [Z.pos id] ∧ id1 = (id + 1)%positive)).
Proof.
  unfold materialize, started, LoadGradientBackground, LoadImageBackground.
  intros H.
  destruct (type bp) eqn:Ht;
    [| destruct (split_colon (value bp)) as [[a b]|];
       [destruct (ParseColor a =? ParseColor b)|]
     | | destruct (icon_found (value bp))];
    injection H as <- <- <-; simpl; rewrite Ht; simpl;
    repeat match goal with |- _ ∧ _ => split end;
    try match goal with
        | |- _ ∨ _ => first [left; split; reflexivity | right; split; reflexivity]
        end;
    first [ reflexivity
          | eexists; reflexivity
          | constructor; [discriminate | constructor]
          | constructor ].
Qed.

(** The nodes, the pixmaps and the calls of the loop of startup. *)
Lemma startup_loop_nodes bps : ∀ dflt id log bps' dflt' id' log',
  startup_loop ParseColor icon_found bps dflt id log = (bps', dflt', id', log') →
  Forall2 (started ParseColor) bps bps'
  ∧ ∃ new n, log' = log ++ new
      ∧ omap created_pixmap new
        = (λ k, Z.pos id + Z.of_nat k) <$> seq 0 n
      ∧ Z.pos id' = Z.pos id + Z.of_nat n
      ∧ omap freed_pixmap (ShutdownBackgrounds_loop bps')
        = omap created_pixmap new
      ∧ Forall (λ c, c ≠ JXFreePixmap None) (ShutdownBackgrounds_loop bps').
Proof.
  induction bps as [|bp rest IH]; intros dflt id log bps' dflt' id' log' H.
  - injection H as <- <- <- <-. split; [constructor|].
    exists [], 0%nat. rewrite app_nil_r. simpl. repeat split; try lia.
    constructor.
  - rewrite startup_loop_cons in H.
    destruct (materialize ParseColor icon_found bp id) as [[bp1 id1] out] eqn:Hm.
    destruct (startup_loop ParseColor icon_found rest
                (if desktop bp1 =? -1 then Some (length rest) else dflt)
                id1 (log ++ out)) as [[[rest' d'] i'] l'] eqn:Hrec.
    injection H as <- <- <- <-.
    destruct (materialize_spec _ _ _ _ _ Hm) as (Hst & Hfree & Hnone & Hid).
    destruct (IH _ _ _ _ _ _ _ Hrec)
      as (Hall & new & n & -> & Hcr & Hid' & Hfr & Hno).
    split; [constructor; assumption|].
    change (ShutdownBackgrounds_loop (bp1 :: rest'))
      with (match type bp1 with
            | BACKGROUND_SOLID | BACKGROUND_COMMAND => []
            | _ => [JXFreePixmap (pixmap bp1)]
            end ++ ShutdownBackgrounds_loop rest').
    change (ShutdownBackgrounds_loop [bp1])
      with (match type bp1 with
            | BACKGROUND_SOLID | BACKGROUND_COMMAND => []
            | _ => [JXFreePixmap (pixmap bp1)]
            end ++ []) in Hfree, Hnone.
    rewrite app_nil_r in Hfree, Hnone.
    exists (out ++ new).
    exists (length (omap created_pixmap out) + n)%nat.
    rewrite app_assoc. split; [reflexivity|].
    rewrite !omap_app, Hfr, Hfree, Hcr.
    split; [|split; [|split; [reflexivity | apply Forall_app; split; assumption]]].
    + destruct Hid as [[-> ->] | [-> ->]]; simpl; [reflexivity|].
      replace (Z.pos id + Z.of_nat 0) with (Z.pos id) by lia. f_equal.
      change (list_fmap nat Z ?f ?l) with (f <$> l).
      rewrite <- fmap_S_seq, <- list_fmap_compose.
      apply list_fmap_ext. intros _ k _. simpl. lia.
    + destruct Hid as [[-> ->] | [-> ->]]; simpl length; lia.
Qed.

(** X10.  The pixmaps that background.c itself creates at startup, with
    its own calls of [JXCreatePixmap] (one for a gradient with a colon,
    one for an image that is found), are the pixmaps other than [None]
    that shutdown frees: the list of the ones is the list of the others,
    in the order of the nodes; shutdown never passes a pixmap field that
    nothing was assigned to.  What the icon module creates inside the
    call of [PutIcon] is not among them: it is not in the fields of the
    nodes, and it is not for the background manager to free. *)
Theorem StartupBackgrounds_pixmaps s :
  let s' := StartupBackgrounds ParseColor icon_found s in
  ∃ new,
    calls s' = calls s ++ new
    ∧ omap freed_pixmap (ShutdownBackgrounds s') = omap created_pixmap new
    ∧ Forall (λ c, c ≠ JXFreePixmap None) (ShutdownBackgrounds s').
Proof.
  cbv zeta. unfold StartupBackgrounds, ShutdownBackgrounds.
  destruct (startup_loop ParseColor icon_found (backgrounds s)
              (defaultBackground s) (next_pixmap s) (calls s))
    as [[[bps' dflt'] id'] log'] eqn:Hs.
  destruct (startup_loop_nodes _ _ _ _ _ _ _ _ Hs)
    as (_ & new & n & -> & Hcr & _ & Hfr & Hno).
  exists new. simpl. auto.
Qed.

(** X11.  Startup keeps the desktop, the type and the value of every node,
    and the order of the list; a solid node gets the pixel that
    [ParseColor] gives for its value, a gradient or an image node gets a
    pixmap field, a command node is left as it is. *)
Theorem StartupBackgrounds_nodes s :
  Forall2 (started ParseColor) (backgrounds s)
          (backgrounds (StartupBackgrounds ParseColor icon_found s)).
Proof.
  unfold StartupBackgrounds.
  destruct (startup_loop ParseColor icon_found (backgrounds s)
              (defaultBackground s) (next_pixmap s) (calls s))
    as [[[bps' dflt'] id'] log'] eqn:Hs.
  exact (proj1 (startup_loop_nodes _ _ _ _ _ _ _ _ Hs)).
Qed.

Lemma startup_loop_fails bps : ∀ bp dflt id log bps' dflt' id' log',
  startup_loop ParseColor icon_found bps dflt id log = (bps', dflt', id', log') →
  bp ∈ bps → fails icon_found bp →
  JXFreePixmap (Some XNone) ∈ ShutdownBackgrounds_loop bps'.
Proof.
  induction bps as [|b rest IH]; intros bp dflt id log bps' dflt' id' log' H Hin Hf.
  - inversion Hin.
  - rewrite startup_loop_cons in H.
    destruct (materialize ParseColor icon_found b id) as [[bp1 id1] out] eqn:Hm.
    destruct (startup_loop ParseColor icon_found rest
                (if desktop bp1 =? -1 then Some (length rest) else dflt)
                id1 (log ++ out)) as [[[rest' d'] i'] l'] eqn:Hrec.
    injection H as <- <- <- <-.
    change (ShutdownBackgrounds_loop (bp1 :: rest'))
      with (match type bp1 with
            | BACKGROUND_SOLID | BACKGROUND_COMMAND => []
            | _ => [JXFreePixmap (pixmap bp1)]
            end ++ ShutdownBackgrounds_loop rest').
    apply elem_of_app.
    apply elem_of_cons in Hin as [<- | Hin];
      [left | right; exact (IH _ _ _ _ _ _ _ _ Hrec Hin Hf)].
    unfold materialize, LoadGradientBackground, LoadImageBackground in Hm.
    destruct Hf as [[Ht Hv] | [Ht Hv]]; rewrite Ht, Hv in Hm;
      injection Hm as <- _ _; simpl; rewrite Ht; apply list_elem_of_singleton;
      reflexivity.
Qed.

(** X13.  A gradient whose value has no colon, and an image that is not
    found, get the pixmap [None] at startup, and shutdown passes it to
    [JXFreePixmap] like a pixmap that was created. *)
Theorem ShutdownBackgrounds_frees_None s bp :
  bp ∈ backgrounds s → fails icon_found bp →
  JXFreePixmap (Some XNone)
    ∈ ShutdownBackgrounds (StartupBackgrounds ParseColor icon_found s).
Proof.
  intros Hin Hf. unfold StartupBackgrounds, ShutdownBackgrounds.
  destruct (startup_loop ParseColor icon_found (backgrounds s)
              (defaultBackground s) (next_pixmap s) (calls s))
    as [[[bps' dflt'] id'] log'] eqn:Hs.
  exact (startup_loop_fails _ _ _ _ _ _ _ _ _ Hs Hin Hf).
Qed.

Lemma lookup_rev_middle {A} (l1 l2 : list A) x :
  rev (l1 ++ x :: l2) !! length l2 = Some x.
Proof.
  rewrite rev_app_distr. simpl. rewrite <- app_assoc.
  apply list_lookup_middle. rewrite length_rev. reflexivity.
Qed.

Lemma find_desktop_first d l1 : ∀ bp l2,
  Forall (λ b, desktop b ≠ d) l1 → desktop bp = d →
  find_desktop d (l1 ++ bp :: l2) = Some (length l2).
Proof.
  induction l1 as [|b l1 IH]; intros bp l2 Hall Hbp; simpl.
  - rewrite Hbp, Z.eqb_refl. reflexivity.
  - apply Forall_cons in Hall as [Hb Hall].
    destruct (Z.eqb_spec (desktop b) d); [contradiction|].
    apply IH; assumption.
Qed.

Lemma startup_loop_no_default bps : ∀ dflt id log bps' dflt' id' log',
  startup_loop ParseColor icon_found bps dflt id log = (bps', dflt', id', log') →
  Forall (λ b, desktop b ≠ -1) bps → dflt' = dflt.
Proof.
  induction bps as [|b rest IH]; intros dflt id log bps' dflt' id' log' H Hall.
  - injection H as <- <- <- <-. reflexivity.
  - rewrite startup_loop_cons in H.
    destruct (materialize ParseColor icon_found b id) as [[bp1 id1] out] eqn:Hm.
    destruct (startup_loop ParseColor icon_found rest
                (if desktop bp1 =? -1 then Some (length rest) else dflt)
                id1 (log ++ out)) as [[[rest' d'] i'] l'] eqn:Hrec.
    injection H as <- <- <- <-.
    apply Forall_cons in Hall as [Hb Hall].
    destruct (materialize_spec _ _ _ _ _ Hm) as ((Hd & _) & _).
    rewrite (IH _ _ _ _ _ _ _ Hrec Hall).
    destruct (Z.eqb_spec (desktop bp1) (-1)); [congruence | reflexivity].
Qed.

Lemma startup_loop_default newer : ∀ bp older dflt id log bps' dflt' id' log',
  startup_loop ParseColor icon_found (newer ++ bp :: older) dflt id log
  = (bps', dflt', id', log') →
  desktop bp = -1 → Forall (λ b, desktop b ≠ -1) older →
  dflt' = Some (length older).
Proof.
  induction newer as [|b newer IH];
    intros bp older dflt id log bps' dflt' id' log' H Hbp Hall.
  - cbn [app] in H. rewrite startup_loop_cons in H.
    destruct (materialize ParseColor icon_found bp id) as [[bp1 id1] out] eqn:Hm.
    destruct (startup_loop ParseColor icon_found older
                (if desktop bp1 =? -1 then Some (length older) else dflt)
                id1 (log ++ out)) as [[[rest' d'] i'] l'] eqn:Hrec.
    injection H as <- <- <- <-.
    destruct (materialize_spec _ _ _ _ _ Hm) as ((Hd & _) & _).
    rewrite (startup_loop_no_default _ _ _ _ _ _ _ _ Hrec Hall).
    rewrite Hd, Hbp. reflexivity.
  - cbn [app] in H. rewrite startup_loop_cons in H.
    destruct (materialize ParseColor icon_found b id) as [[bp1 id1] out] eqn:Hm.
    destruct (startup_loop ParseColor icon_found (newer ++ bp :: older)
                (if desktop bp1 =? -1 then Some (length (newer ++ bp :: older))
                 else dflt)
                id1 (log ++ out)) as [[[rest' d'] i'] l'] eqn:Hrec.
    injection H as <- <- <- <-.
    exact (IH _ _ _ _ _ _ _ _ _ Hrec Hbp Hall).
Qed.

(** X14.  Of several nodes registered for the sentinel -1, startup records
    the one registered first as the default: the loop goes from the newest
    node to the oldest and the last assignment stays. *)
Theorem StartupBackgrounds_default_oldest s newer bp older :
  backgrounds s = newer ++ bp :: older →
  desktop bp = -1 → Forall (λ b, desktop b ≠ -1) older →
  let s' := StartupBackgrounds ParseColor icon_found s in
  ∃ node, defaultBackground s' = Some (length older)
    ∧ bg_deref s' (length older) = Some node
    ∧ started ParseColor bp node.
Proof.
  intros Hb Hbp Hall. cbv zeta.
  unfold StartupBackgrounds, bg_deref.
  destruct (startup_loop ParseColor icon_found (backgrounds s)
              (defaultBackground s) (next_pixmap s) (calls s))
    as [[[bps' dflt'] id'] log'] eqn:Hs.
  pose proof (proj1 (startup_loop_nodes _ _ _ _ _ _ _ _ Hs)) as Hn.
  simpl in *. rewrite Hb in Hs, Hn.
  apply Forall2_app_inv_l in Hn as (k1 & k2 & H1 & H2 & ->).
  apply Forall2_cons_inv_l in H2 as (node & k3 & Hst & H3 & ->).
  exists node. split; [|split; [|exact Hst]].
  - exact (startup_loop_default _ _ _ _ _ _ _ _ _ _ Hs Hbp Hall).
  - rewrite (Forall2_length _ _ _ H3). apply lookup_rev_middle.
Qed.

(** X15.  Of several nodes registered for a desktop, the activation of the
    desktop after startup settles on the one registered last. *)
Theorem LoadBackground_newest d s newer bp older :
  backgrounds s = newer ++ bp :: older →
  desktop bp = d → Forall (λ b, desktop b ≠ d) newer →
  let s' := StartupBackgrounds ParseColor icon_found s in
  ∃ node, resolved d s' = Some (length older)
    ∧ bg_deref s' (length older) = Some node
    ∧ started ParseColor bp node.
Proof.
  intros Hb Hbp Hall. cbv zeta.
  unfold StartupBackgrounds, bg_deref, resolved.
  destruct (startup_loop ParseColor icon_found (backgrounds s)
              (defaultBackground s) (next_pixmap s) (calls s))
    as [[[bps' dflt'] id'] log'] eqn:Hs.
  pose proof (proj1 (startup_loop_nodes _ _ _ _ _ _ _ _ Hs)) as Hn.
  simpl in *. rewrite Hb in Hn.
  apply Forall2_app_inv_l in Hn as (k1 & k2 & H1 & H2 & ->).
  apply Forall2_cons_inv_l in H2 as (node & k3 & Hst & H3 & ->).
  exists node. rewrite (Forall2_length _ _ _ H3).
  split; [|split; [apply lookup_rev_middle | exact Hst]].
  rewrite find_desktop_first; [reflexivity | | ].
  - clear - H1 Hall. induction H1 as [|x y l l' Hxy _ IH]; [constructor|].
    apply Forall_cons in Hall as [Hx Hall].
    constructor; [|exact (IH Hall)].
    destruct Hxy as (Hd & _). congruence.
  - destruct Hst as (Hd & _). congruence.
Qed.

End Startup.

Lemma ShutdownBackgrounds_frees_None_witness :
  JXFreePixmap (Some XNone)
    ∈ ShutdownBackgrounds (StartupBackgrounds color_code (λ _, false)
                             gradient_no_colon).
Proof.
  apply (ShutdownBackgrounds_frees_None color_code (λ _, false)
           gradient_no_colon
           (mkBackground 0 BACKGROUND_GRADIENT "red" None None)).
  - apply list_elem_of_here.
  - left. split; reflexivity.
Defined.

Lemma StartupBackgrounds_default_oldest_witness :
  let s' := StartupBackgrounds color_code (λ _, false) two_defaults in
  ∃ node, defaultBackground s' = Some 0%nat
    ∧ bg_deref s' 0 = Some node
    ∧ started color_code
        (mkBackground (-1) BACKGROUND_SOLID "green" None None) node.
Proof.
  apply (StartupBackgrounds_default_oldest color_code (λ _, false) two_defaults
           [mkBackground (-1) BACKGROUND_SOLID "black" None None]
           (mkBackground (-1) BACKGROUND_SOLID "green" None None) []).
  - reflexivity.
  - reflexivity.
  - constructor.
Defined.

Lemma LoadBackground_newest_witness :
  let s' := StartupBackgrounds color_code (λ _, false) two_for_desktop_0 in
  ∃ node, resolved 0 s' = Some 3%nat
    ∧ bg_deref s' 3 = Some node
    ∧ started color_code
        (mkBackground 0 BACKGROUND_SOLID "white" None None) node.
Proof.
  apply (LoadBackground_newest color_code (λ _, false) 0 two_for_desktop_0 []
           (mkBackground 0 BACKGROUND_SOLID "white" None None)
           (backgrounds red_blue_green)).
  - reflexivity.
  - reflexivity.
  - constructor.
Defined.

(** ** The background manager: the pointers stay live *)

Section Pointers.

Variable ParseColor : string → Z.
Variable icon_found : string → bool.

Lemma bg_ok_SetBackground d t v s : bg_ok s → bg_ok (SetBackground d t v s).
Proof.
  intros [Hd Hl]. unfold SetBackground.
  destruct v as [v|]; [|split; assumption].
  destruct (parse_type t) as [ty|]; [|split; assumption].
  split; intros p Hp; simpl in Hp; unfold bg_deref; simpl backgrounds.
  - destruct (Hd p Hp) as [x Hx]. exists x. apply lookup_rev_tail. exact Hx.
  - destruct (Hl p Hp) as [x Hx]. exists x. apply lookup_rev_tail. exact Hx.
Qed.

Lemma bg_ok_StartupBackgrounds s :
  bg_ok s → bg_ok (StartupBackgrounds ParseColor icon_found s).
Proof.
  intros [Hd Hl].
  unfold StartupBackgrounds.
  destruct (startup_loop ParseColor icon_found (backgrounds s)
              (defaultBackground s) (next_pixmap s) (calls s))
    as [[[bps' dflt'] id'] log'] eqn:Hs.
  pose proof (proj1 (startup_loop_nodes _ _ _ _ _ _ _ _ _ _ Hs)) as Hn.
  apply Forall2_length in Hn.
  assert (Hlive : ∀ p, is_Some (bg_deref s p) → is_Some (rev bps' !! p)).
  { intros p Hp. apply lookup_lt_is_Some. apply lookup_lt_is_Some in Hp.
    rewrite length_rev in *. lia. }
  destruct (startup_loop_spec _ _ _ _ _ _ _ _ _ _ Hs) as [_ Hdf].
  split; intros p Hp; simpl in Hp; unfold bg_deref; simpl backgrounds.
  - destruct Hdf as [[-> _] | (q & node & -> & Hq & _)].
    + apply Hlive, Hd, Hp.
    + injection Hp as <-. exists node. exact Hq.
  - apply Hlive, Hl, Hp.
Qed.

Lemma bg_ok_LoadBackground d s s' :
  bg_ok s → LoadBackground d s = Some s' → bg_ok s'.
Proof.
  intros [Hd Hl] H. rewrite LoadBackground_unfold in H.
  destruct (resolved d s) as [p|]; [|injection H as <-; split; assumption].
  destruct (bg_deref s p) as [node|] eqn:Hn; [|discriminate]. simpl in H.
  destruct (unchanged s node) as [[|]|]; [| |discriminate]; simpl in H;
    injection H as <-; [split; assumption|].
  split; intros q Hq; simpl in Hq.
  - exact (Hd q Hq).
  - injection Hq as <-. exists node. exact Hn.
Qed.

Lemma run_ops_ok ops : ∀ s,
  bg_ok s → ∃ s', run_ops ParseColor icon_found ops s = Some s' ∧ bg_ok s'.
Proof.
  induction ops as [|op ops IH]; intros s Hok; [exists s; split; auto|].
  destruct op as [d t v| |d]; cbn [run_ops].
  - apply IH, bg_ok_SetBackground, Hok.
  - apply IH, bg_ok_StartupBackgrounds, Hok.
  - destruct (LoadBackground_returns d s Hok) as [s1 H1]. rewrite H1.
    apply IH. exact (bg_ok_LoadBackground _ _ _ Hok H1).
Qed.

(** X16.  From [InitializeBackgrounds] on, whatever registrations,
    startups and activations follow and in whatever order, every
    activation returns, and [defaultBackground] and [lastBackground] are
    NULL or point to a node of the list. *)
Theorem run_ops_live ops s0 :
  ∃ s', run_ops ParseColor icon_found ops (InitializeBackgrounds s0) = Some s'
    ∧ bg_ok s'.
Proof.
  apply run_ops_ok. split; intros p Hp; discriminate.
Qed.

End Pointers.

(** ** The background manager: gradients *)

Lemma split_colon_first a : ∀ b,
  split_colon a = None →
  split_colon (String.append a (String ":" b)) = Some (a, b).
Proof.
  induction a as [|c a IH]; intros b H; simpl in *; [reflexivity|].
  destruct (decide (c = ":"%char)); [discriminate|].
  destruct (split_colon a) as [[x y]|]; [discriminate|].
  rewrite IH by reflexivity. reflexivity.
Qed.

(** X17.  A gradient is split at the first colon of its value: the colours
    are the text before it and all the text after it.  The node gets a new
    pixmap, filled with the colour when the two pixels are equal and with
    the gradient of the two pixels otherwise. *)
Theorem LoadGradientBackground_first_colon ParseColor bp id a b :
  value bp = String.append a (String ":" b) →
  split_colon a = None →
  LoadGradientBackground ParseColor bp id
  = (set_pixmap (Z.pos id) bp, (id + 1)%positive,
     JXCreatePixmap (Z.pos id)
     :: (if ParseColor a =? ParseColor b
         then [JXSetForeground (ParseColor a); JXFillRectangle (Z.pos id)]
         else [DrawHorizontalGradient (Z.pos id) (ParseColor a) (ParseColor b)])).
Proof.
  intros Hv Ha. unfold LoadGradientBackground.
  rewrite Hv, (split_colon_first a b Ha). reflexivity.
Qed.

Lemma LoadGradientBackground_first_colon_witness :
  LoadGradientBackground color_code
    (mkBackground 0 BACKGROUND_GRADIENT "red:blue:x" None None) 7
  = (mkBackground 0 BACKGROUND_GRADIENT "red:blue:x" None (Some 7), 8%positive,
     [JXCreatePixmap 7; DrawHorizontalGradient 7 3 6]).
Proof.
  apply (LoadGradientBackground_first_colon color_code
           (mkBackground 0 BACKGROUND_GRADIENT "red:blue:x" None None) 7
           "red" "blue:x"); reflexivity.
Defined.

(** ** The background manager: release *)

(** X18.  [DestroyBackgrounds] releases the nodes and leaves
    [defaultBackground] where it was: an activation right after it reads a
    released node, whatever the desktop.  After [InitializeBackgrounds] the
    activation does nothing. *)
Theorem DestroyBackgrounds_dangling d s p :
  defaultBackground s = Some p →
  LoadBackground d (DestroyBackgrounds s) = None
  ∧ LoadBackground d (InitializeBackgrounds (DestroyBackgrounds s))
    = Some (InitializeBackgrounds (DestroyBackgrounds s)).
Proof.
  intros Hp. split; [|reflexivity].
  unfold LoadBackground, DestroyBackgrounds, bg_deref. simpl.
  rewrite Hp. simpl. destruct p; reflexivity.
Qed.

Lemma DestroyBackgrounds_dangling_witness :
  LoadBackground 0 (DestroyBackgrounds three_desktops) = None
  ∧ LoadBackground 0 (InitializeBackgrounds (DestroyBackgrounds three_desktops))
    = Some (InitializeBackgrounds (DestroyBackgrounds three_desktops)).
Proof.
  apply (DestroyBackgrounds_dangling 0 three_desktops 2). reflexivity.
Defined.

(** ** The status window *)

(** X19.  The two setters never store [SW_INVALID]: a type that
    [ParseType] knows is stored as it is, without a warning, and for any
    other word [SW_SCREEN] is stored and one warning goes out.  The other
    type is left as it is. *)
Theorem SetStatusType_valid str s :
  let m := Status.SetMoveStatusType str s in
  let r := Status.SetResizeStatusType str s in
  Status.moveStatusType m ≠ Status.SW_INVALID
  ∧ Status.resizeStatusType r ≠ Status.SW_INVALID
  ∧ Status.resizeStatusType m = Status.resizeStatusType s
  ∧ Status.moveStatusType r = Status.moveStatusType s
  ∧ (Status.ParseType str ≠ Status.SW_INVALID →
     Status.moveStatusType m = Status.ParseType str
     ∧ Status.resizeStatusType r = Status.ParseType str
     ∧ Status.calls m = Status.calls s ∧ Status.calls r = Status.calls s)
  ∧ (Status.ParseType str = Status.SW_INVALID →
     ∃ word, str = Some word
       ∧ Status.moveStatusType m = Status.SW_SCREEN
       ∧ Status.resizeStatusType r = Status.SW_SCREEN
       ∧ Status.calls m
         = Status.calls s ++ [Status.Warning "invalid MoveMode coordinates" word]
       ∧ Status.calls r
         = Status.calls s
           ++ [Status.Warning "invalid ResizeMode coordinates" word]).
Proof.
  cbv zeta. unfold Status.SetMoveStatusType, Status.SetResizeStatusType.
  destruct (decide (Status.ParseType str = Status.SW_INVALID)) as [E|E].
  - repeat split; try discriminate; try contradiction.
    intros _. destruct str as [word|]; [|discriminate E].
    exists word. repeat split.
  - repeat split; try assumption; try contradiction.
Qed.

Lemma SetStatusType_valid_witness :
  Status.moveStatusType (Status.SetMoveStatusType (Some "middle"%string) status0)
  = Status.SW_SCREEN
  ∧ Status.calls (Status.SetMoveStatusType (Some "middle"%string) status0)
    = [Status.Warning "invalid MoveMode coordinates" "middle"].
Proof.
  destruct (SetStatusType_valid (Some "middle"%string) status0)
    as (_ & _ & _ & _ & _ & H).
  destruct (H eq_refl) as (word & Hw & Hm & _ & Hc & _).
  injection Hw as <-. split; [exact Hm | exact Hc].
Defined.

Section StatusProperties.

Variable env : Status.Env.

(** X20.  With the type [SW_OFF] and no window, creating, updating and
    destroying the status window of a move or of a resize sends nothing
    and changes nothing. *)
Theorem status_off_silent np gwidth gheight s :
  Status.statusWindow s = XNone →
  (Status.moveStatusType s = Status.SW_OFF →
   Status.CreateMoveWindow env np s = s
   ∧ Status.UpdateMoveWindow env np s = s
   ∧ Status.DestroyMoveWindow s = s)
  ∧ (Status.resizeStatusType s = Status.SW_OFF →
     Status.CreateResizeWindow env np s = s
     ∧ Status.UpdateResizeWindow env np gwidth gheight s = s
     ∧ Status.DestroyResizeWindow s = s).
Proof.
  intros Hw.
  unfold Status.CreateMoveWindow, Status.UpdateMoveWindow,
    Status.DestroyMoveWindow, Status.CreateResizeWindow,
    Status.UpdateResizeWindow, Status.DestroyResizeWindow,
    Status.CreateMoveResizeWindow, Status.DestroyMoveResizeWindow.
  rewrite Hw. split; intros ->; simpl; auto.
Qed.

Lemma DrawMoveResizeWindow_frame np type s :
  let s' := Status.DrawMoveResizeWindow env np type s in
  Status.statusWindow s' = Status.statusWindow s
  ∧ Status.statusGC s' = Status.statusGC s
  ∧ Status.moveStatusType s' = Status.moveStatusType s
  ∧ ∃ new, Status.calls s' = Status.calls s ++ new
      ∧ Forall (on_window (Status.statusWindow s) (Status.statusGC s)) new.
Proof.
  cbv zeta. unfold Status.DrawMoveResizeWindow.
  destruct (Status.GetMoveResizeCoordinates env np type s) as [x y].
  destruct (negb (x =? Status.statusWindowX s)
            || negb (y =? Status.statusWindowX s)); simpl;
    (split; [reflexivity|]); (split; [reflexivity|]); (split; [reflexivity|]).
  - rewrite <- app_assoc. eexists. split; [reflexivity|].
    repeat constructor.
  - eexists. split; [reflexivity|]. repeat constructor.
Qed.

Lemma UpdateMoveWindow_frame np s :
  let s' := Status.UpdateMoveWindow env np s in
  Status.statusWindow s' = Status.statusWindow s
  ∧ Status.statusGC s' = Status.statusGC s
  ∧ Status.moveStatusType s' = Status.moveStatusType s
  ∧ ∃ new, Status.calls s' = Status.calls s ++ new
      ∧ Forall (on_window (Status.statusWindow s) (Status.statusGC s)) new.
Proof.
  cbv zeta. unfold Status.UpdateMoveWindow.
  destruct (decide (Status.moveStatusType s = Status.SW_OFF)).
  - repeat split. exists []. rewrite app_nil_r. split; constructor.
  - destruct (DrawMoveResizeWindow_frame np (Status.moveStatusType s) s)
      as (Hw & Hg & Hm & new & Hc & Hall).
    unfold Status.render_centered. simpl. rewrite Hw, Hg, Hm, Hc.
    repeat split. rewrite <- app_assoc. eexists. split; [reflexivity|].
    apply Forall_app. split; [exact Hall|]. repeat constructor.
Qed.

Lemma updates_frame nps : ∀ s,
  let s' := fold_left (λ s np, Status.UpdateMoveWindow env np s) nps s in
  Status.statusWindow s' = Status.statusWindow s
  ∧ Status.statusGC s' = Status.statusGC s
  ∧ ∃ new, Status.calls s' = Status.calls s ++ new
      ∧ Forall (on_window (Status.statusWindow s) (Status.statusGC s)) new.
Proof.
  induction nps as [|np nps IH]; intros s; cbv zeta; simpl.
  - repeat split. exists []. rewrite app_nil_r. split; constructor.
  - destruct (UpdateMoveWindow_frame np s) as (Hw & Hg & _ & new & Hc & Hall).
    destruct (IH (Status.UpdateMoveWindow env np s))
      as (Hw' & Hg' & new' & Hc' & Hall').
    rewrite Hw', Hg', Hc', Hw, Hg, Hc. repeat split.
    exists (new ++ new'). rewrite app_assoc. split; [reflexivity|].
    apply Forall_app. rewrite Hw, Hg in Hall'. split; assumption.
Qed.

(** X21.  A move with a status window: the window and its context are
    created once, every request of the updates goes to that window with
    that context, and at the end the context is freed and the window
    destroyed, each once; no window is left, and destroying again does
    nothing. *)
Theorem move_window_lifecycle np nps s :
  Status.moveStatusType s ≠ Status.SW_OFF →
  let s1 := Status.CreateMoveWindow env np s in
  let s2 := fold_left (λ s np, Status.UpdateMoveWindow env np s) nps s1 in
  let s3 := Status.DestroyMoveWindow s2 in
  let w := Z.pos (Status.next_id s) in
  let gc := Z.pos (Status.next_id s + 1) in
  Status.statusWindow s3 = XNone
  ∧ Status.DestroyMoveWindow s3 = s3
  ∧ ∃ x y width height mid,
      Status.calls s3
      = Status.calls s
        ++ [Status.JXCreateWindow w x y width height; Status.JXMapRaised w;
            Status.JXCreateGC gc w;
            Status.JXSetBackground gc (Status.colors env Status.COLOR_MENU_BG)]
        ++ mid ++ [Status.JXFreeGC gc; Status.JXDestroyWindow w]
      ∧ Forall (on_window w gc) mid.
Proof.
  intros Hoff. cbv zeta.
  set (s1 := Status.CreateMoveWindow env np s).
  destruct (updates_frame nps s1) as (Hw & Hg & mid & Hc & Hall).
  set (s2 := fold_left (λ s np, Status.UpdateMoveWindow env np s) nps s1) in *.
  assert (H1 : Status.statusWindow s1 = Z.pos (Status.next_id s)
               ∧ Status.statusGC s1 = Z.pos (Status.next_id s + 1)
               ∧ ∃ x y width height,
                   Status.calls s1
                   = Status.calls s
                     ++ [Status.JXCreateWindow (Z.pos (Status.next_id s))
                           x y width height;
                         Status.JXMapRaised (Z.pos (Status.next_id s));
                         Status.JXCreateGC (Z.pos (Status.next_id s + 1))
                           (Z.pos (Status.next_id s));
                         Status.JXSetBackground (Z.pos (Status.next_id s + 1))
                           (Status.colors env Status.COLOR_MENU_BG)]).
  { unfold s1, Status.CreateMoveWindow, Status.CreateMoveResizeWindow.
    destruct (decide (Status.moveStatusType s = Status.SW_OFF));
      [contradiction|].
    destruct (Status.GetMoveResizeCoordinates env np (Status.moveStatusType s) _)
      as [x y].
    simpl. repeat split. eauto. }
  destruct H1 as (H1w & H1g & x & y & width & height & H1c).
  rewrite H1w, H1g in *.
  unfold Status.DestroyMoveWindow, Status.DestroyMoveResizeWindow.
  rewrite Hw. simpl. split; [reflexivity|]. split; [reflexivity|].
  exists x, y, width, height, mid. rewrite Hc, H1c, Hg.
  split; [|exact Hall]. rewrite <- !app_assoc. reflexivity.
Qed.

(** X22.  [DrawMoveResizeWindow] compares the new ordinate with the old
    abscissa.  When the new position has the old abscissa and an ordinate
    equal to it, the window is not moved and the recorded ordinate stays,
    whatever it was; when the new ordinate differs from the old abscissa
    the window is moved, also to the position it has. *)
Theorem DrawMoveResizeWindow_compares_abscissa np type s x y :
  Status.GetMoveResizeCoordinates env np type s = (x, y) →
  let s' := Status.DrawMoveResizeWindow env np type s in
  ∃ new, Status.calls s' = Status.calls s ++ new
    ∧ (x = Status.statusWindowX s → y = Status.statusWindowX s →
       Status.statusWindowY s' = Status.statusWindowY s
       ∧ Forall (λ c, ¬ is_move c) new)
    ∧ (y ≠ Status.statusWindowX s →
       Status.statusWindowX s' = x ∧ Status.statusWindowY s' = y
       ∧ ∃ rest, new = Status.JXMoveResizeWindow (Status.statusWindow s) x y
                         (Status.statusWindowWidth s)
                         (Status.statusWindowHeight s) :: rest).
Proof.
  intros Hxy. cbv zeta. unfold Status.DrawMoveResizeWindow. rewrite Hxy.
  destruct (Z.eqb_spec x (Status.statusWindowX s)) as [Ex|Ex];
    destruct (Z.eqb_spec y (Status.statusWindowX s)) as [Ey|Ey]; simpl;
    try rewrite <- app_assoc; eexists; (split; [reflexivity|]); split;
    try (intros; contradiction); try (intros; congruence).
  - intros _ _. split; [reflexivity|].
    repeat constructor; intros H; exact H.
  - intros _. split; [reflexivity|]. split; [reflexivity|]. eexists. reflexivity.
  - intros _. split; [reflexivity|]. split; [reflexivity|]. eexists. reflexivity.
Qed.

Lemma int_minus_uint_small a b :
  - 2 ^ 31 ≤ a < 2 ^ 31 → - 2 ^ 31 ≤ a - b < 2 ^ 31 →
  Status.int_minus_uint (wrap_int a) b = a - b.
Proof.
  intros Ha Hab. unfold Status.int_minus_uint.
  rewrite (wrap_int_small a) by lia.
  unfold wrap_uint, wrap_int.
  rewrite Zminus_mod_idemp_l, Zplus_mod_idemp_l.
  rewrite Z.mod_small by lia. lia.
Qed.

(** X23.  With the type [SW_SCREEN] (and with [SW_INVALID] and [SW_OFF],
    which take the same branch) the position is such that a status window
    no larger than the screen of the client lies inside that screen. *)
Theorem GetMoveResizeCoordinates_inside np type s :
  type ≠ Status.SW_WINDOW → type ≠ Status.SW_CORNER →
  let screen := Status.GetCurrentScreen env (Status.np_x np) (Status.np_y np) in
  let sx := Status.GetScreenX env screen in
  let sy := Status.GetScreenY env screen in
  let sw := Status.GetScreenWidth env screen in
  let sh := Status.GetScreenHeight env screen in
  0 ≤ sx < 2 ^ 30 → 0 ≤ sy < 2 ^ 30 →
  0 ≤ Status.statusWindowWidth s ≤ sw → sw < 2 ^ 30 →
  0 ≤ Status.statusWindowHeight s ≤ sh → sh < 2 ^ 30 →
  ∃ x y, Status.GetMoveResizeCoordinates env np type s = (x, y)
    ∧ sx ≤ x ∧ x + Status.statusWindowWidth s ≤ sx + sw
    ∧ sy ≤ y ∧ y + Status.statusWindowHeight s ≤ sy + sh.
Proof.
  intros Hw Hc. cbv zeta. intros Hsx Hsy HW Hsw HH Hsh.
  unfold Status.GetMoveResizeCoordinates.
  destruct (decide (type = Status.SW_WINDOW)); [contradiction|].
  destruct (decide (type = Status.SW_CORNER)); [contradiction|].
  set (screen := Status.GetCurrentScreen env (Status.np_x np) (Status.np_y np))
    in *.
  set (sx := Status.GetScreenX env screen) in *.
  set (sy := Status.GetScreenY env screen) in *.
  set (sw := Status.GetScreenWidth env screen) in *.
  set (sh := Status.GetScreenHeight env screen) in *.
  set (W := Status.statusWindowWidth s) in *.
  set (H := Status.statusWindowHeight s) in *.
  rewrite (Z.quot_div_nonneg sw 2), (Z.quot_div_nonneg sh 2) by lia.
  pose proof (Z.div_mod sw 2 ltac:(lia)).
  pose proof (Z.mod_pos_bound sw 2 ltac:(lia)).
  pose proof (Z.div_mod sh 2 ltac:(lia)).
  pose proof (Z.mod_pos_bound sh 2 ltac:(lia)).
  pose proof (Z.div_mod W 2 ltac:(lia)).
  pose proof (Z.mod_pos_bound W 2 ltac:(lia)).
  pose proof (Z.div_mod H 2 ltac:(lia)).
  pose proof (Z.mod_pos_bound H 2 ltac:(lia)).
  rewrite !int_minus_uint_small by lia.
  eexists _, _. split; [reflexivity|]. lia.
Qed.

End StatusProperties.

Lemma status_off_silent_witness :
  let s := Status.SetResizeStatusType (Some "off"%string)
             (Status.SetMoveStatusType (Some "off"%string) status0) in
  let np := Status.mkClient 10 20 300 200 in
  (Status.CreateMoveWindow env0 np s = s
   ∧ Status.UpdateMoveWindow env0 np s = s
   ∧ Status.DestroyMoveWindow s = s)
  ∧ (Status.CreateResizeWindow env0 np s = s
     ∧ Status.UpdateResizeWindow env0 np 30 20 s = s
     ∧ Status.DestroyResizeWindow s = s).
Proof.
  cbv zeta.
  destruct (status_off_silent env0 (Status.mkClient 10 20 300 200) 30 20
              (Status.SetResizeStatusType (Some "off"%string)
                 (Status.SetMoveStatusType (Some "off"%string) status0))
              eq_refl) as [Hm Hr].
  split; [exact (Hm eq_refl) | exact (Hr eq_refl)].
Defined.

Lemma move_window_lifecycle_witness :
  let s := Status.SetMoveStatusType (Some "window"%string) status0 in
  let s1 := Status.CreateMoveWindow env0 (Status.mkClient 10 20 300 200) s in
  let s2 := fold_left (λ s np, Status.UpdateMoveWindow env0 np s)
              [Status.mkClient 11 20 300 200; Status.mkClient 12 21 300 200] s1 in
  let s3 := Status.DestroyMoveWindow s2 in
  Status.statusWindow s3 = XNone
  ∧ Status.DestroyMoveWindow s3 = s3
  ∧ ∃ x y width height mid,
      Status.calls s3
      = Status.calls s
        ++ [Status.JXCreateWindow 1 x y width height; Status.JXMapRaised 1;
            Status.JXCreateGC 2 1; Status.JXSetBackground 2 1]
        ++ mid ++ [Status.JXFreeGC 2; Status.JXDestroyWindow 1]
      ∧ Forall (on_window 1 2) mid.
Proof.
  apply (move_window_lifecycle env0 (Status.mkClient 10 20 300 200)
           [Status.mkClient 11 20 300 200; Status.mkClient 12 21 300 200]
           (Status.SetMoveStatusType (Some "window"%string) status0)).
  discriminate.
Defined.

(** The window was made in the corner of the lower screen, at (0, 600);
    the client is now on the upper screen, whose corner is (0, 0): the
    window is not moved. *)
Lemma DrawMoveResizeWindow_compares_abscissa_witness :
  let s := Status.CreateMoveWindow env0 (Status.mkClient 10 700 300 200)
             (Status.SetMoveStatusType (Some "corner"%string) status0) in
  let s' := Status.DrawMoveResizeWindow env0 (Status.mkClient 10 20 300 200)
              Status.SW_CORNER s in
  Status.statusWindowY s = 600
  ∧ Status.GetMoveResizeCoordinates env0 (Status.mkClient 10 20 300 200)
      Status.SW_CORNER s = (0, 0)
  ∧ Status.statusWindowY s' = 600
  ∧ ∃ new, Status.calls s' = Status.calls s ++ new
      ∧ Forall (λ c, ¬ is_move c) new.
Proof.
  cbv zeta.
  destruct (DrawMoveResizeWindow_compares_abscissa env0
              (Status.mkClient 10 20 300 200) Status.SW_CORNER
              (Status.CreateMoveWindow env0 (Status.mkClient 10 700 300 200)
                 (Status.SetMoveStatusType (Some "corner"%string) status0))
              0 0 eq_refl) as (new & Hc & Hsame & _).
  destruct (Hsame eq_refl eq_refl) as [Hy Hall].
  split; [reflexivity|]. split; [reflexivity|]. split; [exact Hy|].
  exists new. split; [exact Hc | exact Hall].
Defined.

Lemma GetMoveResizeCoordinates_inside_witness :
  let s := Status.CreateMoveWindow env0 (Status.mkClient 10 700 300 200)
             (Status.SetMoveStatusType None status0) in
  ∃ x y, Status.GetMoveResizeCoordinates env0 (Status.mkClient 10 700 300 200)
           Status.SW_SCREEN s = (x, y)
    ∧ 0 ≤ x ∧ x + 90 ≤ 0 + 800 ∧ 600 ≤ y ∧ y + 20 ≤ 600 + 600.
Proof.
  cbv zeta.
  apply (GetMoveResizeCoordinates_inside env0 (Status.mkClient 10 700 300 200)
           Status.SW_SCREEN
           (Status.CreateMoveWindow env0 (Status.mkClient 10 700 300 200)
              (Status.SetMoveStatusType None status0)));
    try discriminate; vm_compute; split; first [reflexivity | discriminate].
Defined.

(** ** The icon of a client *)

Lemma FindIcon_head s L nm a rest i :
  cache_ok s L → L (GetHash (Some nm)) = a :: rest →
  heap s !! a = Some i → name i = Some nm →
  FindIcon nm s = Some (Some a).
Proof.
  intros [(Hc & _) _] HL Hi Hn. unfold FindIcon.
  specialize (Hc (GetHash (Some nm))). rewrite HL in Hc.
  destruct Hc as (-> & _).
  destruct (size (heap s)) as [|n] eqn:Hsz.
  - apply map_size_empty_inv in Hsz. rewrite Hsz, lookup_empty in Hi.
    discriminate.
  - simpl. rewrite Hi. simpl. rewrite Hn. simpl.
    rewrite decide_True by reflexivity. reflexivity.
Qed.

Section IconClient.

Variable build : Build.
Variable LoadImage : string → list ImageNode.
Variable LoadImageFromData : list string → list ImageNode.
Variable LoadImageFromDrawable : Z → Z → list ImageNode.
Variable x_xpm : list string.
Variable JXGetWindowProperty : Z → WindowProperty.
Variable JXGetWMHints : Z → option XWMHints.

(** In a well linked table [CreateIconFromData] returns and keeps the
    table well linked; the icon it gives is the entry of the name. *)
Lemma CreateIconFromData_ok nm data s L :
  cache_ok s L →
  ∃ r s' L',
    CreateIconFromData LoadImageFromData nm data s = Some (r, s')
    ∧ cache_ok s' L'
    ∧ match r with
      | Some a => FindIcon nm s' = Some (Some a)
      | None => s' = s ∧ LoadImageFromData data = []
      end.
Proof.
  intros Hok. unfold CreateIconFromData.
  destruct (FindIcon_returns s L nm Hok) as [[b|] Hf]; rewrite Hf; simpl.
  { exists (Some b), s, L. auto. }
  destruct (LoadImageFromData data) as [|image0 images0] eqn:Hd.
  { exists None, s, L. auto. }
  unfold CreateIcon. set (a := fresh_addr (heap s)).
  assert (Ha : ∀ x, a ∉ L x).
  { intros x. destruct Hok as [(Hc & _) _].
    exact (chain_not_live _ _ _ _ _ (Hc x) (fresh_addr_fresh (heap s))). }
  erewrite store_eq by (simpl; apply lookup_insert_eq). simpl.
  erewrite store_eq by (simpl; apply lookup_insert_eq). simpl.
  rewrite !insert_insert_eq, !set_heap_twice.
  set (i3 := set_images _ _).
  destruct (InsertIcon_fresh (set_heap (<[a := i3]> (heap s)) s) L a i3 nm
              (cache_ok_outside s L a i3 Hok Ha)
              (lookup_insert_eq _ _ _) eq_refl) as (s5 & Hs5 & Hok5);
    [discriminate | exact Ha |].
  rewrite Hs5. simpl.
  exists (Some a), s5. eexists. split; [reflexivity|]. split; [exact Hok5|].
  pose proof (InsertIcon_names _ _ _ Hs5 a) as Hnames. simpl in Hnames.
  rewrite lookup_insert_eq in Hnames.
  destruct (heap s5 !! a) as [i5|] eqn:Hi5; [|discriminate].
  apply (FindIcon_head s5 _ nm a (L (GetHash (Some nm))) i5 Hok5);
    [rewrite decide_True by reflexivity; reflexivity | exact Hi5 |].
  simpl in Hnames. congruence.
Qed.



(** X26.  Clients without a property, hints and an instance name share one
    icon: the first [LoadIcon] makes or finds the entry "default" of the
    cache, and the next one returns that record and changes nothing. *)
Theorem LoadIcon_default_shared np1 np2 s L :
  cache_ok s L →
  LoadImageFromData x_xpm ≠ [] →
  (∀ np, np ∈ [np1; np2] →
     np_icon np = None ∧ np_instanceName np = None
     ∧ prop_data (JXGetWindowProperty (np_window np)) = None
     ∧ JXGetWMHints (np_window np) = None) →
  ∃ a s',
    LoadIcon build LoadImage LoadImageFromData LoadImageFromDrawable x_xpm
             JXGetWindowProperty JXGetWMHints np1 s
    = Some (set_icon (Some a) np1, s')
    ∧ LoadIcon build LoadImage LoadImageFromData LoadImageFromDrawable x_xpm
               JXGetWindowProperty JXGetWMHints np2 s'
      = Some (set_icon (Some a) np2, s')
    ∧ FindIcon "default" s' = Some (Some a).
Proof.
  intros Hok Hdata Hnp.
  assert (Hload : ∀ np s0, np ∈ [np1; np2] →
            LoadIcon build LoadImage LoadImageFromData LoadImageFromDrawable
                     x_xpm JXGetWindowProperty JXGetWMHints np s0
            = '(icon, s3) ← GetDefaultIcon LoadImageFromData x_xpm s0;
              Some (set_icon icon np, s3)).
  { intros np s0 Hin. destruct (Hnp np Hin) as (Hi & Hn & Hp & Hh).
    unfold LoadIcon. rewrite Hi. simpl.
    unfold ReadNetWMIcon. simpl. rewrite Hp.
    rewrite bool_decide_eq_false_2 by (intros [x Hx]; discriminate).
    rewrite !andb_false_r. simpl.
    unfold ReadWMHintIcon. simpl. rewrite Hh. simpl. rewrite Hn. simpl.
    destruct (GetDefaultIcon LoadImageFromData x_xpm s0) as [[icon s3]|];
      [|reflexivity].
    simpl. destruct np; reflexivity. }
  rewrite Hload by (left).
  unfold GetDefaultIcon.
  destruct (CreateIconFromData_ok "default" x_xpm s L Hok)
    as (r & s' & L' & Hc & Hok' & Hr).
  destruct r as [a|]; [|destruct Hr as [_ Hr]; contradiction].
  exists a, s'. rewrite Hc. simpl. split; [reflexivity|]. split; [|exact Hr].
  rewrite Hload by (right; left).
  unfold GetDefaultIcon, CreateIconFromData. rewrite Hr. reflexivity.
Qed.

(** X27.  A client whose instance name is the empty string, and that has
    no property and no hints, gets the static empty icon, which draws
    nothing, and not the default icon. *)
Theorem LoadIcon_empty_name np s :
  np_icon np = None →
  np_instanceName np = Some EmptyString →
  prop_data (JXGetWindowProperty (np_window np)) = None →
  JXGetWMHints (np_window np) = None →
  LoadIcon build LoadImage LoadImageFromData LoadImageFromDrawable x_xpm
           JXGetWindowProperty JXGetWMHints np s
  = Some (set_icon (Some emptyIcon) np, s).
Proof.
  intros Hi Hn Hp Hh. unfold LoadIcon. rewrite Hi. simpl.
  unfold ReadNetWMIcon. simpl. rewrite Hp.
  rewrite bool_decide_eq_false_2 by (intros [x Hx]; discriminate).
  rewrite !andb_false_r. simpl.
  unfold ReadWMHintIcon. simpl. rewrite Hh. simpl. rewrite Hn. simpl.
  destruct np; reflexivity.
Qed.

End IconClient.


Lemma LoadIcon_default_shared_witness :
  ∃ a s',
    LoadIcon build_plain xterm_store default_image no_drawable [] no_property
             no_hints (mkClient None 5 None) with_paths
    = Some (mkClient (Some a) 5 None, s')
    ∧ LoadIcon build_plain xterm_store default_image no_drawable [] no_property
               no_hints (mkClient None 6 None) s'
      = Some (mkClient (Some a) 6 None, s')
    ∧ FindIcon "default" s' = Some (Some a).
Proof.
  apply (LoadIcon_default_shared build_plain xterm_store default_image
           no_drawable [] no_property no_hints
           (mkClient None 5 None) (mkClient None 6 None)
           with_paths (λ _, []) with_paths_ok); [discriminate|].
  intros np Hin.
  apply elem_of_cons in Hin as [-> | Hin];
    [|apply list_elem_of_singleton in Hin as ->]; repeat split; reflexivity.
Defined.

Lemma LoadIcon_empty_name_witness :
  LoadIcon build_plain xterm_store default_image no_drawable [] no_property
           no_hints (mkClient None 5 (Some EmptyString)) with_paths
  = Some (mkClient (Some emptyIcon) 5 (Some EmptyString), with_paths).
Proof.
  apply (LoadIcon_empty_name build_plain xterm_store default_image no_drawable
           [] no_property no_hints (mkClient None 5 (Some EmptyString))
           with_paths); reflexivity.
Defined.

(** ** Drawing an icon *)

(** A round of the loop of [GetBestImage] keeps the variant or takes the
    variant of the round. *)
Lemma best_step_cases rw rh best i :
  best_step rw rh best i = best ∨ best_step rw rh best i = i.
Proof.
  unfold best_step.
  repeat match goal with
         | |- context [if ?c then _ else _] => destruct c
         end; auto.
Qed.

Lemma best_position_loop_spec rw rh ip : ∀ best pos n prefix,
  length prefix = n → (prefix ++ ip) !! pos = Some best →
  (prefix ++ ip) !! IconDraw.best_position_loop rw rh best pos ip n
  = Some (best_loop rw rh best ip).
Proof.
  induction ip as [|i rest IH]; intros best pos n prefix Hn Hp; simpl.
  { exact Hp. }
  specialize (IH (best_step rw rh best i)
                 (if bool_decide (best_step rw rh best i = best) then pos else n)
                 (S n) (prefix ++ [i])).
  rewrite <- app_assoc in IH. simpl in IH. apply IH.
  - rewrite length_app. simpl. lia.
  - case_bool_decide as E.
    + rewrite E. exact Hp.
    + destruct (best_step_cases rw rh best i) as [E'|E']; [contradiction|].
      rewrite E'. subst n. apply list_lookup_middle. reflexivity.
Qed.

(** The place that [best_position] gives is the place of the variant that
    [GetBestImage] returns. *)
Lemma best_position_spec i rw rh :
  images i !! IconDraw.best_position rw rh (images i) = GetBestImage i rw rh.
Proof.
  unfold IconDraw.best_position, GetBestImage.
  destruct (images i) as [|first rest]; [reflexivity|].
  apply (best_position_loop_spec rw rh rest first 0%nat 1%nat [first]);
    reflexivity.
Qed.

Lemma omap_freed_concat {A} (f : A → list XRequest) l a id :
  a ∈ l → id ∈ omap freed_id (f a) → id ∈ omap freed_id (concat (map f l)).
Proof.
  intros Ha Hid. induction l as [|b l IH]; [inversion Ha|].
  simpl. rewrite omap_app. apply elem_of_app.
  apply elem_of_cons in Ha as [<-|Ha]; [left; exact Hid | right; exact (IH Ha)].
Qed.

Section Drawing.

Variable build : Build.
Variable haveRender : bool.
Variable rootDepth : Z.

(** The identifiers freed for a rendering of a variant of an icon are
    among those freed for the variants of the icon. *)
Lemma free_images_elem l image np id :
  image ∈ l → np ∈ img_nodes image →
  id ∈ omap freed_id (free_node build np) →
  id ∈ omap freed_id (free_images build l).
Proof.
  intros Hi Hn Hid. unfold free_images.
  apply (omap_freed_concat _ l image id Hi).
  apply (omap_freed_concat _ _ np id Hn Hid).
Qed.

(** What [PutIcon] does on the software path, in terms of what its call
    of [GetScaledIcon] returns: the variant that call leaves takes the
    place of the best variant in the record of the icon. *)
Lemma PutIcon_software icon i best d fg x y width height s p image' s1 node :
  USE_XRENDER build && haveRender = false →
  heap s !! icon = Some i → icon ≠ emptyIcon →
  GetBestImage i width height = Some best →
  GetScaledIcon build haveRender rootDepth i best fg width height s
    = Some (p, image', s1) →
  rev (img_nodes image') !! p = Some node →
  heap s1 = heap s →
  let ix := wrap_int (x + Z.quot (wrap_int (width - sn_width node)) 2) in
  let iy := wrap_int (y + Z.quot (wrap_int (height - sn_height node)) 2) in
  let i' := set_images (<[IconDraw.best_position width height (images i)
                          := image']> (images i)) i in
  IconDraw.PutIcon build haveRender rootDepth icon d fg x y width height s
  = Some (if negb (sn_image node =? XNone) then
            (if negb (sn_mask node =? XNone)
             then [IconDraw.JXSetClipOrigin ix iy;
                   IconDraw.JXSetClipMask (sn_mask node)]
             else [])
            ++ [IconDraw.JXCopyArea (sn_image node) d 0 0
                  (sn_width node) (sn_height node) ix iy]
            ++ (if negb (sn_mask node =? XNone)
                then [IconDraw.JXSetClipMask XNone; IconDraw.JXSetClipOrigin 0 0]
                else [])
          else [],
          set_heap (<[icon := i']> (heap s1)) s1)
  ∧ image' ∈ images i'.
Proof.
  intros Hsoft Hi Hne Hbest Hg Hnode Hheap. cbv zeta. split.
  - unfold IconDraw.PutIcon. rewrite decide_False by exact Hne.
    rewrite Hi. simpl. rewrite Hbest. simpl. rewrite Hg. simpl.
    erewrite store_eq by (rewrite Hheap; exact Hi). simpl.
    rewrite Hnode. simpl. rewrite Hsoft.
    destruct (negb (sn_image node =? XNone)); reflexivity.
  - simpl. apply list_elem_of_lookup.
    exists (IconDraw.best_position width height (images i)).
    apply list_lookup_insert_eq. apply lookup_lt_is_Some.
    rewrite best_position_spec, Hbest. eauto.
Qed.

(** X12.  On the software path the pixmaps that [PutIcon] creates for an
    icon are kept in the record of the icon and are released with it: for
    an icon without a name that is in no bucket, and whose best variant
    has its pixel buffer complete and sides below 2^15, [PutIcon] returns,
    [DestroyIcon] called after it returns and frees the record, and every
    X resource that [PutIcon] created is among those that [DestroyIcon]
    frees. *)
Theorem PutIcon_DestroyIcon_no_leak icon i best d fg x y width height nw nh s :
  USE_XRENDER build && haveRender = false →
  heap s !! icon = Some i → icon ≠ emptyIcon →
  name i = None → prev i = None → next i = None →
  GetBestImage i width height = Some best →
  readable best →
  scaled_size (preserveAspect i) (img_width best) (img_height best) width height
    = Some (nw, nh) →
  nw < 2 ^ 15 → nh < 2 ^ 15 →
  ∃ draws s1 s2 created freed,
    IconDraw.PutIcon build haveRender rootDepth icon d fg x y width height s
      = Some (draws, s1)
    ∧ xlog s1 = xlog s ++ created
    ∧ DestroyIcon build (Some icon) s1 = Some s2
    ∧ heap s2 !! icon = None
    ∧ xlog s2 = xlog s1 ++ freed
    ∧ ∀ id, id ∈ omap created_id created → id ∈ omap freed_id freed.
Proof.
  intros Hsoft Hi Hne Hname Hprev Hnext Hbest Hread Hsize _ _.
  destruct (GetScaledIcon_returns build haveRender rootDepth i best fg width
              height s nw nh Hread Hsize) as (p & image' & s1 & Hg).
  destruct (GetScaledIcon_size _ _ _ _ _ _ _ _ _ _ _ _ Hg)
    as (nw' & nh' & node & _ & Hnode & _).
  destruct (GetScaledIcon_state _ _ _ _ _ _ _ _ _ _ _ _ Hsoft Hg)
    as (Hheap & _ & created & Hlog & Hcreated).
  destruct (PutIcon_software icon i best d fg x y width height s p image' s1
              node Hsoft Hi Hne Hbest Hg Hnode Hheap) as [Hput Hin].
  cbv zeta in Hput, Hin. rewrite Hput.
  set (i' := set_images _ i) in *.
  set (s2 := set_heap (<[icon := i']> (heap s1)) s1).
  assert (Hi' : heap s2 !! icon = Some i') by apply lookup_insert_eq.
  eexists _, s2, _, created, (free_images build (images i')).
  split; [reflexivity|]. split; [exact Hlog|].
  split; [apply (DestroyIcon_unnamed build s2 icon i' Hi'); assumption|].
  split; [apply lookup_delete_eq|]. split; [reflexivity|].
  intros id Hid. destruct (Hcreated id Hid) as (np & Hnp & Hfree).
  exact (free_images_elem _ image' np id Hin Hnp Hfree).
Qed.


End Drawing.

(** An instance of X12: an icon of two white variants, drawn and then
    destroyed. *)
Lemma PutIcon_DestroyIcon_no_leak_witness :
  ∃ draws s1 s2 created freed,
    IconDraw.PutIcon build_plain false 24 1%nat 9 0 100 50 24 24 icon_at_1
      = Some (draws, s1)
    ∧ xlog s1 = xlog icon_at_1 ++ created
    ∧ DestroyIcon build_plain (Some 1%nat) s1 = Some s2
    ∧ heap s2 !! 1%nat = None
    ∧ xlog s2 = xlog s1 ++ freed
    ∧ ∀ id, id ∈ omap created_id created → id ∈ omap freed_id freed.
Proof.
  apply (PutIcon_DestroyIcon_no_leak build_plain false 24 1%nat icon_white
           (white 32 32) 9 0 100 50 24 24 24 24 icon_at_1);
    try reflexivity; try lia; try discriminate.
  split; [simpl; lia|]. split; [simpl; lia|].
  vm_compute. split; [intros H; discriminate H | reflexivity].
Defined.


(** The rendering is made once: the same request, done again, draws the
    same and changes nothing. *)
Example PutIcon_twice :
  ∃ draws s1,
    IconDraw.PutIcon build_plain false 24 1%nat 9 0 100 50 24 24 icon_at_1
      = Some (draws, s1)
    ∧ xlog s1 = [XCreatePixmap 1 24 24 1; XCreatePixmap 2 24 24 24]
    ∧ IconDraw.PutIcon build_plain false 24 1%nat 9 0 100 50 24 24 s1
      = Some (draws, s1).
Proof.
  eexists _, _. split; [vm_compute; reflexivity|].
  split; vm_compute; reflexivity.
Qed.

(** ** The search paths *)

Section Paths.

Variable Trim : string → string.
Variable ExpandPath : string → string.

Lemma last_char_separator path :
  last_char (String.append path "/") = Some "/"%char.
Proof.
  induction path as [|c path IH]; [reflexivity|].
  simpl. destruct (String.append path "/") eqn:E; [|exact IH].
  destruct path; discriminate.
Qed.

(** X29.  [AddIconPath] appends to the search paths, so that the paths
    are searched in the order of their registration; the path it stores
    ends, before expansion, with one separator, which is added when the
    trimmed path has none at its end.  For a path that is empty once
    trimmed the character before the buffer is read. *)
Theorem AddIconPath_separator path s :
  match last_char (Trim path) with
  | None => AddIconPath Trim ExpandPath (Some path) s = None
  | Some c =>
      ∃ ip, AddIconPath Trim ExpandPath (Some path) s
            = Some (set_iconPaths (iconPaths s ++ [ExpandPath ip]) s)
        ∧ last_char ip = Some "/"%char
        ∧ ip = (if decide (c = "/"%char) then Trim path
                else String.append (Trim path) "/")
  end.
Proof.
  unfold AddIconPath. destruct (last_char (Trim path)) as [c|] eqn:Hc;
    [|reflexivity].
  simpl. destruct (decide (c = "/"%char)) as [->|Hne].
  - rewrite bool_decide_eq_true_2 by reflexivity. simpl.
    exists (Trim path). split; [reflexivity|]. split; [exact Hc | reflexivity].
  - rewrite bool_decide_eq_false_2 by exact Hne. simpl.
    eexists. split; [reflexivity|].
    split; [apply last_char_separator | reflexivity].
Qed.

End Paths.

(** ** Desktops that share a background *)

(** X30.  Going from a desktop to another one whose node has the same
    type and the same value changes nothing: the activation of the first
    returns, and the activation of the second after it sends no request
    and runs no command. *)
Theorem LoadBackground_shared_descriptor d d' s p p' node node' :
  bg_ok s →
  resolved d s = Some p → bg_deref s p = Some node →
  resolved d' s = Some p' → bg_deref s p' = Some node' →
  type node' = type node → value node' = value node →
  ∃ s1, LoadBackground d s = Some s1 ∧ LoadBackground d' s1 = Some s1.
Proof.
  intros Hok Hr Hn Hr' Hn' Ht Hv.
  destruct (LoadBackground_returns d s Hok) as [s1 H1].
  exists s1. split; [exact H1|].
  exact (LoadBackground_same_descriptor d d' s s1 p p' node node'
           H1 Hr Hn Hr' Hn' Ht Hv).
Qed.

Lemma LoadBackground_shared_descriptor_witness :
  ∃ s1, LoadBackground 0 blue_blue = Some s1 ∧ LoadBackground 1 s1 = Some s1.
Proof.
  apply (LoadBackground_shared_descriptor 0 1 blue_blue 0 1
           (mkBackground 0 BACKGROUND_SOLID "blue" (Some 4) None)
           (mkBackground 1 BACKGROUND_SOLID "blue" (Some 4) None));
    try reflexivity.
  split; intros p Hp; discriminate.
Defined.
